(** * dumpling, package export: the SQL helpers of [v4/export/sql.go]

    A shallow embedding of the chunking core of the exporter: the
    row-count sizing, the probe for the implicit row id, the choice of
    the ordering column, the reading of result sets into string rows,
    the planner based row estimate, the [LOCK TABLES] statement and the
    conversion of sorted boundary tuples into WHERE clauses.

    Conventions.
    - Go [string] is [string] (a sequence of bytes); [uint64] is [Z].
    - A Go [nil] slice and an empty slice are both the empty list.
    - A run-time panic (index out of range) is [None].
    - A [bytes.Buffer] is the text written so far, threaded through the
      builders by the small monad [Buf].
    - Case mapping and folding of strings is modelled on ASCII letters;
      other bytes are left as they are.
    - A Go map that is ranged over is a [gmap] together with the order in
      which the range visits it, an arbitrary permutation of its entries.
    - Log output ([tctx.L().Warn]) is not modelled. *)

From stdpp Require Import gmap strings list pretty.
From Stdlib Require Import ZArith Lia Ascii Floats.

(** ** Go strings *)

Module GoStrings.

Definition byte (c : ascii) : string := String c EmptyString.

(** [strings.ReplaceAll(s, old, new)] for a one-byte [old]. *)
Fixpoint ReplaceAllByte (s : string) (old : ascii) (new : string) : string :=
  match s with
  | EmptyString => EmptyString
  | String c s' =>
      if decide (c = old) then new +:+ ReplaceAllByte s' old new
      else String c (ReplaceAllByte s' old new)
  end.

Definition isLower (c : ascii) : bool :=
  let n := N_of_ascii c in (97 <=? n)%N && (n <=? 122)%N.
Definition isUpper (c : ascii) : bool :=
  let n := N_of_ascii c in (65 <=? n)%N && (n <=? 90)%N.

Definition upperByte (c : ascii) : ascii :=
  if isLower c then ascii_of_N (N_of_ascii c - 32) else c.
Definition lowerByte (c : ascii) : ascii :=
  if isUpper c then ascii_of_N (N_of_ascii c + 32) else c.

Fixpoint mapBytes (f : ascii -> ascii) (s : string) : string :=
  match s with
  | EmptyString => EmptyString
  | String c s' => String (f c) (mapBytes f s')
  end.

(** [strings.ToUpper], [strings.ToLower] and [strings.EqualFold]. *)
Definition ToUpper (s : string) : string := mapBytes upperByte s.
Definition ToLower (s : string) : string := mapBytes lowerByte s.
Definition EqualFold (s t : string) : bool := bool_decide (ToLower s = ToLower t).

(** [strings.HasPrefix] and [strings.Contains]. *)
Fixpoint HasPrefix (s prefix : string) : bool :=
  match prefix, s with
  | EmptyString, _ => true
  | String p prefix', String c s' => bool_decide (c = p) && HasPrefix s' prefix'
  | String _ _, EmptyString => false
  end.

Fixpoint Contains (s substr : string) : bool :=
  HasPrefix s substr
  || match s with
     | EmptyString => false
     | String _ s' => Contains s' substr
     end.

(** [strings.TrimSpace], on the ASCII white space. *)
Definition isSpace (c : ascii) : bool :=
  let n := N_of_ascii c in ((9 <=? n)%N && (n <=? 13)%N) || (n =? 32)%N.

Fixpoint trimLeft (s : string) : string :=
  match s with
  | EmptyString => EmptyString
  | String c s' => if isSpace c then trimLeft s' else s
  end.

Fixpoint trimRight (s : string) : string :=
  match s with
  | EmptyString => EmptyString
  | String c s' =>
      match trimRight s' with
      | EmptyString => if isSpace c then EmptyString else String c EmptyString
      | t => String c t
      end
  end.

Definition TrimSpace (s : string) : string := trimRight (trimLeft s).

(** The concatenation of a list of texts. *)
Definition catAll (l : list string) : string := foldr String.append EmptyString l.

(** [strings.Join(l, sep)]. *)
Fixpoint Join (l : list string) (sep : string) : string :=
  match l with
  | [] => EmptyString
  | [x] => x
  | x :: l' => x +:+ sep +:+ Join l' sep
  end.

End GoStrings.

(** [escapeString], sql.go lines 1034-1036: every backtick is doubled. *)
Definition escapeString (s : string) : string :=
  GoStrings.ReplaceAllByte s "`"%char "``".

(** ** [bytes.Buffer] as a monad

    A computation receives the text written so far and returns a value
    with the new text, or panics. *)

Module Buffer.

Definition Buf (A : Type) : Type := string -> option (A * string).

#[global] Instance Buf_ret : MRet Buf := fun A a buf => Some (a, buf).
#[global] Instance Buf_bind : MBind Buf := fun A B k m buf =>
  match m buf with
  | Some (a, buf') => k a buf'
  | None => None
  end.

Definition skip : Buf unit := mret tt.
Definition WriteString (s : string) : Buf unit :=
  fun buf => Some (tt, buf +:+ s).
Definition WriteByte (c : ascii) : Buf unit := WriteString (GoStrings.byte c).

(** [l[i]], which panics out of range. *)
Definition index {A} (l : list A) (i : nat) : Buf A :=
  fun buf => match l !! i with Some x => Some (x, buf) | None => None end.

(** [l[n:]], which panics when [n > len(l)]. *)
Definition sliceFrom {A} (l : list A) (n : nat) : Buf (list A) :=
  fun buf => if decide (n <= length l)%nat then Some (drop n l, buf) else None.

Definition lift {A} (o : option A) : Buf A :=
  fun buf => match o with Some x => Some (x, buf) | None => None end.

(** [for j := lo; j < lo + count; j++ { body j }]. *)
Fixpoint forRange (lo count : nat) (body : nat -> Buf unit) : Buf unit :=
  match count with
  | O => skip
  | S count' => body lo ;; forRange (S lo) count' body
  end.

(** [for i, x := range l { body i x }], started at index [i]. *)
Fixpoint forEachFrom {A} (i : nat) (l : list A) (body : nat -> A -> Buf unit)
  : Buf unit :=
  match l with
  | [] => skip
  | x :: l' => body i x ;; forEachFrom (S i) l' body
  end.

Definition forEach {A} (l : list A) (body : nat -> A -> Buf unit) : Buf unit :=
  forEachFrom 0 l body.

(** A fresh (or reset) buffer, the builder run on it, then [buf.String()]. *)
Definition contents (m : Buf unit) : option string :=
  match m EmptyString with Some (_, s) => Some s | None => None end.

(** [m] appends [text] to the buffer, whatever the buffer holds. *)
Definition writes (m : Buf unit) (text : string) : Prop :=
  forall buf, m buf = Some (tt, buf +:+ text).

End Buffer.

(** ** Errors and [database/sql]

    What the exporter observes of the libraries it calls. *)

Module Sql.

(** A Go [error]: a driver error (or [errors.New]) with its text, or an
    error wrapped by [errors.Annotatef] or [errors.Trace]. *)
Inductive Error :=
  | ErrorString (text : string)
  | Annotated (cause : Error) (message : string)
  | Traced (cause : Error).

(** [err.Error()]. *)
Fixpoint errorText (e : Error) : string :=
  match e with
  | ErrorString text => text
  | Annotated cause message => message +:+ ": " +:+ errorText cause
  | Traced cause => errorText cause
  end.

(** [errors.Cause(err)]. *)
Fixpoint Cause (e : Error) : Error :=
  match e with
  | ErrorString _ => e
  | Annotated cause _ | Traced cause => Cause cause
  end.

(** [errors.Annotatef] and [errors.Trace]; both keep [nil]. *)
Definition Annotatef (err : option Error) (message : string) : option Error :=
  match err with
  | Some e => Some (Annotated e message)
  | None => None
  end.

Definition Trace (err : option Error) : option Error :=
  match err with
  | Some e => Some (Traced e)
  | None => None
  end.

(** [sql.NullString]: [None] is [Valid == false], whose [String] is empty. *)
Definition NullString : Type := option string.
Definition nullText (v : NullString) : string := default EmptyString v.
Definition nullValid (v : NullString) : bool := bool_decide (is_Some v).

(** A result set: the outcome of [rows.Columns()], the rows not yet read
    (each one the values a [Scan] of it stores, or the error of that
    [Scan]) and the error that ended the iteration, if one did. *)
Record Rows := {
  rowsColumns : Error + list string;
  rowsPending : list (Error + list NullString);
  rowsFailure : option Error
}.

(** [rows.Scan(addr...)] with [n] destinations on the current row. *)
Definition Scan (n : nat) (current : option (Error + list NullString))
  : Error + list NullString :=
  match current with
  | None => inl (ErrorString "sql: Scan called without calling Next")
  | Some (inl err) => inl err
  | Some (inr values) =>
      if decide (length values = n) then inr values
      else inl (ErrorString "sql: wrong number of destination arguments in Scan")
  end.

(** [rows.Err()] once [rows.Next()] has been called on [pending]. *)
Definition errAfterNext (rows : Rows) : option Error :=
  match rowsPending rows with
  | [] => rowsFailure rows
  | _ :: _ => None
  end.

(** A connection: what [ExecContext] and [QueryContext] answer to a
    statement. *)
Record Conn := {
  ExecContext : string -> option Error;
  QueryContext : string -> Error + Rows
}.

(** A connection that answers every statement the same way. *)
Definition constConn (exec : option Error) (query : Error + Rows) : Conn :=
  {| ExecContext := fun _ => exec; QueryContext := fun _ => query |}.

Definition noRows : Rows :=
  {| rowsColumns := inr []; rowsPending := []; rowsFailure := None |}.

End Sql.

(** ** Metadata collector *)

Module Metadata.
Import Sql.

Definition errBadFieldCode : Z := 1054%Z.

Definition tiDBRowIDQuery (database table : string) : string :=
  "SELECT _tidb_rowid from `" +:+ escapeString database +:+ "`.`"
    +:+ escapeString table +:+ "` LIMIT 0".

(** [SelectTiDBRowID], sql.go lines 307-319. *)
Definition SelectTiDBRowID (db : Conn) (database table : string)
  : bool * option Error :=
  match ExecContext db (tiDBRowIDQuery database table) with
  | Some err =>
      let errMsg := GoStrings.ToLower (errorText err) in
      if GoStrings.Contains errMsg (pretty errBadFieldCode) then (false, None)
      else (false, Annotatef (Some err) ("sql: " +:+ tiDBRowIDQuery database table))
  | None => (true, None)
  end.

(** A server error as the tests of [SelectTiDBRowID] spell it. *)
Definition serverError (code : Z) (state message : string) : Error :=
  ErrorString ("ERROR " +:+ pretty code +:+ " (" +:+ state +:+ "): " +:+ message).

(** The table metadata the key selection reads: the accessors of the
    interface [TableMeta] that sql.go calls. *)
Record TableMeta := {
  DatabaseName : string;
  TableName : string;
  ColumnNames : list string;
  ColumnTypes : list string;
  HasImplicitRowID : bool
}.

Section ResultSets.
(** The order in which the [range] over [fieldIndexMp] visits the map
    while row number [n] is read. *)
Variable rangeOrder : nat -> gmap nat nat -> list (nat * nat).

(** Lines 509-516 of [GetSpecifiedColumnValuesAndClose]: column position
    to position in [columnName]. *)
Definition fieldIndexOf (columns columnName : list string) : gmap nat nat :=
  foldl (fun mp ic =>
           foldl (fun mp jn =>
                    if decide (GoStrings.ToUpper ic.2 = jn.2)
                    then <[ic.1 := jn.1]> mp else mp)
                 mp (imap pair columnName))
        ∅ (imap pair columns).

(** Lines 525-532: the texts of one scanned row. *)
Definition rowTexts (order : list (nat * nat)) (oneRow : list NullString)
    (n : nat) : bool * list string :=
  foldl (fun st cn =>
           match oneRow !! cn.1 with
           | Some (Some text) => (true, <[cn.2 := text]> st.2)
           | _ => st
           end)
        (false, replicate n EmptyString) order.

(** Lines 520-536: the loop over the rows, [strs] being the result so
    far and [n] the number of rows read. *)
Fixpoint readRows (fieldIndexMp : gmap nat nat) (width names : nat) (n : nat)
    (pending : list (Error + list NullString)) (strs : list (list string))
  : list (list string) * option Error :=
  match pending with
  | [] => (strs, None)
  | r :: pending' =>
      match Scan width (Some r) with
      | inl err => (strs, Trace (Some err))
      | inr oneRow =>
          let (written, tmpStr) :=
            rowTexts (rangeOrder n fieldIndexMp) oneRow names in
          readRows fieldIndexMp width names (S n) pending'
            (if written then strs ++ [tmpStr] else strs)
      end
  end.

(** [GetSpecifiedColumnValuesAndClose], sql.go lines 496-538. *)
Definition GetSpecifiedColumnValuesAndClose (rows : option Rows)
    (columnName : list string) : list (list string) * option Error :=
  match rows with
  | None => ([], None)
  | Some rows =>
      match rowsColumns rows with
      | inl err => ([], Trace (Some err))
      | inr columns =>
          let fieldIndexMp := fieldIndexOf columns columnName in
          if decide (size fieldIndexMp = 0%nat) then ([], None)
          else
            match readRows fieldIndexMp (length columns) (length columnName)
                    0 (rowsPending rows) [] with
            | (strs, Some err) => (strs, Some err)
            | (strs, None) => (strs, Trace (rowsFailure rows))
            end
      end
  end.

(** A scanned row has a value in one of the requested columns. *)
Definition keptRow (fieldIndexMp : gmap nat nat) (oneRow : list NullString)
  : bool :=
  existsb (fun cn => nullValid (default None (oneRow !! cn.1)))
    (map_to_list fieldIndexMp).

(** What the result holds for a scanned row: one text per requested
    name, empty where every column of that name is NULL (or absent), and
    the value of the column where one column has that name. *)
Definition rowRel (fieldIndexMp : gmap nat nat) (names : nat)
    (oneRow : list NullString) (out : list string) : Prop :=
  length out = names
  ∧ (forall namePos, namePos < names ->
       (forall colPos text, fieldIndexMp !! colPos = Some namePos ->
          oneRow !! colPos ≠ Some (Some text)) ->
       out !! namePos = Some EmptyString)
  ∧ (forall colPos namePos text,
       namePos < names ->
       fieldIndexMp !! colPos = Some namePos ->
       oneRow !! colPos = Some (Some text) ->
       (forall colPos', fieldIndexMp !! colPos' = Some namePos -> colPos' = colPos) ->
       out !! namePos = Some text).

(** The helper [string2Map] and the table [dataTypeNum] are declared in
    other files of the package. *)
Variable string2Map : list string -> list string -> gmap string string.
Variable dataTypeNum : gset string.

Definition showIndexQuery (database table : string) : string :=
  "SHOW INDEX FROM `" +:+ escapeString database +:+ "`.`"
    +:+ escapeString table +:+ "`".

(** [oneRow[i]] of a row of [GetSpecifiedColumnValuesAndClose]. *)
Definition field (oneRow : list string) (i : nat) : string :=
  default EmptyString (oneRow !! i).

(** The loop of [getNumericIndex], lines 405-413, and the [return] that
    follows it. *)
Fixpoint numericIndexLoop (colName2Type : gmap string string)
    (results : list (list string)) (uniqueColumnName : string)
  : string :=
  match results with
  | [] => uniqueColumnName
  | oneRow :: results' =>
      let ok :=
        bool_decide (default EmptyString (colName2Type !! field oneRow 2)
                       ∈ dataTypeNum) in
      if ok && bool_decide (field oneRow 1 = "PRIMARY") then field oneRow 2
      else
        numericIndexLoop colName2Type results'
          (if bool_decide (uniqueColumnName ≠ EmptyString)
              && bool_decide (field oneRow 0 = "0") && ok
           then field oneRow 2 else uniqueColumnName)
  end.

(** [getNumericIndex], sql.go lines 391-415. *)
Definition getNumericIndex (db : Conn) (meta : TableMeta)
  : string * option Error :=
  let database := DatabaseName meta in
  let table := TableName meta in
  let colName2Type := string2Map (ColumnNames meta) (ColumnTypes meta) in
  let keyQuery := showIndexQuery database table in
  match QueryContext db keyQuery with
  | inl err => (EmptyString, Annotatef (Some err) ("sql: " +:+ keyQuery))
  | inr rows =>
      match GetSpecifiedColumnValuesAndClose (Some rows)
              ["NON_UNIQUE"; "KEY_NAME"; "COLUMN_NAME"] with
      | (_, Some err) =>
          (EmptyString, Annotatef (Some err) ("sql: " +:+ keyQuery))
      | (results, None) =>
          (numericIndexLoop colName2Type results EmptyString, None)
      end
  end.

(** [pickupPossibleField], sql.go lines 888-901. *)
Definition pickupPossibleField (meta : TableMeta) (db : Conn)
  : string * option Error :=
  if HasImplicitRowID meta then ("_tidb_rowid", None)
  else
    match getNumericIndex db meta with
    | (_, Some err) => (EmptyString, Some err)
    | (fieldName, None) => (fieldName, None)
    end.
End ResultSets.

(** The result of [SHOW INDEX] for a table whose only index is a unique
    key on the integer column [id], and the metadata of that table. *)
Definition uniqueKeyIndex : Rows :=
  {| rowsColumns := inr ["Table"; "Non_unique"; "Key_name"; "Seq_in_index";
                         "Column_name"];
     rowsPending := [inr [Some "t"; Some "0"; Some "uk_id"; Some "1"; Some "id"]];
     rowsFailure := None |}.

Definition uniqueKeyMeta : TableMeta :=
  {| DatabaseName := "test"; TableName := "t"; ColumnNames := ["id"; "name"];
     ColumnTypes := ["INT"; "VARCHAR"]; HasImplicitRowID := false |}.

(** The same table with the key declared as the primary key. *)
Definition primaryKeyIndex : Rows :=
  {| rowsColumns := inr ["Table"; "Non_unique"; "Key_name"; "Seq_in_index";
                         "Column_name"];
     rowsPending := [inr [Some "t"; Some "0"; Some "PRIMARY"; Some "1"; Some "id"]];
     rowsFailure := None |}.

(** A result set with NULLs, for the examples. *)
Definition nullsExample : Rows :=
  {| rowsColumns := inr ["a"; "b"; "c"];
     rowsPending := [inr [Some "1"; None; Some "x"];
                     inr [None; None; Some "y"];
                     inr [None; Some "2"; None]];
     rowsFailure := None |}.

(** An instance of the declarations of the other files, for the examples. *)
Definition zipMap (a b : list string) : gmap string string :=
  list_to_map (zip a b).
Definition integerTypes : gset string :=
  {[ "INT"; "BIGINT"; "SMALLINT"; "TINYINT"; "MEDIUMINT" ]}.

End Metadata.

(** ** Estimator: [GetSuitableRows] and the planner estimate *)

Module Estimator.
Local Open Scope Z_scope.

Definition defaultRows : Z := 200000.
Definition maxRows : Z := 1000000.
Definition bytesPerFile : Z := 128 * 1024 * 1024.

(** [GetSuitableRows], sql.go lines 322-336.  All three constants and
    the quotient fit in 64 bits, so no wrap-around can occur. *)
Definition GetSuitableRows (avgRowLength : Z) : Z :=
  if avgRowLength =? 0 then defaultRows
  else
    let estimateRows := bytesPerFile / avgRowLength in
    if estimateRows >? maxRows then maxRows else estimateRows.

(** [uint64(f)] for a [float64]: the fraction is discarded; where the
    result does not fit, Go leaves the value to the implementation, here
    [outOfRange]. *)
Definition float64ToUint64 (outOfRange : float -> Z) (f : float) : Z :=
  match Prim2SF f with
  | S754_zero _ => 0
  | S754_finite sign m e =>
      let magnitude :=
        if 0 <=? e then Z.pos m * 2 ^ e else Z.pos m / 2 ^ (- e) in
      if magnitude =? 0 then 0
      else if negb sign && (magnitude <? 2 ^ 64) then magnitude
      else outOfRange f
  | _ => outOfRange f
  end.

Section PlannerEstimate.
Import Sql.

(** [strconv.ParseFloat(s, 64)]; [None] when it returns an error. *)
Variable ParseFloat : string -> option float.
Variable outOfRange : float -> Z.

(** The inner loop of lines 974-979: the column name folds to one of
    the field names. *)
Definition matchesField (fieldNames : list string) (column : string) : bool :=
  existsb (fun fieldName => GoStrings.EqualFold column fieldName) fieldNames.

(** The labelled loops of [detectEstimateRows], lines 972-980; [None]
    stands for the initial [fieldIndex] of -1. *)
Fixpoint findFieldFrom (i : nat) (columns fieldNames : list string)
  : option nat :=
  match columns with
  | [] => None
  | column :: columns' =>
      if matchesField fieldNames column then Some i
      else findFieldFrom (S i) columns' fieldNames
  end.

(** [detectEstimateRows], sql.go lines 945-995. *)
Definition detectEstimateRows (db : Conn) (query : string)
    (fieldNames : list string) : Z :=
  match QueryContext db query with
  | inl _ => 0
  | inr rows =>
      match rowsColumns rows with
      | inl _ => 0
      | inr columns =>
          match errAfterNext rows with
          | Some _ => 0
          | None =>
              let fieldIndex := findFieldFrom 0 columns fieldNames in
              match Scan (length columns) (head (rowsPending rows)),
                    fieldIndex with
              | inr oneRow, Some i =>
                  match ParseFloat (nullText (default None (oneRow !! i))) with
                  | None => 0
                  | Some estRows => float64ToUint64 outOfRange estRows
                  end
              | _, _ => 0
              end
          end
      end
  end.

Definition estimateFieldNames : list string := ["rows"; "estRows"; "count"].

Definition explainQuery (dbName tableName field confWhere : string) : string :=
  (if bool_decide (GoStrings.TrimSpace field = "*")
      || bool_decide (GoStrings.TrimSpace field = EmptyString)
   then "EXPLAIN SELECT * FROM `" +:+ escapeString dbName +:+ "`.`"
          +:+ escapeString tableName +:+ "`"
   else "EXPLAIN SELECT `" +:+ escapeString field +:+ "` FROM `"
          +:+ escapeString dbName +:+ "`.`" +:+ escapeString tableName +:+ "`")
  +:+ (if bool_decide (confWhere ≠ EmptyString)
       then " WHERE " +:+ confWhere else EmptyString).

(** [estimateCount], sql.go lines 903-943; [confWhere] is [conf.Where]. *)
Definition estimateCount (dbName tableName : string) (db : Conn)
    (field confWhere : string) : Z :=
  let estRows :=
    detectEstimateRows db (explainQuery dbName tableName field confWhere)
      estimateFieldNames in
  if estRows >? 0 then estRows else 0.
End PlannerEstimate.

(** A plan as TiDB prints it, for the examples: one row whose [estRows]
    is 10000.00; and a parser that knows this one text. *)
Definition tidbPlan : Sql.Rows :=
  {| Sql.rowsColumns := inr ["id"; "estRows"; "task"; "access object"; "operator info"];
     Sql.rowsPending :=
       [inr [Some "tablereader_5"; Some "10000.00"; Some "root"; None;
             Some "data:tablefullscan_4"]];
     Sql.rowsFailure := None |}.

Definition parseTenThousand (s : string) : option float :=
  if bool_decide (s = "10000.00") then Some 10000%float else None.

End Estimator.

(** ** Consistency manager: the [LOCK TABLES] statement *)

Module Consistency.

(** The table kinds and the record [TableInfo], declared in another file of
    the package; [buildLockTablesSQL] reads the name and the kind. *)
Inductive TableType := TableTypeBase | TableTypeView.

#[global] Instance TableType_eq_dec : EqDecision TableType.
Proof. solve_decision. Defined.

Record TableInfo := {
  Name : string;
  AvgRowLength : Z;
  Type_ : TableType
}.

Section LockTables.
(** The order in which the [range] over [allTables] visits the map. *)
Variable rangeOrder :
  gmap string (list TableInfo) -> list (string * list TableInfo).

Definition blocked (blockList : gmap string (gset string))
    (dbName tableName : string) : bool :=
  match blockList !! dbName with
  | Some blockTable => bool_decide (tableName ∈ blockTable)
  | None => false
  end.

(** The body of the inner loop, lines 832-849: the buffer [s] and the
    flag [n]. *)
Definition lockStep (blockList : gmap string (gset string)) (dbName : string)
    (st : string * bool) (table : TableInfo) : string * bool :=
  let escapedDBName := escapeString dbName in
  if decide (Type_ table ≠ TableTypeBase) then st
  else if blocked blockList dbName (Name table) then st
  else if negb st.2 then
    (st.1 +:+ "LOCK TABLES `" +:+ escapedDBName +:+ "`.`"
       +:+ escapeString (Name table) +:+ "` READ", true)
  else
    (st.1 +:+ ",`" +:+ escapedDBName +:+ "`.`"
       +:+ escapeString (Name table) +:+ "` READ", true).

(** [buildLockTablesSQL], sql.go lines 825-852. *)
Definition buildLockTablesSQL (allTables : gmap string (list TableInfo))
    (blockList : gmap string (gset string)) : string :=
  (foldl (fun st dt => foldl (lockStep blockList dt.1) st dt.2)
         (EmptyString, false) (rangeOrder allTables)).1.

(** The tables of one database that the statement is to name. *)
Definition lockedOf (blockList : gmap string (gset string)) (dbName : string)
    (tables : list TableInfo) : list (string * string) :=
  table ← tables;
  if decide (Type_ table = TableTypeBase)
  then (if blocked blockList dbName (Name table) then []
        else [(dbName, Name table)])
  else [].

(** The tables the statement is to name, in the order of the range:
    the base tables that are not on the block list. *)
Definition lockedTables (allTables : gmap string (list TableInfo))
    (blockList : gmap string (gset string)) : list (string * string) :=
  dt ← rangeOrder allTables; lockedOf blockList dt.1 dt.2.

Definition lockItem (dn : string * string) : string :=
  "`" +:+ escapeString dn.1 +:+ "`.`" +:+ escapeString dn.2 +:+ "` READ".

(** The statement that locks the given tables; no statement for none. *)
Definition lockStatement (tables : list (string * string)) : string :=
  match tables with
  | [] => EmptyString
  | dn :: tables' =>
      "LOCK TABLES " +:+ lockItem dn
        +:+ GoStrings.catAll ((fun dn' => "," +:+ lockItem dn') <$> tables')
  end.
(** The buffer and the flag after the tables [sel] have been written. *)
Definition lockState (sel : list (string * string)) : string * bool :=
  (lockStatement sel, bool_decide (sel ≠ [])).
End LockTables.

(** A schema for the examples: one base table and one view. *)
Definition exampleTables : gmap string (list TableInfo) :=
  {[ "db" := [ {| Name := "t1"; AvgRowLength := 0; Type_ := TableTypeBase |};
               {| Name := "v1"; AvgRowLength := 0; Type_ := TableTypeView |} ] ]}.

End Consistency.

(** ** Range partitioner: WHERE clauses from boundary tuples *)

Module Partitioner.
Import Buffer.
Local Open Scope nat_scope.

Definition greater : ascii := ">"%char.
Definition less : ascii := "<"%char.
Definition equal : ascii := "="%char.

(** The inner loop of [buildCompareClause], lines 723-728: column [j] is
    pinned to the bound. *)
Definition pinStep (quotaCols bound : list string) (j : nat) : Buf unit :=
  qj ← index quotaCols j; WriteString qj ;;
  WriteByte equal ;;
  bj ← index bound j; WriteString bj ;;
  WriteString " and ".

(** The body of the outer loop of [buildCompareClause], lines 720-739. *)
Definition compareStep (quotaCols bound : list string) (compare : ascii)
    (writeEqual : bool) (i : nat) (col : string) : Buf unit :=
  (if decide (0 < i) then WriteString "or(" else skip) ;;
  forRange 0 i (pinStep quotaCols bound) ;;
  WriteString col ;;
  WriteByte compare ;;
  (if writeEqual && bool_decide (i = length quotaCols - 1)
   then WriteByte equal else skip) ;;
  bi ← index bound i; WriteString bi ;;
  if decide (0 < i) then WriteByte ")"%char
  else if decide (i ≠ length quotaCols - 1) then WriteByte " "%char
  else skip.

(** [buildCompareClause], sql.go lines 718-741. *)
Definition buildCompareClause (quotaCols bound : list string)
    (compare : ascii) (writeEqual : bool) : Buf unit :=
  forEach quotaCols (compareStep quotaCols bound compare writeEqual).

(** [getCommonLength], sql.go lines 744-751; [up[i]] panics when [up] is
    shorter than the common prefix requires. *)
Fixpoint getCommonLengthFrom (i : nat) (low up : list string) : option nat :=
  match low with
  | [] => Some i
  | li :: low' =>
      match up !! i with
      | None => None
      | Some ui =>
          if decide (li ≠ ui) then Some i
          else getCommonLengthFrom (S i) low' up
      end
  end.

Definition getCommonLength (low up : list string) : option nat :=
  getCommonLengthFrom 0 low up.

(** The closure [singleBetween] of [buildBetweenClause], lines 756-767;
    it reads the variables [quotaCols], [low] and [up] at the time it is
    called. *)
Definition singleBetween (quotaCols low up : list string) (writeEqual : bool)
  : Buf unit :=
  q ← index quotaCols 0; WriteString q ;;
  WriteByte greater ;;
  (if writeEqual then WriteByte equal else skip) ;;
  l ← index low 0; WriteString l ;;
  WriteString " and " ;;
  q' ← index quotaCols 0; WriteString q' ;;
  WriteByte less ;;
  u ← index up 0; WriteString u.

(** Lines 791-810 of [buildBetweenClause]: the columns on which the two
    bounds differ first. *)
Definition betweenSuffix (quotaCols low up : list string) : Buf unit :=
  if decide (length quotaCols = 1) then singleBetween quotaCols low up true
  else
    WriteByte "("%char ;;
    singleBetween quotaCols low up false ;;
    WriteString ")or(" ;;
    q ← index quotaCols 0; WriteString q ;;
    WriteByte equal ;;
    l ← index low 0; WriteString l ;;
    WriteString " and(" ;;
    cols1 ← sliceFrom quotaCols 1; low1 ← sliceFrom low 1;
    buildCompareClause cols1 low1 greater true ;;
    WriteString "))or(" ;;
    q' ← index quotaCols 0; WriteString q' ;;
    WriteByte equal ;;
    u ← index up 0; WriteString u ;;
    WriteString " and(" ;;
    cols1' ← sliceFrom quotaCols 1; up1 ← sliceFrom up 1;
    buildCompareClause cols1' up1 less false ;;
    WriteString "))".

(** The body of the loop over the common prefix, lines 776-783. *)
Definition prefixStep (quotaCols low : list string) (i : nat) : Buf unit :=
  (if decide (0 < i) then WriteString " and " else skip) ;;
  q ← index quotaCols i; WriteString q ;;
  WriteByte equal ;;
  l ← index low i; WriteString l.

(** [buildBetweenClause], sql.go lines 755-811.  The deferred
    [buf.WriteByte(')')] runs when the function returns. *)
Definition buildBetweenClause (quotaCols low up : list string) : Buf unit :=
  commonLen ← lift (getCommonLength low up);
  if decide (0 < commonLen) then
    if decide (commonLen = length low) then WriteString "false"
    else
      forRange 0 commonLen (prefixStep quotaCols low) ;;
      WriteString " and(" ;;
      quotaCols' ← sliceFrom quotaCols commonLen;
      low' ← sliceFrom low commonLen;
      up' ← sliceFrom up commonLen;
      betweenSuffix quotaCols' low' up' ;;
      WriteByte ")"%char
  else betweenSuffix quotaCols low up.

(** [fmt.Sprintf] of a backtick-quoted identifier. *)
Definition quoteCol (s : string) : string := "`" +:+ escapeString s +:+ "`".

(** [buildWhereClauses], sql.go lines 682-705.  The buffer is reset after
    every clause, so every clause is built on an empty one. *)
Definition buildWhereClauses (handleColNames : list string)
    (handleVals : list (list string)) : option (list string) :=
  if decide (length handleColNames = 0 ∨ length handleVals = 0) then Some []
  else
    let quotaCols := quoteCol <$> handleColNames in
    first ← handleVals !! 0;
    w0 ← contents (buildCompareClause quotaCols first less false);
    ws ← mapM (fun i =>
            low ← handleVals !! (i - 1);
            up ← handleVals !! i;
            contents (buildBetweenClause quotaCols low up))
          (seq 1 (length handleVals - 1));
    last ← handleVals !! (length handleVals - 1);
    wn ← contents (buildCompareClause quotaCols last greater true);
    Some ([w0] ++ ws ++ [wn]).

(** *** The clauses as syntax trees

    The text of a clause is the rendering of a boolean expression; the
    rendering puts a blank between two tokens exactly where neither of
    them is a parenthesis, which is the layout the builders write. *)

Inductive cmpOp := OpLt | OpLe | OpGt | OpGe | OpEq.

Inductive pred :=
  | PFalse
  | PCmp (col : string) (op : cmpOp) (val : string)
  | PParen (p : pred)
  | PAnd (p q : pred)
  | POr (p q : pred).

Definition opText (op : cmpOp) : string :=
  match op with
  | OpLt => "<" | OpLe => "<=" | OpGt => ">" | OpGe => ">=" | OpEq => "="
  end.

Fixpoint startsParen (p : pred) : bool :=
  match p with
  | PParen _ => true
  | PAnd p _ | POr p _ => startsParen p
  | _ => false
  end.

Fixpoint endsParen (p : pred) : bool :=
  match p with
  | PParen _ => true
  | PAnd _ q | POr _ q => endsParen q
  | _ => false
  end.

(** Neither the first nor the last token is a parenthesis. *)
Definition atomic (p : pred) : Prop :=
  startsParen p = false ∧ endsParen p = false.

Definition gap (paren : bool) : string := if paren then EmptyString else " ".

Fixpoint render (p : pred) : string :=
  match p with
  | PFalse => "false"
  | PCmp c op v => c +:+ opText op +:+ v
  | PParen p => "(" +:+ render p +:+ ")"
  | PAnd p q =>
      render p +:+ gap (endsParen p) +:+ "and" +:+ gap (startsParen q) +:+ render q
  | POr p q =>
      render p +:+ gap (endsParen p) +:+ "or" +:+ gap (startsParen q) +:+ render q
  end.

(** In SQL [and] binds tighter than [or]: a rendering is read back as the
    same tree when no disjunction is a direct operand of a conjunction. *)
Definition isOr (p : pred) : bool :=
  match p with POr _ _ => true | _ => false end.

Fixpoint precOk (p : pred) : bool :=
  match p with
  | PFalse | PCmp _ _ _ => true
  | PParen p => precOk p
  | PAnd p q => negb (isOr p) && negb (isOr q) && precOk p && precOk q
  | POr p q => precOk p && precOk q
  end.

(** Neither a disjunction nor a tree with one under a conjunction. *)
Definition plain (p : pred) : Prop := isOr p = false ∧ precOk p = true.

(** The length of the common prefix of two boundary tuples. *)
Fixpoint commonPrefix (low up : list string) : nat :=
  match low, up with
  | l :: low', u :: up' =>
      if decide (l = u) then S (commonPrefix low' up') else 0
  | _, _ => 0
  end.

(** The direction byte of [buildCompareClause]. *)
Inductive direction := Less | Greater.

Definition dirByte (d : direction) : ascii :=
  match d with Less => less | Greater => greater end.

Definition dirOp (d : direction) (orEqual : bool) : cmpOp :=
  match d, orEqual with
  | Less, false => OpLt | Less, true => OpLe
  | Greater, false => OpGt | Greater, true => OpGe
  end.

Definition eqAtom (cb : string * string) : pred := PCmp cb.1 OpEq cb.2.

Definition andAll (p : pred) (ps : list pred) : pred := foldl PAnd p ps.
Definition orAll (p : pred) (ps : list pred) : pred := foldl POr p ps.

(** One alternative of a compare clause: the columns before it are pinned
    to the bound, the column itself is compared. *)
Definition altAst (pre : list (string * string)) (c : string) (op : cmpOp)
    (b : string) : pred :=
  match eqAtom <$> pre with
  | [] => PCmp c op b
  | e :: es => andAll e (es ++ [PCmp c op b])
  end.

Fixpoint compareAlts (d : direction) (writeEqual : bool)
    (pre rest : list (string * string)) : list pred :=
  match rest with
  | [] => []
  | (c, b) :: rest' =>
      let op := dirOp d (writeEqual && bool_decide (rest' = [])) in
      let a := altAst pre c op b in
      (if pre is [] then a else PParen a)
        :: compareAlts d writeEqual (pre ++ [(c, b)]) rest'
  end.

Definition compareAst (d : direction) (writeEqual : bool)
    (quotaCols bound : list string) : pred :=
  match compareAlts d writeEqual [] (zip quotaCols bound) with
  | [] => PFalse
  | a :: alts => orAll a alts
  end.

Definition singleBetweenAst (c l u : string) (writeEqual : bool) : pred :=
  PAnd (PCmp c (dirOp Greater writeEqual) l) (PCmp c OpLt u).

Definition betweenSuffixAst (quotaCols low up : list string) : pred :=
  match quotaCols, low, up with
  | [c], l :: _, u :: _ => singleBetweenAst c l u true
  | c :: cols1, l :: low1, u :: up1 =>
      POr (POr (PParen (singleBetweenAst c l u false))
               (PParen (PAnd (PCmp c OpEq l)
                             (PParen (compareAst Greater true cols1 low1)))))
          (PParen (PAnd (PCmp c OpEq u)
                        (PParen (compareAst Less false cols1 up1))))
  | _, _, _ => PFalse
  end.

Definition betweenAst (quotaCols low up : list string) : pred :=
  match getCommonLength low up with
  | None => PFalse
  | Some commonLen =>
      if decide (0 < commonLen) then
        if decide (commonLen = length low) then PFalse
        else
          match eqAtom <$> zip (take commonLen quotaCols) (take commonLen low) with
          | [] => PFalse
          | e :: es =>
              PAnd (andAll e es)
                   (PParen (betweenSuffixAst (drop commonLen quotaCols)
                              (drop commonLen low) (drop commonLen up)))
          end
      else betweenSuffixAst quotaCols low up
  end.

Definition whereAsts (quotaCols : list string) (handleVals : list (list string))
  : list pred :=
  match handleVals with
  | [] => []
  | first :: _ =>
      [compareAst Less false quotaCols first]
        ++ ((fun lu => betweenAst quotaCols lu.1 lu.2)
              <$> zip handleVals (tail handleVals))
        ++ [compareAst Greater true quotaCols (default first (last handleVals))]
  end.

(** *** Meaning of a clause on a row

    A row gives every column identifier, as the clause writes it, a value
    of the ordered domain [V]; [lit] is the value a literal denotes.  The
    columns of the key hold no NULL (they are the implicit row id or the
    columns of a primary key), so every comparison is true or false. *)

Section Semantics.
Context {V : Type} `{EqDecision V}.
Variable vlt : V -> V -> bool.
Variable lit : string -> V.

Definition evalOp (op : cmpOp) (a b : V) : bool :=
  match op with
  | OpLt => vlt a b
  | OpLe => vlt a b || bool_decide (a = b)
  | OpGt => vlt b a
  | OpGe => vlt b a || bool_decide (a = b)
  | OpEq => bool_decide (a = b)
  end.

Fixpoint eval (row : string -> V) (p : pred) : bool :=
  match p with
  | PFalse => false
  | PCmp c op v => evalOp op (row c) (lit v)
  | PParen p => eval row p
  | PAnd p q => eval row p && eval row q
  | POr p q => eval row p || eval row q
  end.

(** Lexicographic order on tuples of the same length. *)
Fixpoint lexLt (k b : list V) : bool :=
  match k, b with
  | x :: k', y :: b' => vlt x y || (bool_decide (x = y) && lexLt k' b')
  | _, _ => false
  end.

Fixpoint lexLe (k b : list V) : bool :=
  match k, b with
  | x :: k', y :: b' => vlt x y || (bool_decide (x = y) && lexLe k' b')
  | [], [] => true
  | _, _ => false
  end.

(** The row agrees with the bound on the given (column, literal) pairs. *)
Definition pinned (row : string -> V) (pre : list (string * string)) : bool :=
  forallb (fun cb => bool_decide (row cb.1 = lit cb.2)) pre.

(** The key tuple of a row and the tuple a boundary denotes. *)
Definition keyOf (row : string -> V) (quotaCols : list string) : list V :=
  row <$> quotaCols.
Definition tupleOf (bound : list string) : list V := lit <$> bound.

(** The boundary sequence is sorted (duplicates allowed). *)
Definition sortedBounds (handleVals : list (list string)) : Prop :=
  forall i lo up,
    handleVals !! i = Some lo -> handleVals !! S i = Some up ->
    lexLe (tupleOf lo) (tupleOf up) = true.

(** Different literal texts among the boundaries denote different values. *)
Definition canonicalLits (handleVals : list (list string)) : Prop :=
  forall t1 t2 s1 s2, t1 ∈ handleVals -> t2 ∈ handleVals ->
    s1 ∈ t1 -> s2 ∈ t2 -> lit s1 = lit s2 -> s1 = s2.

(** Both properties as checks that compute. *)
Fixpoint sortedBoundsb (handleVals : list (list string)) : bool :=
  match handleVals with
  | lo :: rest =>
      match rest with
      | up :: _ => lexLe (tupleOf lo) (tupleOf up) && sortedBoundsb rest
      | [] => true
      end
  | [] => true
  end.

Definition canonicalLitsb (handleVals : list (list string)) : bool :=
  forallb (fun s1 =>
             forallb (fun s2 =>
                        implb (bool_decide (lit s1 = lit s2))
                              (bool_decide (s1 = s2)))
                     (concat handleVals))
          (concat handleVals).

(** The comparison a compare clause stands for. *)
Definition lexDir (d : direction) (orEqual : bool) (k b : list V) : bool :=
  match d, orEqual with
  | Less, false => lexLt k b
  | Less, true => lexLe k b
  | Greater, false => lexLt b k
  | Greater, true => lexLe b k
  end.

(** The chunk a key falls in: the number of boundaries at or below it. *)
Definition chunkOf (handleVals : list (list string)) (k : list V) : nat :=
  length (filter (fun t => lexLe (tupleOf t) k = true) handleVals).
End Semantics.

(** The boundary tuples fit the columns, are sorted and canonical. *)
Definition wellFormed {V : Type} `{EqDecision V}
    (vlt : V -> V -> bool) (lit : string -> V)
    (quotaCols : list string) (handleVals : list (list string)) : Prop :=
  quotaCols ≠ []
  ∧ Forall (fun t => length t = length quotaCols) handleVals
  ∧ sortedBounds vlt lit handleVals
  ∧ canonicalLits lit handleVals.

(** Integer literals, for the examples: the value of a decimal numeral. *)
Definition digitValue (c : ascii) : Z := (Z.of_N (N_of_ascii c) - 48)%Z.

Fixpoint decimalFrom (acc : Z) (s : string) : Z :=
  match s with
  | EmptyString => acc
  | String c s' => decimalFrom (10 * acc + digitValue c)%Z s'
  end.

Definition decimalLit (s : string) : Z := decimalFrom 0%Z s.

(** A row of a table with the integer columns a and b, for the examples. *)
Definition rowAB (a b : Z) : string -> Z :=
  fun c => if bool_decide (c = "`a`") then a else b.

(** A strict total order on the value domain. *)
Record strictTotal {V : Type} (vlt : V -> V -> bool) : Prop := {
  vlt_irrefl : forall a, vlt a a = false;
  vlt_trans : forall a b c, vlt a b = true -> vlt b c = true -> vlt a c = true;
  vlt_total : forall a b, vlt a b = true \/ a = b \/ vlt b a = true
}.

End Partitioner.

(** * The rest of sql.go

    The builders of the dump queries, the helpers that run a statement and
    read its answer, and the callers of
    [GetSpecifiedColumnValuesAndClose]. *)

(** ** Quoted identifiers, as the server reads them *)

Module Quoting.

(** The text after the opening backtick of a quoted identifier: a doubled
    backtick stands for one backtick of the name, a single one ends the
    name.  The result is the name and the text after the closing backtick;
    there is none when the identifier is not closed. *)
Fixpoint readQuotedBody (s : string) : option (string * string) :=
  match s with
  | EmptyString => None
  | String c s' =>
      if decide (c = "`"%char) then
        match s' with
        | String c' s'' =>
            if decide (c' = "`"%char) then
              match readQuotedBody s'' with
              | Some (name, rest) => Some (String "`"%char name, rest)
              | None => None
              end
            else Some (EmptyString, s')
        | EmptyString => Some (EmptyString, EmptyString)
        end
      else
        match readQuotedBody s' with
        | Some (name, rest) => Some (String c name, rest)
        | None => None
        end
  end.

Definition readQuoted (s : string) : option (string * string) :=
  match s with
  | String c s' => if decide (c = "`"%char) then readQuotedBody s' else None
  | EmptyString => None
  end.

(** The text does not go on with a backtick. *)
Definition noBacktickAhead (s : string) : Prop :=
  match s with
  | String c _ => c ≠ "`"%char
  | EmptyString => True
  end.

(** The number of backticks of a text. *)
Fixpoint backticks (s : string) : nat :=
  match s with
  | EmptyString => 0
  | String c s' => (if decide (c = "`"%char) then 1 else 0) + backticks s'
  end.

End Quoting.

(** ** The builders of the dump queries *)

Module QueryBuilder.

(** The fields of [Config] that the builders of sql.go read. *)
Record Config := {
  Where : string;
  SortByPk : bool
}.

Definition orderByTiDBRowID : string := "ORDER BY `_tidb_rowid`".

(** [buildSelectQuery], sql.go lines 259-290; [query] is the
    [strings.Builder]. *)
Definition buildSelectQuery
    (database table fields partition where_ orderByClause : string) : string :=
  let query := EmptyString in
  let query := query +:+ "SELECT " in
  let fields := if decide (fields = EmptyString) then "''" else fields in
  let query := query +:+ fields in
  let query := query +:+ " FROM `" in
  let query := query +:+ escapeString database in
  let query := query +:+ "`.`" in
  let query := query +:+ escapeString table in
  let query := query +:+ GoStrings.byte "`" in
  let query :=
    if decide (partition ≠ EmptyString) then
      let query := query +:+ " PARTITION(`" in
      let query := query +:+ escapeString partition in
      query +:+ "`)"
    else query in
  let query :=
    if decide (where_ ≠ EmptyString) then
      let query := query +:+ " " in
      query +:+ where_
    else query in
  let query :=
    if decide (orderByClause ≠ EmptyString) then
      let query := query +:+ " " in
      query +:+ orderByClause
    else query in
  query.

(** [buildWhereCondition], sql.go lines 1015-1032. *)
Definition buildWhereCondition (conf : Config) (where_ : string) : string :=
  let query := EmptyString in
  let separator := "WHERE" in
  let '(query, separator) :=
    if decide (Where conf ≠ EmptyString) then
      let query := query +:+ separator in
      let query := query +:+ GoStrings.byte " " in
      let query := query +:+ Where conf in
      let query := query +:+ GoStrings.byte " " in
      let separator := "AND" in
      let query := query +:+ GoStrings.byte " " in
      (query, separator)
    else (query, separator) in
  let query :=
    if decide (where_ ≠ EmptyString) then
      let query := query +:+ separator in
      let query := query +:+ " " in
      query +:+ where_
    else query in
  query.

(** [buildOrderByClauseString], sql.go lines 813-823. *)
Definition buildOrderByClauseString (handleColNames : list string) : string :=
  if decide (length handleColNames = 0) then EmptyString
  else
    let separator := "," in
    let quotaCols :=
      (fun col => "`" +:+ escapeString col +:+ "`") <$> handleColNames in
    "ORDER BY " +:+ GoStrings.Join quotaCols separator.

(** The table metadata with the two accessors [SelectAllFromTable]
    reads besides the names. *)
Record SelectedMeta := {
  meta :> Metadata.TableMeta;
  SelectedField : string;
  SelectedLen : nat
}.

(** The fields of [tableData] that [SelectAllFromTable] sets. *)
Record tableData := {
  query : string;
  colLen : nat
}.

(** [SelectAllFromTable], sql.go lines 248-257. *)
Definition SelectAllFromTable (conf : Config) (meta : SelectedMeta)
    (partition orderByClause : string) : tableData :=
  let database := Metadata.DatabaseName meta in
  let table := Metadata.TableName meta in
  let selectedField := SelectedField meta in
  let selectLen := SelectedLen meta in
  let query :=
    buildSelectQuery database table selectedField partition
      (buildWhereCondition conf EmptyString) orderByClause in
  {| query := query; colLen := selectLen |}.

End QueryBuilder.

(** ** Reading one column of a result set *)

Module Columns.
Import Sql.

(** Lines 474-479 of [GetSpecifiedColumnValueAndClose]: the position of
    the column, [None] for [-1]. *)
Definition fieldIndexOfName (columns : list string) (columnName : string)
  : option nat :=
  foldl (fun fieldIndex ic =>
           if decide (GoStrings.ToUpper ic.2 = columnName) then Some ic.1
           else fieldIndex)
        None (imap pair columns).

(** Lines 483-492: the loop over the rows. *)
Fixpoint readColumn (width fieldIndex : nat)
    (pending : list (Error + list NullString)) (strs : list string)
  : list string * option Error :=
  match pending with
  | [] => (strs, None)
  | r :: pending' =>
      match Scan width (Some r) with
      | inl err => (strs, Trace (Some err))
      | inr oneRow =>
          readColumn width fieldIndex pending'
            (match oneRow !! fieldIndex with
             | Some (Some text) => strs ++ [text]
             | _ => strs
             end)
      end
  end.

(** [GetSpecifiedColumnValueAndClose], sql.go lines 463-493.  The error of
    [rows.Columns()] is dropped, the columns are then [nil]. *)
Definition GetSpecifiedColumnValueAndClose (rows : option Rows)
    (columnName : string) : list string * option Error :=
  match rows with
  | None => ([], None)
  | Some rows =>
      let columnName := GoStrings.ToUpper columnName in
      let columns :=
        match rowsColumns rows with
        | inr columns => columns
        | inl _ => []
        end in
      match fieldIndexOfName columns columnName with
      | None => ([], None)
      | Some fieldIndex =>
          match readColumn (length columns) fieldIndex (rowsPending rows) [] with
          | (strs, Some err) => (strs, Some err)
          | (strs, None) => (strs, Trace (rowsFailure rows))
          end
      end
  end.

(** The cell of a scanned row under the column called [name] (in upper
    case), NULL when no column has that name. *)
Definition cellOf (columns : list string) (oneRow : list NullString)
    (name : string) : NullString :=
  match list_find (fun col => GoStrings.ToUpper col = name) columns with
  | Some (colPos, _) => default None (oneRow !! colPos)
  | None => None
  end.

(** The rows of a result set projected on the columns [names]: the
    rows that are NULL in all of them are left out. *)
Definition projectRows (columns names : list string)
    (scanned : list (list NullString)) : list (list string) :=
  (fun oneRow => (fun name => nullText (cellOf columns oneRow name)) <$> names)
    <$> filter (fun oneRow =>
                  existsb (fun name => nullValid (cellOf columns oneRow name))
                    names = true)
          scanned.

(** One of the columns has a requested name. *)
Definition requestedAny (columns names : list string) : bool :=
  existsb (fun col => bool_decide (GoStrings.ToUpper col ∈ names)) columns.

(** A result set whose rows all scan. *)
Definition scannedRows (columns : list string)
    (scanned : list (list NullString)) (failure : option Error) : Rows :=
  {| rowsColumns := inr columns;
     rowsPending := inr <$> scanned;
     rowsFailure := failure |}.

End Columns.

(** ** Keys and fields of a table *)

Module Keys.
Import Sql Metadata QueryBuilder.

Section Callers.
Variable rangeOrder : nat -> gmap nat nat -> list (nat * nat).
(** Declared in other files of the package. *)
Variable string2Map : list string -> list string -> gmap string string.
Variable wrapBackTicks : string -> string.

(** The loop of [GetPrimaryKeyColumns], lines 382-387. *)
Fixpoint primaryColumns (results : list (list string)) (cols : list string)
  : list string :=
  match results with
  | [] => cols
  | oneRow :: results' =>
      let keyName := field oneRow 0 in
      let columnName := field oneRow 1 in
      primaryColumns results'
        (if decide (keyName = "PRIMARY") then cols ++ [columnName] else cols)
  end.

(** [GetPrimaryKeyColumns], sql.go lines 371-389. *)
Definition GetPrimaryKeyColumns (db : Conn) (database table : string)
  : list string * option Error :=
  let priKeyColsQuery :=
    "SHOW INDEX FROM `" +:+ escapeString database +:+ "`.`"
      +:+ escapeString table +:+ "`" in
  match QueryContext db priKeyColsQuery with
  | inl err => ([], Annotatef (Some err) ("sql: " +:+ priKeyColsQuery))
  | inr rows =>
      match GetSpecifiedColumnValuesAndClose rangeOrder (Some rows)
              ["KEY_NAME"; "COLUMN_NAME"] with
      | (_, Some err) => ([], Annotatef (Some err) ("sql: " +:+ priKeyColsQuery))
      | (results, None) => (primaryColumns results [], None)
      end
  end.

(** [GetPrimaryKeyAndColumnTypes], sql.go lines 353-368; a name that
    the map lacks has the empty type. *)
Definition GetPrimaryKeyAndColumnTypes (conn : Conn) (meta : TableMeta)
  : list string * list string * option Error :=
  match GetPrimaryKeyColumns conn (DatabaseName meta) (TableName meta) with
  | (_, Some err) => ([], [], Some err)
  | (colNames, None) =>
      let colName2Type := string2Map (ColumnNames meta) (ColumnTypes meta) in
      let colTypes :=
        (fun colName => default EmptyString (colName2Type !! colName))
          <$> colNames in
      (colNames, colTypes, None)
  end.

(** [buildOrderByClause], sql.go lines 292-304. *)
Definition buildOrderByClause (conf : Config) (db : Conn)
    (database table : string) (hasImplicitRowID : bool)
  : string * option Error :=
  if negb (SortByPk conf) then (EmptyString, None)
  else if hasImplicitRowID then (orderByTiDBRowID, None)
  else
    match GetPrimaryKeyColumns db database table with
    | (_, Some err) => (EmptyString, Trace (Some err))
    | (cols, None) => (buildOrderByClauseString cols, None)
    end.

(** The loop of [buildSelectField], lines 667-675. *)
Fixpoint selectFieldLoop (results : list (list string))
    (availableFields : list string) (hasGenerateColumn : bool)
  : list string * bool :=
  match results with
  | [] => (availableFields, hasGenerateColumn)
  | oneRow :: results' =>
      let fieldName := field oneRow 0 in
      let extra := field oneRow 1 in
      if bool_decide (extra = "STORED GENERATED")
         || bool_decide (extra = "VIRTUAL GENERATED")
      then selectFieldLoop results' availableFields true
      else
        selectFieldLoop results'
          (availableFields ++ [wrapBackTicks (escapeString fieldName)])
          hasGenerateColumn
  end.

(** [buildSelectField], sql.go lines 653-680. *)
Definition buildSelectField (db : Conn) (dbName tableName : string)
    (completeInsert : bool) : string * nat * option Error :=
  let query :=
    "SHOW COLUMNS FROM `" +:+ escapeString dbName +:+ "`.`"
      +:+ escapeString tableName +:+ "`" in
  match QueryContext db query with
  | inl err => (EmptyString, 0, Annotatef (Some err) ("sql: " +:+ query))
  | inr rows =>
      match GetSpecifiedColumnValuesAndClose rangeOrder (Some rows)
              ["FIELD"; "EXTRA"] with
      | (_, Some err) =>
          (EmptyString, 0, Annotatef (Some err) ("sql: " +:+ query))
      | (results, None) =>
          let '(availableFields, hasGenerateColumn) :=
            selectFieldLoop results [] false in
          if completeInsert || hasGenerateColumn
          then (GoStrings.Join availableFields ",", length availableFields, None)
          else ("*", length availableFields, None)
      end
  end.
End Callers.

(** The rows of SHOW INDEX that belong to the primary key, and the rows
    of SHOW COLUMNS that describe a generated column. *)
Definition primaryRow (columns : list string) (oneRow : list NullString) : Prop :=
  Columns.cellOf columns oneRow "KEY_NAME" = Some "PRIMARY".

#[global] Instance primaryRow_dec columns oneRow :
  Decision (primaryRow columns oneRow).
Proof. unfold primaryRow. apply _. Defined.

Definition generatedRow (oneRow : list string) : bool :=
  bool_decide (field oneRow 1 = "STORED GENERATED")
  || bool_decide (field oneRow 1 = "VIRTUAL GENERATED").

(** An iteration order for the examples: the one of [map_to_list]. *)
Definition mapOrder (n : nat) (m : gmap nat nat) : list (nat * nat) :=
  map_to_list m.

(** The answer of SHOW INDEX for a table with the primary key (a, b) and
    a secondary key. *)
Definition compositeKeyIndex : Rows :=
  Columns.scannedRows ["Table"; "Non_unique"; "Key_name"; "Seq_in_index"; "Column_name"]
    [ [Some "t"; Some "0"; Some "PRIMARY"; Some "1"; Some "a"];
      [Some "t"; Some "0"; Some "PRIMARY"; Some "2"; Some "b"];
      [Some "t"; Some "1"; Some "idx"; Some "1"; Some "c"] ]
    None.

(** The answer of SHOW COLUMNS for a table with a generated column. *)
Definition generatedColumns : Rows :=
  Columns.scannedRows ["Field"; "Type"; "Null"; "Key"; "Default"; "Extra"]
    [ [Some "id"; Some "int"; Some "NO"; Some "PRI"; None; Some ""];
      [Some "name"; Some "varchar(12)"; Some "NO"; Some ""; None; Some ""];
      [Some "twice"; Some "int"; Some "YES"; Some ""; None; Some "VIRTUAL GENERATED"] ]
    None.

(** The answer of SHOW COLUMNS for a table whose only column is
    generated. *)
Definition onlyGeneratedColumns : Rows :=
  Columns.scannedRows ["Field"; "Type"; "Null"; "Key"; "Default"; "Extra"]
    [ [Some "twice"; Some "int"; Some "YES"; Some ""; None;
       Some "VIRTUAL GENERATED"] ]
    None.

End Keys.

(** ** Statements whose answer a handler reads row by row *)

Module SimpleQuery.
Import Sql.

(** A connection whose answer may depend on the arguments of the
    statement. *)
Record ArgConn := {
  QueryContextArgs : string -> list string -> Error + Rows
}.

(** A connection asked without arguments. *)
Definition withoutArgs (conn : Conn) : ArgConn :=
  {| QueryContextArgs := fun sql _ => QueryContext conn sql |}.

(** [fmt.Sprintf("%s", args)] for arguments that are strings. *)
Definition argsText (args : list string) : string :=
  "[" +:+ GoStrings.Join args " " +:+ "]".

Definition queryText (sql : string) (args : list string) : string :=
  "sql: " +:+ sql +:+ ", args: " +:+ argsText args.

Section Handlers.
(** The variables the handler captures. *)
Context {St : Type}.

(** The loop of [simpleQueryWithArgs], lines 878-883: the handler sees
    the result set and its current row, and leaves the captured
    variables changed also when it fails. *)
Fixpoint handleRows (rows : Rows)
    (handleOneRow : Rows -> Error + list NullString -> St -> St * option Error)
    (pending : list (Error + list NullString)) (st : St)
  : St * option Error :=
  match pending with
  | [] => (st, None)
  | r :: pending' =>
      match handleOneRow rows r st with
      | (st', Some err) => (st', Some err)
      | (st', None) => handleRows rows handleOneRow pending' st'
      end
  end.

(** [simpleQueryWithArgs], sql.go lines 871-886. *)
Definition simpleQueryWithArgs (conn : ArgConn)
    (handleOneRow : Rows -> Error + list NullString -> St -> St * option Error)
    (sql : string) (args : list string) (st : St) : St * option Error :=
  match QueryContextArgs conn sql args with
  | inl err => (st, Annotatef (Some err) (queryText sql args))
  | inr rows =>
      match handleRows rows handleOneRow (rowsPending rows) st with
      | (st', Some err) => (st', Annotatef (Some err) (queryText sql args))
      | (st', None) => (st', Annotatef (rowsFailure rows) (queryText sql args))
      end
  end.

(** [simpleQuery], sql.go lines 867-869. *)
Definition simpleQuery (conn : Conn)
    (sql : string)
    (handleOneRow : Rows -> Error + list NullString -> St -> St * option Error)
    (st : St) : St * option Error :=
  simpleQueryWithArgs (withoutArgs conn) handleOneRow sql [] st.
End Handlers.

(** [rows.Scan] with [n] destinations of type [string]: a NULL cannot be
    stored. *)
Definition ScanStrings (n : nat) (current : option (Error + list NullString))
  : Error + list string :=
  match Scan n current with
  | inl err => inl err
  | inr values =>
      if forallb nullValid values then inr (nullText <$> values)
      else inl (ErrorString "sql: Scan error: converting NULL to string is unsupported")
  end.

(** [oneStrColumnTable.handleOneRow], sql.go lines 858-865; the state is
    [o.data]. *)
Definition handleOneRow (rows : Rows) (r : Error + list NullString)
    (data : list string) : list string * option Error :=
  match ScanStrings 1 (Some r) with
  | inl err => (data, Trace (Some err))
  | inr strs => (data ++ [Metadata.field strs 0], None)
  end.

(** [ShowDatabases] and [ShowTables], sql.go lines 26-41. *)
Definition ShowDatabases (db : Conn) : list string * option Error :=
  match simpleQuery db "SHOW DATABASES" handleOneRow [] with
  | (_, Some err) => ([], Some err)
  | (data, None) => (data, None)
  end.

Definition ShowTables (db : Conn) : list string * option Error :=
  match simpleQuery db "SHOW TABLES" handleOneRow [] with
  | (_, Some err) => ([], Some err)
  | (data, None) => (data, None)
  end.

(** The handler of [ShowCreateDatabase] and of [ShowCreateTable]; the
    state is the array [oneRow], which a failed [Scan] may have filled in
    part before the caller drops it. *)
Definition handleTwoColumns (rows : Rows) (r : Error + list NullString)
    (oneRow : string * string) : (string * string) * option Error :=
  match ScanStrings 2 (Some r) with
  | inl err => (oneRow, Some err)
  | inr strs => ((Metadata.field strs 0, Metadata.field strs 1), None)
  end.

(** [ShowCreateDatabase], sql.go lines 45-56. *)
Definition ShowCreateDatabase (db : Conn) (database : string)
  : string * option Error :=
  let query := "SHOW CREATE DATABASE `" +:+ escapeString database +:+ "`" in
  match simpleQuery db query handleTwoColumns (EmptyString, EmptyString) with
  | (_, Some err) => (EmptyString, Annotatef (Some err) ("sql: " +:+ query))
  | (oneRow, None) => (oneRow.2, None)
  end.

(** [ShowCreateTable], sql.go lines 60-71. *)
Definition ShowCreateTable (db : Conn) (database table : string)
  : string * option Error :=
  let query :=
    "SHOW CREATE TABLE `" +:+ escapeString database +:+ "`.`"
      +:+ escapeString table +:+ "`" in
  match simpleQuery db query handleTwoColumns (EmptyString, EmptyString) with
  | (_, Some err) => (EmptyString, Annotatef (Some err) ("sql: " +:+ query))
  | (oneRow, None) => (oneRow.2, None)
  end.

(** The handler of [ShowMasterStatus], lines 442-452; the state is the
    slice [oneRow]. *)
Definition handleStatusRow (rows : Rows) (r : Error + list NullString)
    (oneRow : list string) : list string * option Error :=
  match rowsColumns rows with
  | inl err => (oneRow, Trace (Some err))
  | inr cols =>
      let fieldNum := length cols in
      match ScanStrings fieldNum (Some r) with
      | inl err =>
          (* the fresh slice, which [ShowMasterStatus] then drops *)
          (replicate fieldNum EmptyString, Some err)
      | inr strs => (strs, None)
      end
  end.

(** [ShowMasterStatus], sql.go lines 439-460. *)
Definition ShowMasterStatus (db : Conn) : list string * option Error :=
  let showMasterStatusQuery := "SHOW MASTER STATUS" in
  match simpleQuery db showMasterStatusQuery handleStatusRow [] with
  | (_, Some err) => ([], Annotatef (Some err) ("sql: " +:+ showMasterStatusQuery))
  | (oneRow, None) => (oneRow, None)
  end.

(** [getSnapshot], sql.go lines 576-582; [None] is the panic of an index
    out of range.  The constant [snapshotFieldIndex] is declared in
    another file of the package. *)
Definition getSnapshot (snapshotFieldIndex : nat) (db : Conn)
  : option (string * option Error) :=
  match ShowMasterStatus db with
  | (_, Some err) => Some (EmptyString, Some err)
  | (str, None) =>
      match str !! snapshotFieldIndex with
      | Some s => Some (s, None)
      | None => None
      end
  end.

(** The handler of [GetPartitionNames], lines 1042-1051; the state is
    [partitions]. *)
Definition handlePartitionRow (rows : Rows) (r : Error + list NullString)
    (partitions : list string) : list string * option Error :=
  match Scan 1 (Some r) with
  | inl err => (partitions, Trace (Some err))
  | inr values =>
      match default None (values !! 0) with
      | Some text => (partitions ++ [text], None)
      | None => (partitions, None)
      end
  end.

Definition partitionNamesQuery : string :=
  "SELECT PARTITION_NAME from INFORMATION_SCHEMA.PARTITIONS WHERE TABLE_SCHEMA = ? AND TABLE_NAME = ?".

(** [GetPartitionNames], sql.go lines 1039-1053. *)
Definition GetPartitionNames (db : ArgConn) (schema table : string)
  : list string * option Error :=
  simpleQueryWithArgs db handlePartitionRow partitionNamesQuery
    [schema; table] [].

(** A result set of one column. *)
Definition oneColumn (name : string) (cells : list NullString)
    (failure : option Error) : Rows :=
  Columns.scannedRows [name] ((fun cell => [cell]) <$> cells) failure.

End SimpleQuery.

(** ** Locks on single tables *)

Module Locks.
Import Sql.

Definition lockTableQuery (database table : string) : string :=
  "LOCK TABLES `" +:+ escapeString database +:+ "`.`"
    +:+ escapeString table +:+ "` READ".

(** [LockTables], sql.go lines 425-429. *)
Definition LockTables (db : Conn) (database table : string) : option Error :=
  Annotatef (ExecContext db (lockTableQuery database table))
    ("sql: " +:+ lockTableQuery database table).

End Locks.

(** ** Snapshots *)

Module Snapshot.
Import Sql.
Local Open Scope Z_scope.

Definition maxUint64 : Z := 2 ^ 64 - 1.

Definition isDigit (c : ascii) : bool :=
  let n := N_of_ascii c in (48 <=? n)%N && (n <=? 57)%N.

(** The loop of [strconv.ParseUint(s, 10, 64)]: [None] is a syntax or a
    range error. *)
Fixpoint parseDigits (n : Z) (s : string) : option Z :=
  match s with
  | EmptyString => Some n
  | String c s' =>
      if isDigit c then
        if maxUint64 / 10 + 1 <=? n then None
        else
          let n1 := n * 10 + Partitioner.digitValue c in
          if maxUint64 <? n1 then None else parseDigits n1 s'
      else None
  end.

(** The text is made of decimal digits. *)
Fixpoint allDigits (s : string) : bool :=
  match s with
  | EmptyString => true
  | String c s' => isDigit c && allDigits s'
  end.

Definition ParseUint (s : string) : option Z :=
  if decide (s = EmptyString) then None else parseDigits 0 s.

(** The conversion [uint64(x)] and the operators of [uint64]. *)
Definition uint64 (x : Z) : Z := x mod 2 ^ 64.
Definition shl64 (x : Z) (n : Z) : Z := uint64 (Z.shiftl x n).
Definition mul64 (x y : Z) : Z := uint64 (x * y).

(** A pool: what [pool.QueryRow(query, args...).Scan(&tso)] gives for a
    [sql.NullInt64] destination, the error or the value. *)
Record DB := {
  QueryRowScan : string -> list string -> Error + option Z
}.

Definition quote : string := String (ascii_of_N 34) EmptyString.

(** [parseSnapshotToTSO], sql.go lines 997-1013. *)
Definition parseSnapshotToTSO (pool : DB) (snapshot : string)
  : Z * option Error :=
  match ParseUint snapshot with
  | Some snapshotTS => (snapshotTS, None)
  | None =>
      let query := "SELECT unix_timestamp(?)" in
      match QueryRowScan pool query [snapshot] with
      | inl err =>
          (0, Annotatef (Some err)
                ("sql: " +:+ GoStrings.ReplaceAllByte query "?"
                               (quote +:+ snapshot +:+ quote)))
      | inr None =>
          (0, Some (ErrorString
                      ("snapshot " +:+ snapshot +:+
                       " format not supported. please use tso or '2006-01-02 15:04:05' format time")))
      | inr (Some tso) => (mul64 (shl64 (uint64 tso) 18) 1000, None)
      end
  end.

End Snapshot.

(** ** Listing the tables of the databases *)

Module Listing.
Import Sql Metadata Consistency.

Section TableStatus.
Variable rangeOrder : nat -> gmap nat nat -> list (nat * nat).
(** The constant [TableTypeViewStr] is declared in another file of the
    package; [parseUintError] is the error of [strconv.ParseUint] for a
    text it rejects. *)
Variable TableTypeViewStr : string.
Variable parseUintError : string -> Error.

Definition tableStatusQuery (schema : string) : string :=
  "SHOW TABLE STATUS FROM `" +:+ escapeString schema +:+ "`".

Definition statusColumns : list string :=
  ["NAME"; "ENGINE"; "AVG_ROW_LENGTH"; "COMMENT"].

(** Lines 210-217: the average row length of a row of the status. *)
Definition rowAvgRowLength (oneRow : list string) : Error + Z :=
  let avgRowLengthStr := field oneRow 2 in
  if decide (avgRowLengthStr ≠ EmptyString) then
    match Snapshot.ParseUint avgRowLengthStr with
    | Some avgRowLength => inr avgRowLength
    | None => inl (parseUintError avgRowLengthStr)
    end
  else inr 0%Z.

(** Lines 218-224: the kind of the table of a row, [None] for the row
    that is skipped with a warning. *)
Definition rowTableType (oneRow : list string) : option TableType :=
  let engine := field oneRow 1 in
  let comment := field oneRow 3 in
  if bool_decide (engine = EmptyString)
     && (bool_decide (comment = EmptyString)
         || bool_decide (comment = TableTypeViewStr))
  then Some TableTypeView
  else if bool_decide (engine = EmptyString) then None
  else Some TableTypeBase.

(** The loop over the rows of the status of [schema], lines 208-229. *)
Fixpoint statusLoop (tableTypes : list TableType) (schema : string)
    (results : list (list string)) (dbTables : gmap string (list TableInfo))
  : Error + gmap string (list TableInfo) :=
  match results with
  | [] => inr dbTables
  | oneRow :: results' =>
      let table := field oneRow 0 in
      match rowAvgRowLength oneRow with
      | inl err => inl err
      | inr avgRowLength =>
          match rowTableType oneRow with
          | None => statusLoop tableTypes schema results' dbTables
          | Some tableType =>
              if bool_decide (tableType ∈ tableTypes) then
                statusLoop tableTypes schema results'
                  (<[schema :=
                       default [] (dbTables !! schema)
                         ++ [ {| Name := table;
                                 AvgRowLength := avgRowLength;
                                 Type_ := tableType |} ]]> dbTables)
              else statusLoop tableTypes schema results' dbTables
          end
      end
  end.

(** The loop over the databases, lines 197-230; an error returns the
    nil map. *)
Fixpoint listLoop (db : Conn) (tableTypes : list TableType)
    (databaseNames : list string) (dbTables : gmap string (list TableInfo))
  : gmap string (list TableInfo) * option Error :=
  match databaseNames with
  | [] => (dbTables, None)
  | schema :: databaseNames' =>
      let dbTables := <[schema := []]> dbTables in
      let query := tableStatusQuery schema in
      match QueryContext db query with
      | inl err => (∅, Annotatef (Some err) ("sql: " +:+ query))
      | inr rows =>
          match GetSpecifiedColumnValuesAndClose rangeOrder (Some rows)
                  statusColumns with
          | (_, Some err) => (∅, Annotatef (Some err) ("sql: " +:+ query))
          | (results, None) =>
              match statusLoop tableTypes schema results dbTables with
              | inl err => (∅, Annotatef (Some err) ("sql: " +:+ query))
              | inr dbTables => listLoop db tableTypes databaseNames' dbTables
              end
          end
      end
  end.

(** [ListAllDatabasesTables] for [asap == false], sql.go lines 148-149
    and 191-232. *)
Definition listByTableStatus (db : Conn) (databaseNames : list string)
    (tableTypes : list TableType)
  : gmap string (list TableInfo) * option Error :=
  listLoop db tableTypes databaseNames ∅.

(** The rows of the status of [schema] that the listing reads. *)
Definition statusResults (db : Conn) (schema : string) : list (list string) :=
  match QueryContext db (tableStatusQuery schema) with
  | inr rows =>
      (GetSpecifiedColumnValuesAndClose rangeOrder (Some rows) statusColumns).1
  | inl _ => []
  end.

(** The table that a row of the status stands for, if it is listed. *)
Definition tableOfRow (tableTypes : list TableType) (oneRow : list string)
  : option TableInfo :=
  match rowAvgRowLength oneRow, rowTableType oneRow with
  | inr avgRowLength, Some tableType =>
      if bool_decide (tableType ∈ tableTypes) then
        Some {| Name := field oneRow 0;
                AvgRowLength := avgRowLength;
                Type_ := tableType |}
      else None
  | _, _ => None
  end.
End TableStatus.

(** The answer of SHOW TABLE STATUS for a database with a table, a view
    and a table without engine. *)
Definition statusExample : Rows :=
  Columns.scannedRows ["Name"; "Engine"; "Avg_row_length"; "Comment"]
    [ [Some "t1"; Some "InnoDB"; Some "100"; Some ""];
      [Some "v1"; None; None; Some "VIEW"];
      [Some "broken"; None; None; Some "crashed"] ]
    None.

End Listing.

(** ** The statements that create a view *)

Module Views.
Import Sql SimpleQuery.

Definition nl : string := String (ascii_of_N 10) EmptyString.

(** [SetCharset], sql.go lines 128-136; the result is the builder [w]. *)
Definition SetCharset (w characterSet collationConnection : string) : string :=
  let w := w +:+ "SET @PREV_CHARACTER_SET_CLIENT=@@CHARACTER_SET_CLIENT;" +:+ nl in
  let w := w +:+ "SET @PREV_CHARACTER_SET_RESULTS=@@CHARACTER_SET_RESULTS;" +:+ nl in
  let w := w +:+ "SET @PREV_COLLATION_CONNECTION=@@COLLATION_CONNECTION;" +:+ nl in
  let w := w +:+ ("SET character_set_client = " +:+ characterSet +:+ ";" +:+ nl) in
  let w := w +:+ ("SET character_set_results = " +:+ characterSet +:+ ";" +:+ nl) in
  w +:+ ("SET collation_connection = " +:+ collationConnection +:+ ";" +:+ nl).

(** [RestoreCharset], sql.go lines 139-143. *)
Definition RestoreCharset (w : string) : string :=
  let w := w +:+ "SET character_set_client = @PREV_CHARACTER_SET_CLIENT;" +:+ nl in
  let w := w +:+ "SET character_set_results = @PREV_CHARACTER_SET_RESULTS;" +:+ nl in
  w +:+ "SET collation_connection = @PREV_COLLATION_CONNECTION;" +:+ nl.

(** The handler [handleFieldRow] of [ShowCreateView], lines 77-87; the
    state is [fieldNames]. *)
Definition handleFieldRow (rows : Rows) (r : Error + list NullString)
    (fieldNames : list string) : list string * option Error :=
  match Scan 6 (Some r) with
  | inl scanErr => (fieldNames, Trace (Some scanErr))
  | inr oneRow =>
      match default None (oneRow !! 0) with
      | Some text =>
          (fieldNames ++ ["`" +:+ escapeString text +:+ "` int"], None)
      | None => (fieldNames, None)
      end
  end.

(** The handler [handleOneRow] of [ShowCreateView], lines 88-91; the
    state is the array [oneRow], which a failed [Scan] may have filled in
    part before [ShowCreateView] drops it. *)
Definition handleViewRow (rows : Rows) (r : Error + list NullString)
    (oneRow : list string) : list string * option Error :=
  match ScanStrings 4 (Some r) with
  | inl err => (oneRow, Some err)
  | inr strs => (strs, None)
  end.

(** [ShowCreateView], sql.go lines 75-125. *)
Definition ShowCreateView (db : Conn) (database view : string)
  : string * string * option Error :=
  let query :=
    "SHOW FIELDS FROM `" +:+ escapeString database +:+ "`.`"
      +:+ escapeString view +:+ "`" in
  match simpleQuery db query handleFieldRow [] with
  | (_, Some err) =>
      (EmptyString, EmptyString, Annotatef (Some err) ("sql: " +:+ query))
  | (fieldNames, None) =>
      let createTableSQL := EmptyString in
      let createTableSQL :=
        createTableSQL +:+ ("CREATE TABLE `" +:+ escapeString view +:+ "`(" +:+ nl) in
      let createTableSQL :=
        createTableSQL +:+ GoStrings.Join fieldNames ("," +:+ nl) in
      let createTableSQL := createTableSQL +:+ (nl +:+ ")ENGINE=MyISAM;" +:+ nl) in
      let createViewSQL := EmptyString in
      let createViewSQL :=
        createViewSQL
          +:+ ("DROP TABLE IF EXISTS `" +:+ escapeString view +:+ "`;" +:+ nl) in
      let createViewSQL :=
        createViewSQL
          +:+ ("DROP VIEW IF EXISTS `" +:+ escapeString view +:+ "`;" +:+ nl) in
      let query :=
        "SHOW CREATE VIEW `" +:+ escapeString database +:+ "`.`"
          +:+ escapeString view +:+ "`" in
      match simpleQuery db query handleViewRow
              [EmptyString; EmptyString; EmptyString; EmptyString] with
      | (_, Some err) =>
          (EmptyString, EmptyString, Annotatef (Some err) ("sql: " +:+ query))
      | (oneRow, None) =>
          let createViewSQL :=
            SetCharset createViewSQL (Metadata.field oneRow 2)
              (Metadata.field oneRow 3) in
          let createViewSQL := createViewSQL +:+ Metadata.field oneRow 1 in
          let createViewSQL := createViewSQL +:+ (";" +:+ nl) in
          let createViewSQL := RestoreCharset createViewSQL in
          (createTableSQL, createViewSQL, None)
      end
  end.

(** A connection that answers the statements of the named texts. *)
Definition answering (answers : list (string * Rows)) : Conn :=
  {| ExecContext := fun _ => None;
     QueryContext := fun sql =>
       match list_find (fun a => a.1 = sql) answers with
       | Some (_, a) => inr a.2
       | None => inl (ErrorString "no answer")
       end |}.

End Views.

(** ** Builders that panic *)

Module Panic.
Import Buffer.

(** [m] panics, whatever the buffer holds. *)
Definition panics {A} (m : Buf A) : Prop := forall buf, m buf = None.

End Panic.

(** * Properties *)

Import Partitioner.

(** ** Texts and buffers *)

Lemma append_cons c (s t : string) : String c s +:+ t = String c (s +:+ t).
Proof. reflexivity. Qed.

Lemma append_empty_l (t : string) : EmptyString +:+ t = t.
Proof. reflexivity. Qed.

Lemma append_assoc (s1 s2 s3 : string) : (s1 +:+ s2) +:+ s3 = s1 +:+ (s2 +:+ s3).
Proof.
  induction s1 as [|c s1 IH]; [done|]. rewrite !append_cons. f_equal. apply IH.
Qed.

Lemma append_empty_r (s : string) : s +:+ EmptyString = s.
Proof.
  induction s as [|c s IH]; [done|]. rewrite append_cons. f_equal. apply IH.
Qed.

Lemma catAll_cons x (l : list string) :
  GoStrings.catAll (x :: l) = x +:+ GoStrings.catAll l.
Proof. reflexivity. Qed.

Lemma catAll_app (l1 l2 : list string) :
  GoStrings.catAll (l1 ++ l2) = GoStrings.catAll l1 +:+ GoStrings.catAll l2.
Proof.
  induction l1 as [|x l1 IH]; [done|]. simpl. by rewrite IH, append_assoc.
Qed.

(** Brings a text to its right-nested form. *)
Ltac text_norm :=
  repeat first
    [ rewrite append_assoc | rewrite append_cons | rewrite append_empty_l
    | rewrite append_empty_r ].

Module BufferFacts.
Import Buffer.

Lemma writes_skip : writes skip EmptyString.
Proof. intros buf. unfold skip. by rewrite append_empty_r. Qed.

Lemma writes_WriteString s : writes (WriteString s) s.
Proof. done. Qed.

Lemma writes_WriteByte c : writes (WriteByte c) (GoStrings.byte c).
Proof. done. Qed.

Lemma writes_bind (m1 m2 : Buf unit) t1 t2 :
  writes m1 t1 -> writes m2 t2 -> writes (m1 ;; m2) (t1 +:+ t2).
Proof.
  intros H1 H2 buf. unfold mbind, Buf_bind. rewrite H1, H2.
  by rewrite append_assoc.
Qed.

Lemma writes_index {A} (l : list A) i x (k : A -> Buf unit) t :
  l !! i = Some x -> writes (k x) t -> writes (index l i ≫= k) t.
Proof. intros Hl Hk buf. unfold mbind, Buf_bind, index. by rewrite Hl. Qed.

Lemma writes_sliceFrom {A} (l : list A) n (k : list A -> Buf unit) t :
  n <= length l -> writes (k (drop n l)) t -> writes (sliceFrom l n ≫= k) t.
Proof.
  intros Hn Hk buf. unfold mbind, Buf_bind, sliceFrom.
  by rewrite decide_True by done.
Qed.

Lemma writes_lift {A} (o : option A) x (k : A -> Buf unit) t :
  o = Some x -> writes (k x) t -> writes (lift o ≫= k) t.
Proof. intros -> Hk buf. unfold mbind, Buf_bind, lift. done. Qed.

Lemma writes_ext m t1 t2 : writes m t1 -> t1 = t2 -> writes m t2.
Proof. by intros ? <-. Qed.

Lemma writes_forRange {A} (xs : list A) lo body (f : nat -> A -> string) :
  (forall j x, xs !! j = Some x -> writes (body (lo + j)) (f j x)) ->
  writes (forRange lo (length xs) body) (GoStrings.catAll (imap f xs)).
Proof.
  revert lo f. induction xs as [|x xs IH]; intros lo f Hbody; simpl.
  - apply writes_skip.
  - apply writes_bind.
    + specialize (Hbody 0 x eq_refl). by rewrite Nat.add_0_r in Hbody.
    + apply IH. intros j y Hj. specialize (Hbody (S j) y Hj).
      by replace (S lo + j) with (lo + S j) by lia.
Qed.

Lemma writes_forEachFrom {A} (xs : list A) i body (f : nat -> A -> string) :
  (forall j x, xs !! j = Some x -> writes (body (i + j) x) (f j x)) ->
  writes (forEachFrom i xs body) (GoStrings.catAll (imap f xs)).
Proof.
  revert i f. induction xs as [|x xs IH]; intros i f Hbody; simpl.
  - apply writes_skip.
  - apply writes_bind.
    + specialize (Hbody 0 x eq_refl). by rewrite Nat.add_0_r in Hbody.
    + apply IH. intros j y Hj. specialize (Hbody (S j) y Hj).
      by replace (S i + j) with (i + S j) by lia.
Qed.

Lemma contents_writes m t : writes m t -> contents m = Some t.
Proof. intros Hm. unfold contents. by rewrite Hm. Qed.

End BufferFacts.

(** ** The builders write the rendering of the syntax trees *)

Module RenderFacts.
Import Buffer BufferFacts.
Local Open Scope nat_scope.


Lemma andAll_shape a ps :
  Forall atomic ps ->
  startsParen (andAll a ps) = startsParen a
  ∧ endsParen (andAll a ps) = (if ps is [] then endsParen a else false).
Proof.
  unfold andAll. revert a. induction ps as [|p ps IH]; intros a Hps; [done|].
  apply Forall_cons in Hps as [[Hp1 Hp2] Hps]. simpl.
  destruct (IH (PAnd a p) Hps) as [-> ->]. simpl. split; [done|].
  by destruct ps.
Qed.

Lemma render_andAll a ps :
  endsParen a = false -> Forall atomic ps ->
  render (andAll a ps)
  = render a +:+ GoStrings.catAll ((fun p => " and " +:+ render p) <$> ps).
Proof.
  unfold andAll. revert a. induction ps as [|p ps IH]; intros a Ha Hps; simpl.
  - by rewrite append_empty_r.
  - apply Forall_cons in Hps as [[Hp1 Hp2] Hps].
    rewrite IH by done. simpl. rewrite Ha, Hp1. unfold gap. by text_norm.
Qed.

Lemma orAll_shape a alts :
  startsParen (orAll a alts) = startsParen a.
Proof. unfold orAll. revert a. induction alts as [|p ps IH]; intros a; [done|]. simpl. by rewrite IH. Qed.

Lemma render_orAll a alts :
  Forall (fun p => startsParen p = true ∧ endsParen p = true) alts ->
  render (orAll a alts)
  = render a +:+ (if alts is [] then EmptyString else gap (endsParen a))
    +:+ GoStrings.catAll ((fun p => "or" +:+ render p) <$> alts).
Proof.
  unfold orAll. revert a. induction alts as [|p ps IH]; intros a Hps; simpl.
  - by text_norm.
  - apply Forall_cons in Hps as [[Hp1 Hp2] Hps].
    rewrite IH by done. simpl. rewrite Hp1, Hp2. unfold gap at 2 3.
    destruct ps; by text_norm.
Qed.

(** The text of the pinned columns before an alternative. *)
Lemma catAll_pins pre x :
  GoStrings.catAll ((fun p => " and " +:+ render p) <$> ((eqAtom <$> pre) ++ [x]))
  = " and " +:+ GoStrings.catAll ((fun cb => cb.1 +:+ "=" +:+ cb.2 +:+ " and ") <$> pre)
    +:+ render x.
Proof.
  induction pre as [|[c b] pre IH].
  - simpl. by text_norm.
  - rewrite !fmap_cons, <-app_comm_cons, !fmap_cons, !catAll_cons, IH.
    simpl. by text_norm.
Qed.

Lemma altAst_cons c0 b0 pre c op b :
  altAst ((c0, b0) :: pre) c op b
  = andAll (eqAtom (c0, b0)) ((eqAtom <$> pre) ++ [PCmp c op b]).
Proof. reflexivity. Qed.

Lemma pins_atomic pre x : atomic x -> Forall atomic ((eqAtom <$> pre) ++ [x]).
Proof.
  intros Hx. apply Forall_app. split; [|by apply Forall_singleton].
  apply Forall_fmap, Forall_true. done.
Qed.

Lemma altAst_atomic pre c op b : atomic (altAst pre c op b).
Proof.
  destruct pre as [|[c0 b0] pre]; [done|]. rewrite altAst_cons.
  destruct (andAll_shape (eqAtom (c0, b0)) ((eqAtom <$> pre) ++ [PCmp c op b]))
    as [H1 H2]; [by apply pins_atomic|].
  split; [by rewrite H1|]. rewrite H2. by destruct (eqAtom <$> pre).
Qed.

Lemma render_altAst pre c op b :
  render (altAst pre c op b)
  = GoStrings.catAll ((fun cb => cb.1 +:+ "=" +:+ cb.2 +:+ " and ") <$> pre)
    +:+ c +:+ opText op +:+ b.
Proof.
  destruct pre as [|[c0 b0] pre]; [done|]. rewrite altAst_cons.
  rewrite render_andAll; [|done|by apply pins_atomic].
  rewrite catAll_pins, fmap_cons, catAll_cons. simpl. by text_norm.
Qed.

(** One step of symbolic execution of a builder. *)
Ltac writes_step :=
  first
    [ apply writes_bind
    | apply writes_WriteString
    | apply writes_WriteByte
    | apply writes_skip
    | eapply writes_index; [done|]
    | eapply writes_sliceFrom; [simpl; lia|] ].

Lemma writes_pins quotaCols bound pre :
  (forall j cb, pre !! j = Some cb ->
     quotaCols !! j = Some cb.1 ∧ bound !! j = Some cb.2) ->
  writes (forRange 0 (length pre) (pinStep quotaCols bound))
    (GoStrings.catAll ((fun cb => cb.1 +:+ "=" +:+ cb.2 +:+ " and ") <$> pre)).
Proof.
  intros Hpre. rewrite <-imap_const. apply writes_forRange.
  intros j cb Hj. destruct (Hpre j cb Hj) as [Hq Hb]. simpl. unfold pinStep.
  eapply writes_ext.
  - eapply writes_index; [done|]. apply writes_bind; [writes_step|].
    apply writes_bind; [writes_step|].
    eapply writes_index; [done|]. apply writes_bind; writes_step.
  - unfold GoStrings.byte, equal. by text_norm.
Qed.

Lemma opText_dirOp d orEqual :
  opText (dirOp d orEqual)
  = GoStrings.byte (dirByte d) +:+ (if orEqual then "=" else EmptyString).
Proof. by destruct d, orEqual. Qed.

Lemma writes_compareStep d we pre c b rest :
  let all := pre ++ (c, b) :: rest in
  writes (compareStep all.*1 all.*2 (dirByte d) we (length pre) c)
    ((if pre is [] then EmptyString else "or(")
     +:+ render (altAst pre c (dirOp d (we && bool_decide (rest = []))) b)
     +:+ (if pre is [] then (if rest is [] then EmptyString else " ") else ")")).
Proof.
  intros all. unfold compareStep.
  assert (all.*2 !! length pre = Some b) as Hb.
  { unfold all. rewrite fmap_app, lookup_app_r by (by rewrite length_fmap).
    by rewrite length_fmap, Nat.sub_diag. }
  assert (length all.*1 - 1 = length pre + length rest) as Hlen.
  { unfold all. rewrite length_fmap, length_app. simpl. lia. }
  eapply writes_ext.
  - apply writes_bind; [|apply writes_bind; [apply (writes_pins _ _ pre)|]].
    + instantiate (1 := if pre is [] then EmptyString else "or(").
      destruct pre as [|cb pre].
      * rewrite decide_False by (simpl; lia). writes_step.
      * rewrite decide_True by (simpl; lia). writes_step.
    + intros j cb Hj. unfold all. rewrite !fmap_app, !lookup_app_l
        by (rewrite length_fmap; by eapply lookup_lt_Some).
      rewrite !list_lookup_fmap, Hj. done.
    + apply writes_bind; [writes_step|]. apply writes_bind; [writes_step|].
      apply writes_bind.
      * instantiate (1 := if we && bool_decide (rest = []) then "=" else EmptyString).
        rewrite Hlen.
        destruct rest as [|cb rest].
        -- rewrite (bool_decide_eq_true_2 (length pre = _)) by (simpl; lia).
           rewrite (bool_decide_eq_true_2 ([] = [])) by done.
           destruct we; simpl; writes_step.
        -- rewrite (bool_decide_eq_false_2 (length pre = _)) by (simpl; lia).
           rewrite (bool_decide_eq_false_2 (_ :: _ = [])) by done.
           rewrite !andb_false_r. writes_step.
      * eapply writes_index; [exact Hb|]. apply writes_bind; [writes_step|].
        instantiate (1 := if pre is [] then (if rest is [] then EmptyString else " ")
                          else ")").
        rewrite Hlen. destruct pre as [|cb pre].
        -- rewrite (decide_False (P := 0 < _)) by (simpl; lia).
           destruct rest as [|cb rest].
           ++ rewrite decide_False by (simpl; lia). writes_step.
           ++ rewrite decide_True by (simpl; lia). writes_step.
        -- rewrite decide_True by (simpl; lia). writes_step.
  - rewrite render_altAst, opText_dirOp. by text_norm.
Qed.

Lemma writes_compare_tail d we pre rest :
  pre ≠ [] ->
  let all := pre ++ rest in
  writes (forEachFrom (length pre) rest.*1
            (compareStep all.*1 all.*2 (dirByte d) we))
    (GoStrings.catAll ((fun p => "or" +:+ render p) <$> compareAlts d we pre rest)).
Proof.
  revert pre. induction rest as [|[c b] rest IH]; intros pre Hpre all.
  { apply writes_skip. }
  cbn [compareAlts forEachFrom]. rewrite !fmap_cons, catAll_cons.
  cbn [forEachFrom fst].
  eapply writes_ext.
  - apply writes_bind.
    + apply (writes_compareStep d we pre c b rest).
    + specialize (IH (pre ++ [(c, b)])). rewrite length_app in IH. simpl in IH.
      rewrite <-app_assoc in IH. simpl in IH.
      replace (S (length pre)) with (length pre + 1) by lia.
      apply IH. by destruct pre.
  - destruct pre; [done|]. simpl. by text_norm.
Qed.

Lemma compareAlts_parens d we pre rest :
  pre ≠ [] ->
  Forall (fun p => startsParen p = true ∧ endsParen p = true)
    (compareAlts d we pre rest).
Proof.
  revert pre. induction rest as [|[c b] rest IH]; intros pre Hpre; simpl.
  - constructor.
  - constructor; [by destruct pre|]. apply IH. by destruct pre.
Qed.

Lemma writes_compare_all d we all :
  all ≠ [] ->
  writes (forEachFrom 0 all.*1 (compareStep all.*1 all.*2 (dirByte d) we))
    (render (match compareAlts d we [] all with
             | [] => PFalse
             | a :: alts => orAll a alts
             end)).
Proof.
  destruct all as [|[c b] rest]; [done|]. intros _.
  cbn [compareAlts]. rewrite render_orAll by (by apply compareAlts_parens).
  rewrite (fmap_cons fst) at 1. cbn [forEachFrom fst].
  eapply writes_ext.
  - apply writes_bind.
    + apply (writes_compareStep d we [] c b rest).
    + apply (writes_compare_tail d we [(c, b)] rest). done.
  - destruct (altAst_atomic [] c (dirOp d (we && bool_decide (rest = []))) b)
      as [_ ->].
    destruct rest as [|[c' b'] rest]; simpl; by text_norm.
Qed.

Lemma writes_buildCompareClause d we quotaCols bound :
  quotaCols ≠ [] -> length bound = length quotaCols ->
  writes (buildCompareClause quotaCols bound (dirByte d) we)
    (render (compareAst d we quotaCols bound)).
Proof.
  intros Hne Hlen. unfold buildCompareClause, forEach, compareAst.
  pose proof (writes_compare_all d we (zip quotaCols bound)) as Hall.
  rewrite fst_zip, snd_zip in Hall by lia. apply Hall.
  destruct quotaCols, bound; simplify_eq/=; done.
Qed.

End RenderFacts.

(** ** Meaning of the clauses *)

Section SemanticsFacts.
Context {V : Type} `{EqDecision V}.
Variable vlt : V -> V -> bool.
Variable lit : string -> V.
Hypothesis vlt_order : strictTotal vlt.

Abbreviation eval := (eval vlt lit).
Abbreviation lexLt := (lexLt vlt).
Abbreviation lexLe := (lexLe vlt).

Lemma vlt_asym a b : vlt a b = true -> vlt b a = false.
Proof.
  intros Hab. destruct (vlt b a) eqn:Hba; [|done].
  pose proof (vlt_trans _ vlt_order _ _ _ Hab Hba) as Haa.
  by rewrite (vlt_irrefl _ vlt_order) in Haa.
Qed.

Lemma vlt_neq a b : vlt a b = true -> a ≠ b.
Proof. intros Hab ->. by rewrite (vlt_irrefl _ vlt_order) in Hab. Qed.

(** Three-way case analysis on two values. *)
Lemma vlt_cases a b :
  (vlt a b = true ∧ vlt b a = false ∧ a ≠ b)
  ∨ (a = b ∧ vlt a b = false ∧ vlt b a = false)
  ∨ (vlt b a = true ∧ vlt a b = false ∧ a ≠ b).
Proof.
  destruct (vlt_total _ vlt_order a b) as [Hlt|[->|Hgt]].
  - left. eauto using vlt_asym, vlt_neq.
  - right; left. by rewrite (vlt_irrefl _ vlt_order).
  - right; right. split_and!; eauto using vlt_asym.
    intros ->. by rewrite (vlt_irrefl _ vlt_order) in Hgt.
Qed.

(** Closes a goal whose hypotheses put values in a cycle of [vlt]. *)
Ltac order_contra :=
  exfalso; subst;
  repeat match goal with
  | H1 : vlt ?x ?y = true, H2 : vlt ?y ?z = true |- _ =>
      lazymatch goal with
      | _ : vlt x z = true |- _ => fail
      | _ => pose proof (vlt_trans _ vlt_order _ _ _ H1 H2)
      end
  end;
  match goal with
  | H : vlt ?x ?x = true |- _ => by rewrite (vlt_irrefl _ vlt_order) in H
  end.

Lemma lexLe_refl k : lexLe k k = true.
Proof.
  induction k as [|x k IH]; [done|]. simpl.
  rewrite (vlt_irrefl _ vlt_order), bool_decide_eq_true_2 by done. done.
Qed.

(** On tuples of one length, "below" is the negation of "at or above". *)
Lemma lexLt_not_lexLe k b :
  length k = length b -> lexLt k b = negb (lexLe b k).
Proof.
  revert b. induction k as [|x k IH]; intros [|y b] Hlen; simplify_eq/=; [done|].
  rewrite (IH b) by done.
  destruct (vlt_cases x y) as [(H1&H2&?)|[(->&H1&H2)|(H1&H2&?)]];
    rewrite ?H1, ?H2; simpl;
    repeat first [rewrite bool_decide_eq_true_2 by done
                 |rewrite bool_decide_eq_false_2 by done]; done.
Qed.

Lemma lexLe_trans a b c :
  length a = length b -> length b = length c ->
  lexLe a b = true -> lexLe b c = true -> lexLe a c = true.
Proof.
  revert b c. induction a as [|x a IH]; intros [|y b] [|z c] Hab Hbc;
    simplify_eq/=; [done|].
  intros H1 H2.
  apply orb_true_iff in H1 as [H1|[H1 H1']%andb_true_iff];
    apply orb_true_iff in H2 as [H2|[H2 H2']%andb_true_iff].
  - by rewrite (vlt_trans _ vlt_order _ _ _ H1 H2).
  - apply bool_decide_eq_true in H2 as <-. by rewrite H1.
  - apply bool_decide_eq_true in H1 as ->. by rewrite H2.
  - apply bool_decide_eq_true in H1 as ->. apply bool_decide_eq_true in H2 as ->.
    rewrite bool_decide_eq_true_2 by done. rewrite (IH b c) by done.
    by rewrite orb_true_r.
Qed.

(** Peeling a common prefix of the bounds off an interval test. *)
Lemma lex_between_prefix (P K L X U : list V) :
  length P = length K ->
  lexLe (P ++ L) (K ++ X) && lexLt (K ++ X) (P ++ U)
  = bool_decide (K = P) && (lexLe L X && lexLt X U).
Proof.
  revert K. induction P as [|y P IH]; intros [|x K] Hlen; simplify_eq/=.
  { done. }
  destruct (vlt_cases x y) as [(H1&H2&?)|[(->&H1&H2)|(H1&H2&?)]];
    rewrite ?H1, ?H2; simpl.
  - rewrite (bool_decide_eq_false_2 (y = x)) by done.
    rewrite (bool_decide_eq_false_2 (x :: K = y :: P)) by congruence. done.
  - rewrite !(bool_decide_eq_true_2 (y = y)) by done. simpl.
    rewrite IH by done. f_equal.
    apply bool_decide_ext. split; [by intros ->|congruence].
  - rewrite (bool_decide_eq_false_2 (x = y)) by done.
    rewrite (bool_decide_eq_false_2 (x :: K = y :: P)) by congruence.
    simpl. by rewrite ?andb_false_r.
Qed.

Lemma lexLe_prefix (P L U : list V) : lexLe (P ++ L) (P ++ U) = lexLe L U.
Proof.
  induction P as [|y P IH]; [done|]. simpl.
  by rewrite (vlt_irrefl _ vlt_order), bool_decide_eq_true_2.
Qed.

Lemma eval_orAll row a ps :
  eval row (orAll a ps) = eval row a || existsb (eval row) ps.
Proof.
  unfold orAll. revert a. induction ps as [|p ps IH]; intros a; simpl.
  - by rewrite orb_false_r.
  - rewrite IH. simpl. by rewrite orb_assoc.
Qed.

Lemma eval_andAll row a ps :
  eval row (andAll a ps) = eval row a && forallb (eval row) ps.
Proof.
  unfold andAll. revert a. induction ps as [|p ps IH]; intros a; simpl.
  - by rewrite andb_true_r.
  - rewrite IH. simpl. by rewrite andb_assoc.
Qed.

Abbreviation pinned := (pinned lit).

Lemma forallb_eqAtom row pre :
  forallb (eval row) (eqAtom <$> pre) = pinned row pre.
Proof. unfold pinned. induction pre as [|[c b] pre IH]; simpl; by f_equal. Qed.

Lemma eval_altAst row pre c op b :
  eval row (altAst pre c op b) = pinned row pre && evalOp vlt op (row c) (lit b).
Proof.
  unfold altAst. rewrite <-forallb_eqAtom.
  destruct (eqAtom <$> pre) as [|e es]; [done|].
  rewrite eval_andAll, forallb_app. simpl. by rewrite andb_true_r, andb_assoc.
Qed.

Lemma pinned_snoc row pre c b :
  pinned row (pre ++ [(c, b)]) = pinned row pre && bool_decide (row c = lit b).
Proof. unfold pinned. rewrite forallb_app. simpl. by rewrite andb_true_r. Qed.

Lemma evalOp_dirOp_last d we x y :
  evalOp vlt (dirOp d we) x y = lexDir vlt d we [x] [y].
Proof.
  destruct d, we; simpl; rewrite ?andb_false_r, ?andb_true_r, ?orb_false_r; try done.
  f_equal. apply bool_decide_ext. naive_solver.
Qed.

Lemma lexDir_cons d we x y k b :
  length k = length b -> k ≠ [] ->
  lexDir vlt d we (x :: k) (y :: b)
  = evalOp vlt (dirOp d false) x y || (bool_decide (x = y) && lexDir vlt d we k b).
Proof.
  intros Hlen Hk. destruct d, we; simpl; try done.
  all: f_equal; f_equal; apply bool_decide_ext; naive_solver.
Qed.

(** A compare clause is the lexicographic comparison of the key with the
    bound, restricted to the rows pinned on the columns already passed. *)
Lemma eval_compareAlts row d we pre rest :
  rest ≠ [] ->
  existsb (eval row) (compareAlts d we pre rest)
  = pinned row pre && lexDir vlt d we (row <$> rest.*1) (lit <$> rest.*2).
Proof.
  revert pre. induction rest as [|[c b] rest IH]; intros pre Hne; [done|].
  simpl compareAlts. cbn [existsb].
  assert (eval row (if pre is [] then altAst pre c (dirOp d (we && bool_decide (rest = []))) b
                    else PParen (altAst pre c (dirOp d (we && bool_decide (rest = []))) b))
          = eval row (altAst pre c (dirOp d (we && bool_decide (rest = []))) b)) as ->
    by (by destruct pre).
  rewrite eval_altAst.
  destruct rest as [|cb rest].
  - rewrite bool_decide_eq_true_2 by done. simpl.
    rewrite orb_false_r, !andb_true_r. by rewrite evalOp_dirOp_last.
  - rewrite IH by done. rewrite pinned_snoc.
    rewrite bool_decide_eq_false_2 by done. rewrite andb_false_r.
    cbn [fmap list_fmap fst snd].
    change (lexDir vlt d we (row c :: ?k) (lit b :: ?l))
      with (lexDir vlt d we (row c :: k) (lit b :: l)).
    rewrite (lexDir_cons d we (row c) (lit b)).
    + destruct (pinned row pre); simpl; done.
    + simpl. by rewrite !length_fmap.
    + done.
Qed.

Lemma eval_compareAst row d we quotaCols bound :
  quotaCols ≠ [] -> length bound = length quotaCols ->
  eval row (compareAst d we quotaCols bound)
  = lexDir vlt d we (keyOf row quotaCols) (tupleOf lit bound).
Proof.
  intros Hne Hlen. unfold compareAst.
  assert (zip quotaCols bound ≠ []) as Hz.
  { destruct quotaCols, bound; simplify_eq/=; done. }
  pose proof (eval_compareAlts row d we [] _ Hz) as Hex.
  rewrite fst_zip, snd_zip in Hex by lia.
  destruct (compareAlts d we [] (zip quotaCols bound)) as [|a alts] eqn:Halts.
  - destruct (zip quotaCols bound) as [|[] ?]; simplify_eq/=.
  - rewrite eval_orAll. simpl in Hex. by rewrite Hex.
Qed.

Lemma getCommonLengthFrom_spec pre low up :
  length low <= length up ->
  getCommonLengthFrom (length pre) low (pre ++ up)
  = Some (length pre + commonPrefix low up).
Proof.
  revert pre up. induction low as [|l low IH]; intros pre [|u up] Hlen;
    simplify_eq/=; try lia.
  - f_equal; lia.
  - f_equal; lia.
  - rewrite lookup_app_r, Nat.sub_diag by lia. simpl.
    destruct (decide (l ≠ u)) as [Hne|Heq].
    + rewrite decide_False by done. f_equal; lia.
    + apply dec_stable in Heq as ->. rewrite decide_True by done.
      specialize (IH (pre ++ [u]) up). rewrite length_app in IH. simpl in IH.
      rewrite <-app_assoc in IH. simpl in IH.
      replace (S (length pre)) with (length pre + 1) by lia.
      rewrite IH by lia. f_equal; lia.
Qed.

Lemma getCommonLength_spec low up :
  length low <= length up ->
  getCommonLength low up = Some (commonPrefix low up).
Proof. intros. apply (getCommonLengthFrom_spec [] low up). done. Qed.

(** Two tuples of one length split at their common prefix. *)
Lemma commonPrefix_split low up :
  length low = length up ->
  (commonPrefix low up = length low ∧ low = up)
  ∨ (∃ P l low1 u up1,
       low = P ++ l :: low1 ∧ up = P ++ u :: up1
       ∧ length P = commonPrefix low up ∧ l ≠ u).
Proof.
  revert up. induction low as [|l low IH]; intros [|u up] Hlen; simplify_eq/=.
  { by left. }
  destruct (decide (l = u)) as [->|Hne].
  - destruct (IH up Hlen) as [[-> ->]|(P&l&low1&u'&up1&->&->&HP&Hne)].
    + by left.
    + right. exists (u :: P), l, low1, u', up1. simpl. by rewrite HP.
  - right. by exists [], l, low, u, up.
Qed.

Lemma pinned_zip row cols bound :
  length cols = length bound ->
  pinned row (zip cols bound) = bool_decide (row <$> cols = lit <$> bound).
Proof.
  revert bound. induction cols as [|c cols IH]; intros [|b bound] Hlen;
    simplify_eq/=; [done|].
  rewrite IH by done.
  destruct (decide (row c = lit b)) as [Heq|Hne].
  - rewrite bool_decide_eq_true_2 by done. simpl.
    apply bool_decide_ext. rewrite Heq. split; [congruence|by intros [=]].
  - rewrite bool_decide_eq_false_2 by done. simpl.
    by rewrite bool_decide_eq_false_2 by congruence.
Qed.

(** The clause written for the columns from the first difference on
    selects the keys between the two bounds. *)
Lemma eval_betweenSuffixAst row c cols1 l low1 u up1 :
  length low1 = length cols1 -> length up1 = length cols1 ->
  (cols1 ≠ [] -> vlt (lit l) (lit u) = true) ->
  eval row (betweenSuffixAst (c :: cols1) (l :: low1) (u :: up1))
  = lexLe (tupleOf lit (l :: low1)) (keyOf row (c :: cols1))
    && lexLt (keyOf row (c :: cols1)) (tupleOf lit (u :: up1)).
Proof.
  intros Hlow Hup Hlt. destruct cols1 as [|c1 cols1].
  { destruct low1, up1; simplify_eq/=.
    rewrite !andb_true_r, !andb_false_r, !orb_false_r.
    do 2 f_equal. apply bool_decide_ext. naive_solver. }
  assert (vlt (lit l) (lit u) = true) as Hlu0 by (apply Hlt; discriminate).
  clear Hlt. rename Hlu0 into Hlt.
  cbn [betweenSuffixAst]. cbn [eval singleBetweenAst dirOp evalOp].
  rewrite !eval_compareAst by done.
  unfold keyOf, tupleOf. cbn [lexDir fmap list_fmap Partitioner.lexLe Partitioner.lexLt].
  fold (@fmap list _ _ _ row (c1 :: cols1)) (@fmap list _ _ _ lit low1)
       (@fmap list _ _ _ lit up1).
  generalize (lexLe (lit <$> low1) (row <$> c1 :: cols1)).
  generalize (lexLt (row <$> c1 :: cols1) (lit <$> up1)).
  revert Hlt. generalize (row c) (lit l) (lit u). intros k a b Hlt b1 b2.
  destruct (vlt_cases k a) as [(H1&H2&?)|[(E&H1&H2)|(H1&H2&?)]];
    destruct (vlt_cases k b) as [(H3&H4&?)|[(E'&H3&H4)|(H3&H4&?)]];
    rewrite ?H1, ?H2, ?H3, ?H4; simpl.
  all: try order_contra.
  all: repeat first
    [ rewrite bool_decide_eq_true_2 by done
    | rewrite bool_decide_eq_false_2 by done
    | rewrite bool_decide_eq_false_2 by (by apply not_eq_sym) ]; simpl.
  all: by destruct b1, b2.
Qed.

(** A between clause selects the keys of the interval [low, up). *)
Lemma eval_betweenAst row quotaCols low up :
  quotaCols ≠ [] ->
  length low = length quotaCols -> length up = length quotaCols ->
  lexLe (tupleOf lit low) (tupleOf lit up) = true ->
  (forall s1 s2, s1 ∈ low -> s2 ∈ up -> lit s1 = lit s2 -> s1 = s2) ->
  eval row (betweenAst quotaCols low up)
  = lexLe (tupleOf lit low) (keyOf row quotaCols)
    && lexLt (keyOf row quotaCols) (tupleOf lit up).
Proof.
  intros Hne Hlow Hup Hsorted Hcanon. unfold betweenAst.
  rewrite getCommonLength_spec by lia.
  destruct (commonPrefix_split low up) as
    [[Hn ->]|(P&l&low1&u&up1&->&->&HP&Hlu)]; [lia| |].
  - rewrite Hn. rewrite decide_True by (destruct quotaCols; simplify_eq/=; lia).
    rewrite decide_True by done. simpl.
    rewrite lexLt_not_lexLe by (unfold keyOf, tupleOf; rewrite !length_fmap; lia).
    symmetry. apply andb_negb_r.
  - rewrite <-HP.
    assert (vlt (lit l) (lit u) = true) as Hlt.
    { unfold tupleOf in Hsorted. rewrite !fmap_app, lexLe_prefix in Hsorted.
      simpl in Hsorted.
      apply orb_true_iff in Hsorted as [?|[Heq _]%andb_true_iff]; [done|].
      apply bool_decide_eq_true in Heq. destruct Hlu.
      apply Hcanon; [set_solver..|done]. }
    rewrite length_app in Hlow, Hup. simpl in Hlow, Hup.
    assert (∃ CP c cols1, quotaCols = CP ++ c :: cols1 ∧ length CP = length P)
      as (CP&c&cols1&->&HCP).
    { exists (take (length P) quotaCols).
      destruct (drop (length P) quotaCols) as [|c cols1] eqn:Hd.
      - apply (f_equal length) in Hd. rewrite length_drop in Hd. simpl in Hd. lia.
      - exists c, cols1. rewrite <-Hd, take_drop. split; [done|].
        rewrite length_take. lia. }
    rewrite length_app in Hlow, Hup. simpl in Hlow, Hup.
    unfold keyOf, tupleOf. rewrite !fmap_app.
    rewrite lex_between_prefix by (rewrite !length_fmap; lia).
    assert (eval row (betweenSuffixAst (c :: cols1) (l :: low1) (u :: up1))
            = lexLe (lit <$> l :: low1) (row <$> c :: cols1)
              && lexLt (row <$> c :: cols1) (lit <$> u :: up1)) as Hsuf.
    { apply eval_betweenSuffixAst; [lia..|done]. }
    destruct (decide (0 < length P)) as [Hpos|Hzero].
    + rewrite decide_False by (rewrite length_app; simpl; lia).
      rewrite (take_app_length' CP) by done. rewrite take_app_length.
      rewrite (drop_app_length' CP) by done. rewrite !drop_app_length.
      pose proof (forallb_eqAtom row (zip CP P)) as Hpin.
      rewrite pinned_zip in Hpin by done.
      destruct (eqAtom <$> zip CP P) as [|e es] eqn:Hz.
      { apply (f_equal length) in Hz. rewrite length_fmap, length_zip in Hz.
        simpl in Hz. lia. }
      cbn [eval]. rewrite eval_andAll, Hsuf.
      cbn [forallb] in Hpin. by rewrite Hpin.
    + destruct P; [|simpl in Hzero; lia]. destruct CP; [|done].
      simpl app. rewrite Hsuf. by rewrite bool_decide_eq_true_2.
Qed.

(** *** The clauses of a table *)

Lemma whereAsts_length quotaCols handleVals :
  handleVals ≠ [] ->
  length (whereAsts quotaCols handleVals) = S (length handleVals).
Proof.
  destruct handleVals as [|first rest]; [done|]. intros _.
  unfold whereAsts. rewrite !length_app, length_fmap, length_zip. cbn [tail length]. lia.
Qed.

Lemma whereAsts_first quotaCols first rest :
  whereAsts quotaCols (first :: rest) !! 0
  = Some (compareAst Less false quotaCols first).
Proof. done. Qed.

Lemma whereAsts_between quotaCols handleVals i lo up :
  handleVals !! i = Some lo -> handleVals !! S i = Some up ->
  whereAsts quotaCols handleVals !! S i = Some (betweenAst quotaCols lo up).
Proof.
  intros Hlo Hup. destruct handleVals as [|first rest]; [done|].
  unfold whereAsts. cbn [app]. rewrite lookup_cons.
  rewrite lookup_app_l.
  2:{ rewrite length_fmap, length_zip. apply lookup_lt_Some in Hup.
      cbn [tail length] in *. lia. }
  rewrite list_lookup_fmap.
  assert (zip (first :: rest) (tail (first :: rest)) !! i = Some (lo, up)) as ->; [|done].
  apply lookup_zip_with_Some. exists lo, up. split_and!; try done.
Qed.

Lemma whereAsts_last quotaCols handleVals t :
  last handleVals = Some t ->
  whereAsts quotaCols handleVals !! length handleVals
  = Some (compareAst Greater true quotaCols t).
Proof.
  intros Hlast. destruct handleVals as [|first rest]; [done|].
  unfold whereAsts. rewrite Hlast. simpl default.
  rewrite app_assoc. rewrite lookup_app_r.
  2:{ rewrite length_app, length_fmap, length_zip. cbn [tail length]. lia. }
  rewrite length_app, length_fmap, length_zip. cbn [tail length].
  replace (S (length rest) - (1 + S (length rest) `min` length rest)) with 0 by lia.
  done.
Qed.

(** With sorted bounds the boundaries at or below a key are exactly the
    first [chunkOf] ones. *)
Lemma chunkOf_spec handleVals k :
  Forall (fun t => length t = length k) handleVals ->
  sortedBounds vlt lit handleVals ->
  forall i t, handleVals !! i = Some t ->
    lexLe (tupleOf lit t) k = bool_decide (i < chunkOf vlt lit handleVals k).
Proof.
  induction handleVals as [|t0 vals IH]; intros Hlen Hsorted i t Hi; [done|].
  apply Forall_cons in Hlen as [Hlen0 Hlen].
  assert (sortedBounds vlt lit vals) as Hsorted'.
  { intros j lo up Hlo Hup. by apply (Hsorted (S j)). }
  specialize (IH Hlen Hsorted').
  unfold chunkOf in *. rewrite filter_cons.
  destruct (decide (lexLe (tupleOf lit t0) k = true)) as [Ht0|Ht0].
  - rewrite length_cons. destruct i as [|i].
    + injection Hi as <-. rewrite Ht0. symmetry. apply bool_decide_eq_true_2. lia.
    + rewrite lookup_cons in Hi. rewrite (IH i t Hi). apply bool_decide_ext. lia.
  - apply not_true_is_false in Ht0.
    assert (length (filter (λ t, lexLe (tupleOf lit t) k = true) vals) = 0) as Hz.
    { destruct vals as [|t1 vals]; [done|].
      pose proof (IH 0 t1 eq_refl) as H1.
      destruct (decide (0 < length (filter (λ t, lexLe (tupleOf lit t) k = true)
                                      (t1 :: vals)))) as [Hpos|]; [|lia].
      rewrite bool_decide_eq_true_2 in H1 by done.
      pose proof (Hsorted 0 t0 t1 eq_refl eq_refl) as H01.
      apply Forall_cons in Hlen as [Hlen1 _].
      rewrite (lexLe_trans _ (tupleOf lit t1) k) in Ht0;
        unfold tupleOf; rewrite ?length_fmap; try done; lia. }
    rewrite Hz in *. destruct i as [|i].
    + injection Hi as <-. rewrite Ht0. symmetry. apply bool_decide_eq_false_2. lia.
    + rewrite lookup_cons in Hi. rewrite (IH i t Hi). apply bool_decide_ext. lia.
Qed.

Lemma sortedBoundsb_sound handleVals :
  sortedBoundsb vlt lit handleVals = true -> sortedBounds vlt lit handleVals.
Proof.
  induction handleVals as [|lo rest IH]; intros Hb i lo' up' Hlo Hup; [done|].
  destruct rest as [|up rest]; [by destruct i|].
  cbn [sortedBoundsb] in Hb. apply andb_true_iff in Hb as [Hle Hb].
  destruct i as [|i].
  - by simplify_eq/=.
  - by apply (IH Hb i).
Qed.

Lemma canonicalLitsb_sound handleVals :
  canonicalLitsb lit handleVals = true -> canonicalLits lit handleVals.
Proof.
  unfold canonicalLitsb. rewrite forallb_forall.
  intros Hb t1 t2 s1 s2 Ht1 Ht2 Hs1 Hs2 Heq.
  assert (forall t s, t ∈ handleVals -> s ∈ t -> In s (concat handleVals)) as Hin.
  { intros t s Ht Hs. apply in_concat. exists t.
    split; by apply list_elem_of_In. }
  specialize (Hb s1 (Hin _ _ Ht1 Hs1)). rewrite forallb_forall in Hb.
  specialize (Hb s2 (Hin _ _ Ht2 Hs2)).
  rewrite (bool_decide_eq_true_2 _ Heq) in Hb. simpl in Hb.
  by apply bool_decide_eq_true in Hb.
Qed.

Lemma chunkOf_le handleVals k :
  chunkOf vlt lit handleVals k <= length handleVals.
Proof. unfold chunkOf. apply length_filter. Qed.
End SemanticsFacts.

Module BetweenFacts.
Import Buffer BufferFacts RenderFacts.
Local Open Scope nat_scope.

Lemma writes_singleBetween c cols1 l low1 u up1 we :
  writes (singleBetween (c :: cols1) (l :: low1) (u :: up1) we)
    (render (singleBetweenAst c l u we)).
Proof.
  unfold singleBetween. eapply writes_ext.
  - eapply writes_index; [done|]. apply writes_bind; [writes_step|].
    apply writes_bind; [writes_step|]. apply writes_bind.
    { instantiate (1 := if we then "=" else EmptyString). destruct we; writes_step. }
    eapply writes_index; [done|]. apply writes_bind; [writes_step|].
    apply writes_bind; [writes_step|].
    eapply writes_index; [done|]. apply writes_bind; [writes_step|].
    apply writes_bind; [writes_step|].
    eapply writes_index; [done|]. writes_step.
  - destruct we; simpl; unfold GoStrings.byte; by text_norm.
Qed.

Lemma compareAst_shape d we quotaCols bound :
  quotaCols ≠ [] -> length bound = length quotaCols ->
  startsParen (compareAst d we quotaCols bound) = false.
Proof.
  intros Hne Hlen. unfold compareAst.
  destruct quotaCols as [|c cols], bound as [|b bound]; simplify_eq/=.
  rewrite orAll_shape. done.
Qed.

Lemma writes_betweenSuffix c cols1 l low1 u up1 :
  length low1 = length cols1 -> length up1 = length cols1 ->
  writes (betweenSuffix (c :: cols1) (l :: low1) (u :: up1))
    (render (betweenSuffixAst (c :: cols1) (l :: low1) (u :: up1))).
Proof.
  intros Hlow Hup. unfold betweenSuffix.
  destruct cols1 as [|c1 cols1].
  { rewrite decide_True by done. apply writes_singleBetween. }
  rewrite decide_False by (simpl; lia).
  eapply writes_ext.
  - apply writes_bind; [writes_step|].
    apply writes_bind; [apply writes_singleBetween|].
    apply writes_bind; [writes_step|].
    eapply writes_index; [done|]. apply writes_bind; [writes_step|].
    apply writes_bind; [writes_step|].
    eapply writes_index; [done|]. apply writes_bind; [writes_step|].
    apply writes_bind; [writes_step|].
    eapply writes_sliceFrom; [simpl; lia|]. eapply writes_sliceFrom; [simpl; lia|].
    apply writes_bind.
    { apply (writes_buildCompareClause Greater true); [done|].
      simpl in *. rewrite drop_0. lia. }
    apply writes_bind; [writes_step|].
    eapply writes_index; [done|]. apply writes_bind; [writes_step|].
    apply writes_bind; [writes_step|].
    eapply writes_index; [done|]. apply writes_bind; [writes_step|].
    apply writes_bind; [writes_step|].
    eapply writes_sliceFrom; [simpl; lia|]. eapply writes_sliceFrom; [simpl; lia|].
    apply writes_bind.
    { apply (writes_buildCompareClause Less false); [done|].
      simpl in *. rewrite drop_0. lia. }
    writes_step.
  - change (drop 1 (c :: c1 :: cols1)) with (c1 :: cols1).
    change (drop 1 (l :: low1)) with low1. change (drop 1 (u :: up1)) with up1.
    cbn [betweenSuffixAst render startsParen endsParen singleBetweenAst].
    unfold GoStrings.byte, equal, gap. by text_norm.
Qed.

Lemma writes_prefix quotaCols low pre e es :
  (forall j cb, pre !! j = Some cb ->
     quotaCols !! j = Some cb.1 ∧ low !! j = Some cb.2) ->
  eqAtom <$> pre = e :: es ->
  writes (forRange 0 (length pre) (prefixStep quotaCols low))
    (render (andAll e es)).
Proof.
  intros Hpre Hes.
  eapply writes_ext.
  - apply (writes_forRange pre 0 _
             (fun j cb => (if decide (0 < j) then " and " else EmptyString)
                          +:+ cb.1 +:+ "=" +:+ cb.2)).
    intros j cb Hj. destruct (Hpre j cb Hj) as [Hq Hl]. simpl. unfold prefixStep.
    eapply writes_ext.
    + apply writes_bind.
      { instantiate (1 := if decide (0 < j) then " and " else EmptyString).
        destruct (decide (0 < j)); writes_step. }
      eapply writes_index; [done|]. apply writes_bind; [writes_step|].
      apply writes_bind; [writes_step|].
      eapply writes_index; [done|]. writes_step.
    + unfold GoStrings.byte, equal. by text_norm.
  - destruct pre as [|[c b] pre]; simplify_eq/=.
    rewrite render_andAll; [|done|apply Forall_fmap, Forall_true; done].
    simpl. text_norm. do 3 f_equal.
    rewrite <-list_fmap_compose, <-imap_const.
    apply (f_equal GoStrings.catAll). apply imap_ext.
    intros j [c' b'] _. unfold compose, const.
    rewrite decide_True by lia. simpl. by text_norm.
Qed.

Lemma writes_buildBetweenClause quotaCols low up :
  quotaCols ≠ [] ->
  length low = length quotaCols -> length up = length quotaCols ->
  writes (buildBetweenClause quotaCols low up)
    (render (betweenAst quotaCols low up)).
Proof.
  intros Hne Hlow Hup. unfold buildBetweenClause, betweenAst.
  rewrite getCommonLength_spec by lia.
  eapply writes_lift; [done|].
  destruct (commonPrefix_split low up ltac:(lia)) as
    [[Hn ->]|(P&l&low1&u&up1&->&->&HP&Hlu)].
  - rewrite Hn.
    destruct (decide (0 < length up)); [|destruct quotaCols; simplify_eq/=; lia].
    destruct (decide (length up = length up)); [|done]. apply writes_WriteString.
  - rewrite <-HP. rewrite length_app in Hlow, Hup. simpl in Hlow, Hup.
    assert (∃ CP c cols1, quotaCols = CP ++ c :: cols1 ∧ length CP = length P)
      as (CP&c&cols1&->&HCP).
    { exists (take (length P) quotaCols).
      destruct (drop (length P) quotaCols) as [|c cols1] eqn:Hd.
      - apply (f_equal length) in Hd. rewrite length_drop in Hd. simpl in Hd. lia.
      - exists c, cols1. rewrite <-Hd, take_drop. split; [done|].
        rewrite length_take. lia. }
    rewrite length_app in Hlow, Hup. simpl in Hlow, Hup.
    destruct (decide (0 < length P)) as [Hpos|Hzero].
    + destruct (decide (length P = length (P ++ l :: low1))) as [Heq|_].
      { rewrite length_app in Heq. simpl in Heq. lia. }
      rewrite (take_app_length' CP) by done. rewrite take_app_length.
      destruct (eqAtom <$> zip CP P) as [|e es] eqn:Hz.
      { apply (f_equal length) in Hz. rewrite length_fmap, length_zip in Hz.
        simpl in Hz. lia. }
      rewrite (drop_app_length' CP) by done. rewrite !drop_app_length.
      eapply writes_ext.
      * apply writes_bind.
        { replace (length P) with (length (zip CP P)) by (rewrite length_zip; lia).
          apply (writes_prefix _ _ (zip CP P) e es); [|done].
          intros j [c' b'] Hj. apply lookup_zip_with_Some in Hj
            as (?&?&[= <- <-]&Hc&Hb).
          split; by apply lookup_app_l_Some. }
        apply writes_bind; [writes_step|].
        eapply writes_sliceFrom; [rewrite length_app; lia|].
        eapply writes_sliceFrom; [rewrite length_app; lia|].
        eapply writes_sliceFrom; [rewrite length_app; lia|].
        rewrite (drop_app_length' CP) by done. rewrite !drop_app_length.
        apply writes_bind; [apply writes_betweenSuffix; lia|]. writes_step.
      * cbn [render startsParen endsParen gap].
        destruct (andAll_shape e es) as [_ Hends].
        { assert (Forall atomic (e :: es)) as Hat.
          { rewrite <-Hz. apply Forall_fmap, Forall_true. done. }
          by apply Forall_cons in Hat as [_ ?]. }
        rewrite Hends.
        assert (endsParen e = false) as He.
        { destruct (zip CP P) as [|[] ?]; simplify_eq/=. done. }
        replace (if es is [] then endsParen e else false) with false
          by (by destruct es).
        unfold gap. by text_norm.
    + destruct P; [|simpl in Hzero; lia]. destruct CP; [|done].
      simpl app. apply writes_betweenSuffix; lia.
Qed.

End BetweenFacts.

Module WhereFacts.
Import Buffer BufferFacts RenderFacts BetweenFacts.
Local Open Scope nat_scope.

Lemma length_quotaCols (handleColNames : list string) :
  length (quoteCol <$> handleColNames) = length handleColNames.
Proof. apply length_fmap. Qed.

(** The clauses [buildWhereClauses] returns are the renderings of
    [whereAsts], whenever every boundary tuple has one literal per column. *)
Lemma buildWhereClauses_render handleColNames handleVals :
  handleColNames ≠ [] -> handleVals ≠ [] ->
  Forall (fun t => length t = length handleColNames) handleVals ->
  buildWhereClauses handleColNames handleVals
  = Some (render <$> whereAsts (quoteCol <$> handleColNames) handleVals).
Proof.
  intros Hcols Hvals Hlen. unfold buildWhereClauses.
  rewrite decide_False.
  2:{ intros [H|H]; [by destruct handleColNames|by destruct handleVals]. }
  set (quotaCols := quoteCol <$> handleColNames).
  assert (quotaCols ≠ []) as Hq by (by destruct handleColNames).
  assert (forall i t, handleVals !! i = Some t -> length t = length quotaCols) as Hl.
  { intros i t Hi. unfold quotaCols. rewrite length_fmap.
    by eapply (Forall_lookup_1 _ _ _ _ Hlen). }
  destruct handleVals as [|first rest] eqn:Hv; [done|]. rewrite <-Hv in *.
  assert (handleVals !! 0 = Some first) as H0 by (by rewrite Hv).
  change less with (dirByte Less). change greater with (dirByte Greater).
  rewrite H0. cbn [mbind option_bind].
  rewrite (contents_writes _ _
             (writes_buildCompareClause Less false quotaCols first Hq (Hl _ _ H0))).
  cbn [mbind option_bind].
  assert (mapM (fun i => low ← handleVals !! (i - 1); up ← handleVals !! i;
                  contents (buildBetweenClause quotaCols low up))
            (seq 1 (length handleVals - 1))
          = Some (render <$> ((fun lu => betweenAst quotaCols lu.1 lu.2)
                                <$> zip handleVals (tail handleVals)))) as ->.
  { apply mapM_Some_2, Forall2_same_length_lookup_2.
    - rewrite length_seq, !length_fmap, length_zip, Hv. cbn [tail length]. lia.
    - intros j i w Hi Hw. apply lookup_seq in Hi as [-> Hj].
      rewrite !list_lookup_fmap in Hw.
      destruct (zip handleVals (tail handleVals) !! j) as [[lo up]|] eqn:Hz;
        [|done].
      apply lookup_zip_with_Some in Hz as (?&?&[= <- <-]&Hlo&Hup).
      rewrite lookup_tail in Hup. cbn [fmap option_fmap option_map] in Hw.
      injection Hw as <-.
      replace (1 + j - 1) with j by lia. rewrite Hlo. cbn [mbind option_bind].
      change (1 + j) with (S j). rewrite Hup. cbn [mbind option_bind fst snd].
      apply contents_writes, writes_buildBetweenClause; eauto. }
  cbn [mbind option_bind].
  assert (handleVals !! (length handleVals - 1) = last handleVals) as Hlast.
  { rewrite last_lookup. f_equal. lia. }
  rewrite Hlast.
  destruct (last handleVals) as [t|] eqn:Ht.
  2:{ apply last_None in Ht. congruence. }
  cbn [mbind option_bind].
  assert (length t = length quotaCols) as Hlt.
  { rewrite <-Hlast in Ht. eauto. }
  rewrite (contents_writes _ _
             (writes_buildCompareClause Greater true quotaCols t Hq Hlt)).
  cbn [mbind option_bind]. unfold whereAsts. rewrite Ht. cbn [default].
  rewrite Hv. by rewrite !fmap_app.
Qed.

End WhereFacts.

Section PartitionFacts.
Context {V : Type} `{EqDecision V}.
Variable vlt : V -> V -> bool.
Variable lit : string -> V.
Hypothesis vlt_order : strictTotal vlt.

Abbreviation eval := (eval vlt lit).
Abbreviation lexLt := (lexLt vlt).
Abbreviation lexLe := (lexLe vlt).
Abbreviation chunkOf := (chunkOf vlt lit).

Abbreviation wellFormed := (wellFormed vlt lit).

Lemma wellFormed_length quotaCols handleVals i t :
  wellFormed quotaCols handleVals ->
  handleVals !! i = Some t -> length t = length quotaCols.
Proof. intros (_&Hlen&_) Hi. by eapply (Forall_lookup_1 _ _ _ _ Hlen). Qed.

(** The first clause selects the keys below the first boundary. *)
Lemma eval_first quotaCols handleVals row t p :
  wellFormed quotaCols handleVals ->
  handleVals !! 0 = Some t ->
  whereAsts quotaCols handleVals !! 0 = Some p ->
  eval row p = lexLt (keyOf row quotaCols) (tupleOf lit t).
Proof.
  intros Hwf Ht Hp. pose proof (wellFormed_length _ _ _ _ Hwf Ht) as Hlen.
  destruct Hwf as (Hne&_). destruct handleVals as [|first rest]; [done|].
  rewrite whereAsts_first in Hp. simplify_eq/=.
  by rewrite eval_compareAst.
Qed.

(** A middle clause selects the keys from its lower boundary up to, but
    not including, its upper boundary. *)
Lemma eval_between quotaCols handleVals row i lo up p :
  wellFormed quotaCols handleVals ->
  handleVals !! i = Some lo -> handleVals !! S i = Some up ->
  whereAsts quotaCols handleVals !! S i = Some p ->
  eval row p = lexLe (tupleOf lit lo) (keyOf row quotaCols)
               && lexLt (keyOf row quotaCols) (tupleOf lit up).
Proof.
  intros Hwf Hlo Hup Hp.
  pose proof (wellFormed_length _ _ _ _ Hwf Hlo) as Hllo.
  pose proof (wellFormed_length _ _ _ _ Hwf Hup) as Hlup.
  destruct Hwf as (Hne&_&Hsorted&Hcanon).
  rewrite (whereAsts_between _ _ _ _ _ Hlo Hup) in Hp. simplify_eq/=.
  apply eval_betweenAst; try done.
  - by apply (Hsorted i).
  - intros s1 s2 H1 H2. apply (Hcanon lo up); eauto using list_elem_of_lookup_2.
Qed.

(** The last clause selects the keys at or above the last boundary. *)
Lemma eval_last quotaCols handleVals row t p :
  wellFormed quotaCols handleVals ->
  last handleVals = Some t ->
  whereAsts quotaCols handleVals !! length handleVals = Some p ->
  eval row p = lexLe (tupleOf lit t) (keyOf row quotaCols).
Proof.
  intros Hwf Ht Hp. rewrite last_lookup in Ht.
  pose proof (wellFormed_length _ _ _ _ Hwf Ht) as Hlen.
  destruct Hwf as (Hne&_). rewrite <-last_lookup in Ht.
  rewrite (whereAsts_last _ _ _ Ht) in Hp. simplify_eq/=.
  by rewrite eval_compareAst.
Qed.

(** Clause [j] selects a row exactly when [j] boundaries are at or below
    the key of the row. *)
Lemma eval_whereAsts quotaCols handleVals row j p :
  wellFormed quotaCols handleVals ->
  whereAsts quotaCols handleVals !! j = Some p ->
  eval row p = bool_decide (j = chunkOf handleVals (keyOf row quotaCols)).
Proof.
  intros Hwf Hp. set (k := keyOf row quotaCols).
  assert (handleVals ≠ []) as Hvals by (intros ->; done).
  assert (forall i t, handleVals !! i = Some t ->
            lexLe (tupleOf lit t) k = bool_decide (i < chunkOf handleVals k))
    as Hchunk.
  { destruct Hwf as (_&Hlen&Hsorted&_).
    apply chunkOf_spec; [done| |done].
    eapply Forall_impl; [exact Hlen|]. intros t Ht. simpl.
    unfold k, keyOf. by rewrite length_fmap. }
  pose proof (chunkOf_le vlt lit handleVals k) as Hle.
  pose proof (lookup_lt_Some _ _ _ Hp) as Hj.
  rewrite whereAsts_length in Hj by done.
  assert (forall t, length t = length quotaCols ->
            lexLt k (tupleOf lit t) = negb (lexLe (tupleOf lit t) k)) as Hneg.
  { intros t Ht. apply lexLt_not_lexLe; [done|].
    unfold k, keyOf, tupleOf. rewrite !length_fmap. done. }
  destruct j as [|i].
  - destruct (handleVals !! 0) as [t|] eqn:Ht.
    2:{ apply lookup_ge_None in Ht. destruct handleVals; simpl in *; [done|lia]. }
    rewrite (eval_first _ _ _ _ _ Hwf Ht Hp).
    fold k. rewrite Hneg by (by eapply wellFormed_length).
    rewrite (Hchunk _ _ Ht).
    destruct (decide (0 < chunkOf handleVals k)).
    + rewrite bool_decide_eq_true_2 by done. simpl.
      symmetry. apply bool_decide_eq_false_2. lia.
    + rewrite bool_decide_eq_false_2 by done. simpl.
      symmetry. apply bool_decide_eq_true_2. lia.
  - destruct (handleVals !! i) as [lo|] eqn:Hlo.
    2:{ apply lookup_ge_None in Hlo. lia. }
    destruct (handleVals !! S i) as [up|] eqn:Hup.
    + rewrite (eval_between _ _ _ _ _ _ _ Hwf Hlo Hup Hp). fold k.
      rewrite Hneg by (by eapply wellFormed_length).
      rewrite (Hchunk _ _ Hlo), (Hchunk _ _ Hup).
      destruct (decide (S i = chunkOf handleVals k)) as [Heq|Hneq].
      * rewrite (bool_decide_eq_true_2 (i < _)) by lia.
        rewrite (bool_decide_eq_false_2 (S i < _)) by lia.
        by rewrite bool_decide_eq_true_2.
      * rewrite (bool_decide_eq_false_2 (S i = _)) by done.
        destruct (decide (i < chunkOf handleVals k)).
        -- rewrite (bool_decide_eq_true_2 (i < _)) by done.
           by rewrite (bool_decide_eq_true_2 (S i < _)) by lia.
        -- by rewrite (bool_decide_eq_false_2 (i < _)) by done.
    + apply lookup_ge_None in Hup. assert (S i = length handleVals) as Hi by lia.
      assert (last handleVals = Some lo) as Hlast.
      { rewrite last_lookup. rewrite <-Hlo. f_equal. lia. }
      rewrite Hi in Hp. rewrite (eval_last _ _ _ _ _ Hwf Hlast Hp). fold k.
      rewrite (Hchunk _ _ Hlo).
      apply bool_decide_ext. lia.
Qed.

(** Exactly one clause selects a given row. *)
Lemma whereAsts_exactly_one quotaCols handleVals row :
  wellFormed quotaCols handleVals -> handleVals ≠ [] ->
  exists j p,
    whereAsts quotaCols handleVals !! j = Some p ∧ eval row p = true
    ∧ forall j' p', whereAsts quotaCols handleVals !! j' = Some p' ->
        eval row p' = true -> j' = j.
Proof.
  intros Hwf Hvals.
  set (j := chunkOf handleVals (keyOf row quotaCols)).
  destruct (whereAsts quotaCols handleVals !! j) as [p|] eqn:Hp.
  2:{ apply lookup_ge_None in Hp. rewrite whereAsts_length in Hp by done.
      pose proof (chunkOf_le vlt lit handleVals (keyOf row quotaCols)).
      unfold j in Hp. lia. }
  exists j, p. split_and!; [done| |].
  - rewrite (eval_whereAsts _ _ _ _ _ Hwf Hp). by apply bool_decide_eq_true_2.
  - intros j' p' Hp' He. rewrite (eval_whereAsts _ _ _ _ _ Hwf Hp') in He.
    by apply bool_decide_eq_true in He.
Qed.
End PartitionFacts.

(** ** The renderings read back as the trees *)

Module PrecedenceFacts.

Lemma andAll_plain a ps :
  plain a -> Forall plain ps -> plain (andAll a ps).
Proof.
  unfold andAll. revert a. induction ps as [|p ps IH]; intros a Ha Hps; [done|].
  apply Forall_cons in Hps as [[Hp1 Hp2] Hps]. simpl. apply IH; [|done].
  destruct Ha as [Ha1 Ha2]. split; [done|]. simpl. by rewrite Ha1, Hp1, Ha2, Hp2.
Qed.

Lemma orAll_precOk a alts :
  precOk a = true -> Forall (fun p => precOk p = true) alts ->
  precOk (orAll a alts) = true.
Proof.
  unfold orAll. revert a. induction alts as [|p ps IH]; intros a Ha Hps; [done|].
  apply Forall_cons in Hps as [Hp Hps]. simpl. apply IH; [|done].
  simpl. by rewrite Ha, Hp.
Qed.

Lemma eqAtoms_plain (pre : list (string * string)) : Forall plain (eqAtom <$> pre).
Proof. apply Forall_fmap, Forall_true. done. Qed.

Lemma altAst_plain pre c op b : plain (altAst pre c op b).
Proof.
  unfold altAst. pose proof (eqAtoms_plain pre) as Hpre.
  destruct (eqAtom <$> pre) as [|e es]; [done|].
  apply Forall_cons in Hpre as [He Hes]. apply andAll_plain; [done|].
  apply Forall_app. split; [done|]. by apply Forall_singleton.
Qed.

Lemma compareAlts_precOk d we pre rest :
  Forall (fun p => precOk p = true) (compareAlts d we pre rest).
Proof.
  revert pre. induction rest as [|[c b] rest IH]; intros pre; simpl.
  - constructor.
  - constructor; [|apply IH].
    destruct (altAst_plain pre c (dirOp d (we && bool_decide (rest = []))) b)
      as [_ Hok].
    by destruct pre.
Qed.

Lemma compareAst_precOk d we quotaCols bound :
  precOk (compareAst d we quotaCols bound) = true.
Proof.
  unfold compareAst.
  pose proof (compareAlts_precOk d we [] (zip quotaCols bound)) as Hall.
  destruct (compareAlts d we [] (zip quotaCols bound)) as [|a alts]; [done|].
  apply Forall_cons in Hall as [Ha Halts]. by apply orAll_precOk.
Qed.

Lemma betweenSuffixAst_precOk quotaCols low up :
  precOk (betweenSuffixAst quotaCols low up) = true.
Proof.
  destruct quotaCols as [|c [|c1 cols1]], low as [|l low1], up as [|u up1];
    try done.
  cbn [betweenSuffixAst precOk isOr singleBetweenAst negb andb].
  by rewrite !compareAst_precOk.
Qed.

Lemma betweenAst_precOk quotaCols low up :
  precOk (betweenAst quotaCols low up) = true.
Proof.
  unfold betweenAst. destruct (getCommonLength low up) as [n|]; [|done].
  destruct (decide (0 < n)); [|apply betweenSuffixAst_precOk].
  destruct (decide (n = length low)); [done|].
  pose proof (eqAtoms_plain (zip (take n quotaCols) (take n low))) as Hpre.
  destruct (eqAtom <$> zip (take n quotaCols) (take n low)) as [|e es]; [done|].
  apply Forall_cons in Hpre as [He Hes].
  destruct (andAll_plain e es He Hes) as [Hor Hok].
  cbn [precOk isOr]. by rewrite Hor, Hok, betweenSuffixAst_precOk.
Qed.

(** No clause of a table has a disjunction directly under a conjunction. *)
Lemma whereAsts_precOk quotaCols handleVals :
  Forall (fun p => precOk p = true) (whereAsts quotaCols handleVals).
Proof.
  unfold whereAsts. destruct handleVals as [|first rest]; [constructor|].
  apply Forall_app. split; [apply Forall_singleton, compareAst_precOk|].
  apply Forall_app. split; [|apply Forall_singleton, compareAst_precOk].
  apply Forall_fmap, Forall_true. intros [lo up]. apply betweenAst_precOk.
Qed.

End PrecedenceFacts.

(** ** Every key tuple is the key of a row *)

Lemma keyOf_onto {V : Type} (quotaCols : list string) (k : list V) :
  NoDup quotaCols -> quotaCols ≠ [] -> length k = length quotaCols ->
  exists row : string -> V, keyOf row quotaCols = k.
Proof.
  intros Hnodup Hne Hlen.
  assert (exists d : V, True) as [d _].
  { destruct k as [|d k]; [by destruct quotaCols|by exists d]. }
  set (m := (list_to_map (zip quotaCols k) : gmap string V)).
  exists (fun c => default d (m !! c)).
  unfold keyOf. apply list_eq. intros i. rewrite list_lookup_fmap.
  destruct (quotaCols !! i) as [c|] eqn:Hc; simpl.
  - destruct (k !! i) as [v|] eqn:Hv.
    2:{ apply lookup_ge_None in Hv. apply lookup_lt_Some in Hc. lia. }
    f_equal. unfold m.
    rewrite (elem_of_list_to_map_1 (zip quotaCols k) c v); [done| |].
    + by rewrite fst_zip by lia.
    + apply elem_of_lookup_zip_with. by exists i, c, v.
  - symmetry. apply lookup_ge_None. apply lookup_ge_None in Hc. lia.
Qed.

(** ** The WHERE clauses of a table *)

Lemma Zltb_strictTotal : strictTotal Z.ltb.
Proof.
  split.
  - intros a. apply Z.ltb_irrefl.
  - intros a b c Hab Hbc. apply Z.ltb_lt in Hab, Hbc. apply Z.ltb_lt. lia.
  - intros a b. rewrite !Z.ltb_lt. lia.
Qed.

Section WhereClauses.
Context {V : Type} `{EqDecision V}.
Variable vlt : V -> V -> bool.
Variable lit : string -> V.

(** C1 (amended). For at least one column and at least one boundary
    tuple, the tuples having one literal per column, being sorted and
    spelling equal values alike, [buildWhereClauses] returns M+1 clauses;
    every row is selected by exactly one of them, the one whose index is
    the number of boundaries at or below the key of the row; and the
    clauses stand, in this order, for the keys below the first boundary,
    the keys from each boundary up to the next, and the keys from the
    last boundary on. *)
Theorem where_clauses_partition (handleColNames : list string)
    (handleVals : list (list string)) :
  strictTotal vlt ->
  handleColNames ≠ [] -> handleVals ≠ [] ->
  Forall (fun t => length t = length handleColNames) handleVals ->
  sortedBounds vlt lit handleVals ->
  canonicalLits lit handleVals ->
  let quotaCols := quoteCol <$> handleColNames in
  let preds := whereAsts quotaCols handleVals in
  buildWhereClauses handleColNames handleVals = Some (render <$> preds)
  ∧ length preds = S (length handleVals)
  ∧ Forall (fun p => precOk p = true) preds
  ∧ forall row : string -> V,
      let k := keyOf row quotaCols in
      (exists j p,
         preds !! j = Some p ∧ eval vlt lit row p = true
         ∧ j = chunkOf vlt lit handleVals k
         ∧ forall j' p', preds !! j' = Some p' ->
             eval vlt lit row p' = true -> j' = j)
      ∧ (forall t p, handleVals !! 0 = Some t -> preds !! 0 = Some p ->
           eval vlt lit row p = lexLt vlt k (tupleOf lit t))
      ∧ (forall i lo up p,
           handleVals !! i = Some lo -> handleVals !! S i = Some up ->
           preds !! S i = Some p ->
           eval vlt lit row p
           = lexLe vlt (tupleOf lit lo) k && lexLt vlt k (tupleOf lit up))
      ∧ (forall t p, last handleVals = Some t ->
           preds !! length handleVals = Some p ->
           eval vlt lit row p = lexLe vlt (tupleOf lit t) k).
Proof.
  intros Horder Hcols Hvals Hlen Hsorted Hcanon quotaCols preds.
  assert (wellFormed vlt lit quotaCols handleVals) as Hwf.
  { split_and!; try done.
    - unfold quotaCols. by destruct handleColNames.
    - unfold quotaCols. by rewrite length_fmap. }
  split_and!.
  - by apply WhereFacts.buildWhereClauses_render.
  - by apply whereAsts_length.
  - apply PrecedenceFacts.whereAsts_precOk.
  - intros row k. split_and!.
    + destruct (whereAsts_exactly_one vlt lit Horder quotaCols handleVals row
                  Hwf Hvals) as (j&p&Hp&He&Huniq).
      exists j, p. split_and!; try done.
      rewrite (eval_whereAsts vlt lit Horder _ _ _ _ _ Hwf Hp) in He.
      by apply bool_decide_eq_true in He.
    + intros t p. by apply eval_first.
    + intros i lo up p. by apply eval_between.
    + intros t p. by apply eval_last.
Qed.

End WhereClauses.

(** The clauses of a table with the key (a, b) and three boundaries, on
    integer values. *)
Lemma where_clauses_partition_witness :
  buildWhereClauses ["a"; "b"] [["1"; "2"]; ["1"; "5"]; ["3"; "0"]]
  = Some ["`a`<1 or(`a`=1 and `b`<2)";
          "`a`=1 and(`b`>=2 and `b`<5)";
          "(`a`>1 and `a`<3)or(`a`=1 and(`b`>=5))or(`a`=3 and(`b`<0))";
          "`a`>3 or(`a`=3 and `b`>=0)"]
  ∧ forall row : string -> Z,
      exists j p,
        whereAsts ["`a`"; "`b`"] [["1"; "2"]; ["1"; "5"]; ["3"; "0"]] !! j = Some p
        ∧ eval Z.ltb decimalLit row p = true
        ∧ forall j' p',
            whereAsts ["`a`"; "`b`"] [["1"; "2"]; ["1"; "5"]; ["3"; "0"]] !! j'
            = Some p' ->
            eval Z.ltb decimalLit row p' = true -> j' = j.
Proof.
  assert (sortedBounds Z.ltb decimalLit [["1"; "2"]; ["1"; "5"]; ["3"; "0"]])
    as Hsorted by (by apply sortedBoundsb_sound).
  assert (canonicalLits decimalLit [["1"; "2"]; ["1"; "5"]; ["3"; "0"]])
    as Hcanon by (by apply canonicalLitsb_sound).
  destruct (where_clauses_partition Z.ltb decimalLit ["a"; "b"]
              [["1"; "2"]; ["1"; "5"]; ["3"; "0"]] Zltb_strictTotal
              ltac:(discriminate) ltac:(discriminate)
              ltac:(repeat constructor) Hsorted Hcanon) as (Hwhere&_&_&Hrows).
  split.
  - rewrite Hwhere. reflexivity.
  - intros row. destruct (Hrows row) as ((j&p&Hp&He&_&Huniq)&_).
    exists j, p. split_and!; [exact Hp|exact He|exact Huniq].
Defined.


(** Why the boundaries have to be canonical: [1] and [01] are one value
    in two spellings, [buildBetweenClause] compares the spellings, and the
    row (1, 8) is then selected by the middle clause and by the last. *)
Lemma noncanonical_literals_overlap :
  sortedBounds Z.ltb decimalLit [["1"; "5"]; ["01"; "7"]]
  ∧ exists p1 p2,
      whereAsts ["`a`"; "`b`"] [["1"; "5"]; ["01"; "7"]] !! 1 = Some p1
      ∧ whereAsts ["`a`"; "`b`"] [["1"; "5"]; ["01"; "7"]] !! 2 = Some p2
      ∧ eval Z.ltb decimalLit (rowAB 1 8) p1 = true
      ∧ eval Z.ltb decimalLit (rowAB 1 8) p2 = true.
Proof.
  split; [by apply sortedBoundsb_sound|].
  eexists _, _. split_and!; reflexivity.
Qed.

(** C1 as stated fails without boundaries: for M = 0 the function returns
    no clause at all, not the one clause M+1 asks for. *)
Lemma where_clauses_no_boundaries :
  ¬ exists where_,
      buildWhereClauses ["a"] [] = Some where_ ∧ length where_ = 0 + 1.
Proof. intros (where_&[= <-]&Hlen). discriminate Hlen. Qed.

(** C3 as stated fails: the clauses name the column with its backticks. *)
Lemma single_column_unquoted :
  buildWhereClauses ["col"] [["1"]] ≠ Some ["col<1"; "col>=1"].
Proof. by vm_compute. Qed.

(** C3 (amended). For the single column [col] and the boundary list [1],
    [buildWhereClauses] returns the two clauses [`col`<1] and [`col`>=1],
    the column name between backticks, in that order. *)
Theorem single_column_clauses :
  buildWhereClauses ["col"] [["1"]] = Some ["`col`<1"; "`col`>=1"].
Proof. reflexivity. Qed.

(** C9. Without columns, or without boundary tuples, [buildWhereClauses]
    returns nil: no clause at all, not one unbounded clause. *)
Theorem buildWhereClauses_empty :
  (forall handleVals, buildWhereClauses [] handleVals = Some [])
  ∧ (forall handleColNames, buildWhereClauses handleColNames [] = Some []).
Proof.
  split.
  - intros handleVals. unfold buildWhereClauses. by rewrite decide_True by eauto.
  - intros handleColNames. unfold buildWhereClauses.
    by rewrite decide_True by eauto.
Qed.

(** ** Row-length sizing *)

(** C5. [GetSuitableRows] returns 200000 for an average row length of 0
    and otherwise the smaller of 134217728 / avgRowLength (integer
    division) and 1000000; so 32 gives 1000000, 1024 gives 131072 and 4096
    gives 32768. *)
Theorem GetSuitableRows_spec (avgRowLength : Z) :
  (Estimator.GetSuitableRows avgRowLength
   = (if avgRowLength =? 0 then 200000
      else Z.min (134217728 / avgRowLength) 1000000)
   ∧ Estimator.GetSuitableRows 0 = 200000
   ∧ Estimator.GetSuitableRows 32 = 1000000
   ∧ Estimator.GetSuitableRows 1024 = 131072
   ∧ Estimator.GetSuitableRows 4096 = 32768)%Z.
Proof.
  split; [|by vm_compute].
  unfold Estimator.GetSuitableRows, Estimator.defaultRows, Estimator.maxRows,
    Estimator.bytesPerFile.
  destruct (avgRowLength =? 0)%Z; [done|].
  change (128 * 1024 * 1024)%Z with 134217728%Z.
  destruct (Z.gtb_spec (134217728 / avgRowLength) 1000000); lia.
Qed.

(** ** The probe for the implicit row id *)

Lemma contains_code_1054 state message :
  GoStrings.Contains
    (GoStrings.ToLower (Sql.errorText (Metadata.serverError 1054%Z state message)))
    (pretty Metadata.errBadFieldCode) = true.
Proof. reflexivity. Qed.



(** ** The planner estimate *)

Section PlannerEstimateFacts.
Import Sql Estimator.
Variable ParseFloat : string -> option float.
Variable outOfRange : float -> Z.

Lemma findFieldFrom_none k columns fieldNames :
  (forall column, column ∈ columns -> matchesField fieldNames column = false) ->
  findFieldFrom k columns fieldNames = None.
Proof.
  revert k. induction columns as [|c columns IH]; intros k Hall; [done|].
  simpl. rewrite Hall by set_solver.
  apply IH. intros column Hin. apply Hall. set_solver.
Qed.

Lemma findFieldFrom_first k columns fieldNames i column :
  columns !! i = Some column ->
  matchesField fieldNames column = true ->
  (forall i' column', (i' < i)%nat -> columns !! i' = Some column' ->
     matchesField fieldNames column' = false) ->
  findFieldFrom k columns fieldNames = Some (k + i)%nat.
Proof.
  revert k i. induction columns as [|c columns IH]; intros k i Hi Hm Hbefore;
    [done|].
  simpl. destruct i as [|i].
  - injection Hi as ->. rewrite Hm. f_equal. lia.
  - rewrite (Hbefore 0%nat c) by (done || lia).
    rewrite (IH (S k) i); [f_equal; lia|done|done|].
    intros i' column' Hlt Hi'. apply (Hbefore (S i')); [lia|done].
Qed.

End PlannerEstimateFacts.


(** ** The [LOCK TABLES] statement *)

Section LockTablesFacts.
Import Consistency.
Variable rangeOrder :
  gmap string (list TableInfo) -> list (string * list TableInfo).
Hypothesis rangeOrder_perm : forall m, rangeOrder m ≡ₚ map_to_list m.

Lemma lockStatement_snoc sel dn :
  lockStatement (sel ++ [dn])
  = if bool_decide (sel ≠ []) then lockStatement sel +:+ "," +:+ lockItem dn
    else "LOCK TABLES " +:+ lockItem dn.
Proof.
  destruct sel as [|dn0 sel].
  - rewrite bool_decide_eq_false_2 by naive_solver. simpl. by text_norm.
  - rewrite bool_decide_eq_true_2 by done. simpl.
    rewrite fmap_app, catAll_app. simpl. by text_norm.
Qed.

Lemma lockStep_state blockList dbName sel table :
  lockStep blockList dbName (lockState sel) table
  = lockState (sel ++ lockedOf blockList dbName [table]).
Proof.
  unfold lockStep, lockedOf. simpl.
  destruct (decide (Type_ table ≠ TableTypeBase)) as [Hview|Hbase].
  { rewrite decide_False by done. simpl. by rewrite app_nil_r. }
  apply dec_stable in Hbase. rewrite decide_True by done.
  destruct (blocked blockList dbName (Name table)); simpl.
  { by rewrite app_nil_r. }
  unfold lockState. rewrite lockStatement_snoc.
  rewrite (bool_decide_eq_true_2 (sel ++ _ ≠ [])) by (by destruct sel).
  destruct sel as [|dn0 sel].
  - rewrite bool_decide_eq_false_2 by naive_solver. simpl.
    unfold lockItem. simpl. by text_norm.
  - rewrite bool_decide_eq_true_2 by done. cbn [negb snd fst].
    f_equal; unfold lockItem; simpl; by text_norm.
Qed.

Lemma lockedOf_cons blockList dbName table tables :
  lockedOf blockList dbName (table :: tables)
  = lockedOf blockList dbName [table] ++ lockedOf blockList dbName tables.
Proof. unfold lockedOf. simpl. by rewrite app_nil_r. Qed.

Lemma lockStep_fold blockList dbName sel tables :
  foldl (lockStep blockList dbName) (lockState sel) tables
  = lockState (sel ++ lockedOf blockList dbName tables).
Proof.
  revert sel. induction tables as [|table tables IH]; intros sel.
  - change (lockedOf blockList dbName []) with (@nil (string * string)).
    by rewrite app_nil_r.
  - cbn [foldl]. rewrite lockStep_state, IH.
    rewrite (lockedOf_cons _ _ table tables). by rewrite app_assoc.
Qed.

Lemma lock_fold blockList sel (dts : list (string * list TableInfo)) :
  foldl (fun st dt => foldl (lockStep blockList dt.1) st dt.2) (lockState sel) dts
  = lockState (sel ++ (dt ← dts; lockedOf blockList dt.1 dt.2)).
Proof.
  revert sel. induction dts as [|dt dts IH]; intros sel.
  - simpl. by rewrite app_nil_r.
  - cbn [foldl]. rewrite lockStep_fold, IH, bind_cons. by rewrite app_assoc.
Qed.

Lemma elem_of_lockedOf blockList dbName tables db name :
  (db, name) ∈ lockedOf blockList dbName tables
  <-> db = dbName
      ∧ exists table, table ∈ tables ∧ Name table = name
          ∧ Type_ table = TableTypeBase
          ∧ blocked blockList dbName name = false.
Proof.
  unfold lockedOf. rewrite list_elem_of_bind. split.
  - intros (table&Hin&Htable). simpl in Hin.
    destruct (decide (Type_ table = TableTypeBase)); [|set_solver].
    destruct (blocked blockList dbName (Name table)) eqn:Hb; [set_solver|].
    apply list_elem_of_singleton in Hin. injection Hin as -> ->.
    split; [done|]. by exists table.
  - intros (->&table&Htable&<-&Hbase&Hb). exists table. split; [|done].
    rewrite decide_True by done. rewrite Hb. set_solver.
Qed.

Lemma blocked_false blockList db name :
  blocked blockList db name = false
  <-> ¬ exists blockTable, blockList !! db = Some blockTable ∧ name ∈ blockTable.
Proof.
  unfold blocked. destruct (blockList !! db) as [blockTable|].
  - rewrite bool_decide_eq_false. split.
    + intros Hn (bt&[= <-]&Hin). done.
    + intros Hn Hin. apply Hn. eauto.
  - split; [|done]. intros _ (bt&?&_). done.
Qed.

(** C8. [buildLockTablesSQL] writes the [LOCK TABLES ... READ] statement
    for exactly the base tables of the table map that are not on the
    block list; a view is never named, and neither is a (database,
    table) pair of the block list. *)
Theorem buildLockTablesSQL_spec (allTables : gmap string (list TableInfo))
    (blockList : gmap string (gset string)) :
  buildLockTablesSQL rangeOrder allTables blockList
  = lockStatement (lockedTables rangeOrder allTables blockList)
  ∧ forall db name,
      (db, name) ∈ lockedTables rangeOrder allTables blockList
      <-> exists tables table,
            allTables !! db = Some tables ∧ table ∈ tables
            ∧ Name table = name ∧ Type_ table = TableTypeBase
            ∧ ¬ exists blockTable,
                  blockList !! db = Some blockTable ∧ name ∈ blockTable.
Proof.
  split.
  - unfold buildLockTablesSQL, lockedTables.
    change (EmptyString, false) with (lockState []).
    by rewrite lock_fold.
  - intros db name. unfold lockedTables. rewrite list_elem_of_bind. split.
    + intros ([dbName tables]&Hin&Hdt). simpl in Hin.
      apply elem_of_lockedOf in Hin as (->&table&Htable&Hname&Hbase&Hb).
      rewrite rangeOrder_perm in Hdt. apply elem_of_map_to_list in Hdt.
      exists tables, table. split_and!; try done. by apply blocked_false.
    + intros (tables&table&Hdb&Htable&Hname&Hbase&Hb).
      exists (db, tables). split.
      * apply elem_of_lockedOf. split; [done|]. exists table.
        split_and!; try done. by apply blocked_false.
      * rewrite rangeOrder_perm. by apply elem_of_map_to_list.
Qed.
End LockTablesFacts.

(** Of a base table and a view, the statement names the base table. *)
Lemma buildLockTablesSQL_spec_witness :
  Consistency.buildLockTablesSQL map_to_list Consistency.exampleTables ∅
  = "LOCK TABLES `db`.`t1` READ".
Proof.
  destruct (buildLockTablesSQL_spec map_to_list (fun m => reflexivity _)
              Consistency.exampleTables ∅) as [-> _].
  by vm_compute.
Defined.

(** ** Reading a result set *)

Section ResultSetFacts.
Import Sql Metadata.
Variable rangeOrder : nat -> gmap nat nat -> list (nat * nat).
Hypothesis rangeOrder_perm : forall n m, rangeOrder n m ≡ₚ map_to_list m.

Lemma elem_of_rangeOrder n (m : gmap nat nat) colPos namePos :
  (colPos, namePos) ∈ rangeOrder n m <-> m !! colPos = Some namePos.
Proof. rewrite rangeOrder_perm. apply elem_of_map_to_list. Qed.

(** *** The map from column positions to name positions *)

Abbreviation nameStep col i :=
  (fun (mp : gmap nat nat) (jn : nat * string) =>
     if decide (GoStrings.ToUpper col = jn.2) then <[i := jn.1]> mp else mp).

Lemma nameStep_other col i jns (mp : gmap nat nat) c :
  c ≠ i -> foldl (nameStep col i) mp jns !! c = mp !! c.
Proof.
  revert mp. induction jns as [|jn jns IH]; intros mp Hc; [done|]. simpl.
  rewrite IH by done. destruct (decide _); [|done].
  by rewrite lookup_insert_ne.
Qed.

Lemma nameStep_is_Some col i jns (mp : gmap nat nat) c :
  is_Some (mp !! c) -> is_Some (foldl (nameStep col i) mp jns !! c).
Proof.
  revert mp. induction jns as [|jn jns IH]; intros mp Hc; [done|]. simpl.
  apply IH. destruct (decide _); [|done].
  destruct (decide (i = c)) as [->|].
  - rewrite lookup_insert_eq. eauto.
  - by rewrite lookup_insert_ne.
Qed.

Lemma nameStep_hit col i jns (mp : gmap nat nat) n :
  foldl (nameStep col i) mp jns !! i = Some n ->
  mp !! i = Some n ∨ (n, GoStrings.ToUpper col) ∈ jns.
Proof.
  revert mp. induction jns as [|jn jns IH]; intros mp Hn; [by left|].
  simpl in Hn. apply IH in Hn as [Hn|Hn]; [|right; set_solver].
  destruct (decide _) as [Heq|]; [|by left].
  rewrite lookup_insert_eq in Hn. injection Hn as <-.
  right. rewrite Heq. destruct jn. set_solver.
Qed.

Lemma nameStep_found col i jns (mp : gmap nat nat) n :
  (n, GoStrings.ToUpper col) ∈ jns ->
  is_Some (foldl (nameStep col i) mp jns !! i).
Proof.
  revert mp. induction jns as [|jn jns IH]; intros mp Hn; [set_solver|].
  simpl. apply elem_of_cons in Hn as [<-|Hn]; [|by apply IH].
  apply nameStep_is_Some. simpl. rewrite decide_True by done.
  rewrite lookup_insert_eq. eauto.
Qed.

Abbreviation columnStep columnName :=
  (fun (mp : gmap nat nat) (ic : nat * string) =>
     foldl (nameStep ic.2 ic.1) mp (imap pair columnName)).

Lemma columnStep_hit columnName ics (mp : gmap nat nat) c n :
  foldl (columnStep columnName) mp ics !! c = Some n ->
  mp !! c = Some n
  ∨ exists col, (c, col) ∈ ics ∧ columnName !! n = Some (GoStrings.ToUpper col).
Proof.
  revert mp. induction ics as [|[i col] ics IH]; intros mp Hn; [by left|].
  simpl in Hn. apply IH in Hn as [Hn|(col'&Hin&Hname)].
  2:{ right. exists col'. split; [set_solver|done]. }
  destruct (decide (c = i)) as [->|Hne].
  - apply nameStep_hit in Hn as [Hn|Hn]; [by left|].
    right. exists col. split; [set_solver|].
    apply elem_of_lookup_imap in Hn as (j&name&[= -> ->]&Hj). done.
  - rewrite nameStep_other in Hn by done. by left.
Qed.

Lemma columnStep_is_Some columnName ics (mp : gmap nat nat) c :
  is_Some (mp !! c) -> is_Some (foldl (columnStep columnName) mp ics !! c).
Proof.
  revert mp. induction ics as [|[i col] ics IH]; intros mp Hc; [done|].
  simpl. apply IH. by apply nameStep_is_Some.
Qed.

Lemma columnStep_found columnName ics (mp : gmap nat nat) c col :
  (c, col) ∈ ics -> GoStrings.ToUpper col ∈ columnName ->
  is_Some (foldl (columnStep columnName) mp ics !! c).
Proof.
  revert mp. induction ics as [|ic ics IH]; intros mp Hin Hname; [set_solver|].
  simpl. apply elem_of_cons in Hin as [<-|Hin]; [|by apply IH].
  apply columnStep_is_Some. simpl.
  apply list_elem_of_lookup in Hname as [n Hn].
  apply (nameStep_found _ _ _ _ n).
  apply elem_of_lookup_imap. eauto.
Qed.

(** A column position is in the map when the upper-cased name of the
    column is one of the requested names, and it is mapped to a position
    of that name. *)
Lemma fieldIndexOf_lookup columns columnName colPos namePos :
  fieldIndexOf columns columnName !! colPos = Some namePos ->
  exists col, columns !! colPos = Some col
    ∧ columnName !! namePos = Some (GoStrings.ToUpper col).
Proof.
  unfold fieldIndexOf. intros Hn.
  apply columnStep_hit in Hn as [Hn|(col&Hin&Hname)]; [done|].
  exists col. split; [|done].
  apply elem_of_lookup_imap in Hin as (j&name&[= -> ->]&Hj). done.
Qed.

Lemma fieldIndexOf_requested columns columnName colPos col :
  columns !! colPos = Some col -> GoStrings.ToUpper col ∈ columnName ->
  is_Some (fieldIndexOf columns columnName !! colPos).
Proof.
  intros Hcol Hname. unfold fieldIndexOf.
  apply (columnStep_found _ _ _ _ col); [|done].
  apply elem_of_lookup_imap. eauto.
Qed.

(** *** The texts of one row *)

Abbreviation textStep oneRow :=
  (fun (st : bool * list string) (cn : nat * nat) =>
     match (oneRow : list NullString) !! cn.1 with
     | Some (Some text) => (true, <[cn.2 := text]> st.2)
     | _ => st
     end).

Lemma textStep_length oneRow order st :
  length (foldl (textStep oneRow) st order).2 = length st.2.
Proof.
  revert st. induction order as [|cn order IH]; intros st; [done|]. simpl.
  rewrite IH. destruct (oneRow !! cn.1) as [[text|]|]; [|done..].
  simpl. by rewrite length_insert.
Qed.

Lemma textStep_written oneRow order st :
  (foldl (textStep oneRow) st order).1
  = st.1 || existsb (fun cn => nullValid (default None (oneRow !! cn.1))) order.
Proof.
  revert st. induction order as [|cn order IH]; intros st; simpl.
  - by rewrite orb_false_r.
  - rewrite IH. unfold nullValid.
    destruct (oneRow !! cn.1) as [[text|]|]; simpl; by rewrite ?orb_true_r.
Qed.

(** A position that no valid column writes keeps its text. *)
Lemma textStep_untouched oneRow order st namePos :
  (forall colPos text, (colPos, namePos) ∈ order ->
     oneRow !! colPos ≠ Some (Some text)) ->
  (foldl (textStep oneRow) st order).2 !! namePos = st.2 !! namePos.
Proof.
  revert st. induction order as [|[c n] order IH]; intros st Hnone; [done|].
  simpl. rewrite IH.
  2:{ intros colPos text Hin. apply Hnone. set_solver. }
  destruct (oneRow !! c) as [[text|]|] eqn:Hc; [|done..]. simpl.
  destruct (decide (n = namePos)) as [->|Hne].
  - exfalso. eapply (Hnone c text); [set_solver|done].
  - by rewrite list_lookup_insert_ne.
Qed.

(** A position that only one column writes keeps the value of that
    column once it holds it. *)
Lemma textStep_stays oneRow order st colPos namePos text :
  oneRow !! colPos = Some (Some text) ->
  (forall colPos', (colPos', namePos) ∈ order -> colPos' = colPos) ->
  st.2 !! namePos = Some text ->
  (foldl (textStep oneRow) st order).2 !! namePos = Some text.
Proof.
  revert st. induction order as [|[c n] order IH]; intros st Hval Huniq Hst;
    [done|].
  simpl. apply IH; [done|intros c' Hin; apply Huniq; set_solver|].
  destruct (oneRow !! c) as [[text'|]|] eqn:Hc; [|done..]. simpl.
  destruct (decide (n = namePos)) as [->|Hne].
  - rewrite (Huniq c) in Hc by set_solver. simplify_eq.
    apply list_lookup_insert_eq. by eapply lookup_lt_Some.
  - by rewrite list_lookup_insert_ne.
Qed.

Lemma textStep_value oneRow order st colPos namePos text :
  (colPos, namePos) ∈ order ->
  oneRow !! colPos = Some (Some text) ->
  (forall colPos', (colPos', namePos) ∈ order -> colPos' = colPos) ->
  namePos < length st.2 ->
  (foldl (textStep oneRow) st order).2 !! namePos = Some text.
Proof.
  revert st. induction order as [|[c n] order IH]; intros st Hin Hval Huniq Hlt;
    [set_solver|].
  simpl. apply elem_of_cons in Hin as [[= <- <-]|Hin].
  - rewrite Hval. apply (textStep_stays _ _ _ colPos); [done| |].
    + intros c' Hin'. apply Huniq. set_solver.
    + simpl. by apply list_lookup_insert_eq.
  - apply IH; [done|done|intros c' Hin'; apply Huniq; set_solver|].
    destruct (oneRow !! c) as [[text'|]|]; [|done..].
    simpl. by rewrite length_insert.
Qed.

Lemma rowTexts_written n (m : gmap nat nat) oneRow names :
  (rowTexts (rangeOrder n m) oneRow names).1 = keptRow m oneRow.
Proof.
  unfold rowTexts, keptRow. rewrite textStep_written. simpl.
  apply eq_true_iff_eq. rewrite !existsb_exists.
  split; intros (cn&Hin&Hv); exists cn; (split; [|done]).
  - apply list_elem_of_In. apply list_elem_of_In in Hin.
    by rewrite <-(rangeOrder_perm n m).
  - apply list_elem_of_In. apply list_elem_of_In in Hin.
    by rewrite (rangeOrder_perm n m).
Qed.

Lemma rowTexts_rel n (m : gmap nat nat) oneRow names :
  rowRel m names oneRow (rowTexts (rangeOrder n m) oneRow names).2.
Proof.
  unfold rowRel, rowTexts. split_and!.
  - rewrite textStep_length. simpl. by rewrite length_replicate.
  - intros namePos Hlt Hnull. rewrite textStep_untouched.
    + simpl. by apply lookup_replicate_2.
    + intros colPos text Hin. apply Hnull. by apply elem_of_rangeOrder in Hin.
  - intros colPos namePos text Hlt Hm Hval Huniq.
    apply (textStep_value _ _ _ colPos); [by apply elem_of_rangeOrder|done| |].
    + intros c' Hin. apply Huniq. by apply elem_of_rangeOrder in Hin.
    + simpl. by rewrite length_replicate.
Qed.

Lemma keptRow_spec (m : gmap nat nat) oneRow :
  keptRow m oneRow = true
  <-> exists colPos namePos text,
        m !! colPos = Some namePos ∧ oneRow !! colPos = Some (Some text).
Proof.
  unfold keptRow. rewrite existsb_exists. split.
  - intros ([c n]&Hin&Hv). apply list_elem_of_In, elem_of_map_to_list in Hin.
    simpl in Hv. unfold nullValid in Hv. apply bool_decide_eq_true in Hv.
    destruct (oneRow !! c) as [[text|]|] eqn:Hc; simpl in Hv;
      try (by destruct Hv).
    by exists c, n, text.
  - intros (c&n&text&Hm&Hc). exists (c, n). split.
    + by apply list_elem_of_In, elem_of_map_to_list.
    + simpl. rewrite Hc. unfold nullValid. apply bool_decide_eq_true. simpl. eauto.
Qed.

(** *** The loop over the rows *)

Lemma readRows_scanned (m : gmap nat nat) width names n scanned strs :
  Forall (fun oneRow => length oneRow = width) scanned ->
  exists outs,
    readRows rangeOrder m width names n (inr <$> scanned) strs
    = (strs ++ outs, None)
    ∧ Forall2 (rowRel m names)
        (filter (fun oneRow => keptRow m oneRow = true) scanned) outs.
Proof.
  revert n strs. induction scanned as [|oneRow scanned IH]; intros n strs Hlen.
  { exists []. simpl. by rewrite app_nil_r. }
  apply Forall_cons in Hlen as [Hlen0 Hlen].
  rewrite fmap_cons. cbn [readRows Scan]. rewrite decide_True by done.
  pose proof (rowTexts_written n m oneRow names) as Hw.
  pose proof (rowTexts_rel n m oneRow names) as Hrel.
  destruct (rowTexts (rangeOrder n m) oneRow names) as [written tmpStr].
  simpl in Hw, Hrel. subst written. rewrite filter_cons.
  destruct (keptRow m oneRow) eqn:Hkept.
  - destruct (IH (S n) (strs ++ [tmpStr]) Hlen) as (outs&->&Houts).
    exists (tmpStr :: outs). rewrite <-app_assoc. split; [done|].
    rewrite decide_True by done. by constructor.
  - destruct (IH (S n) strs Hlen) as (outs&->&Houts).
    exists outs. split; [done|]. by rewrite decide_False by done.
Qed.

(** C10. [GetSpecifiedColumnValuesAndClose] leaves out every row whose
    requested columns are all NULL, renders a NULL requested column of a
    row it keeps as the empty string, and answers a nil rows handle with
    an empty result and no error. *)
Theorem GetSpecifiedColumnValuesAndClose_spec (columnName : list string) :
  GetSpecifiedColumnValuesAndClose rangeOrder None columnName = ([], None)
  ∧ forall rows columns scanned,
      rowsColumns rows = inr columns ->
      rowsPending rows = inr <$> scanned ->
      Forall (fun oneRow => length oneRow = length columns) scanned ->
      let fieldIndexMp := fieldIndexOf columns columnName in
      (forall colPos namePos, fieldIndexMp !! colPos = Some namePos ->
         exists col, columns !! colPos = Some col
           ∧ columnName !! namePos = Some (GoStrings.ToUpper col))
      ∧ (forall colPos col, columns !! colPos = Some col ->
           GoStrings.ToUpper col ∈ columnName -> is_Some (fieldIndexMp !! colPos))
      ∧ (forall oneRow,
           keptRow fieldIndexMp oneRow = true
           <-> exists colPos namePos text,
                 fieldIndexMp !! colPos = Some namePos
                 ∧ oneRow !! colPos = Some (Some text))
      ∧ exists strs,
          GetSpecifiedColumnValuesAndClose rangeOrder (Some rows) columnName
          = (strs, if decide (size fieldIndexMp = 0) then None
                   else Trace (rowsFailure rows))
          ∧ Forall2 (rowRel fieldIndexMp (length columnName))
              (filter (fun oneRow => keptRow fieldIndexMp oneRow = true) scanned)
              strs.
Proof.
  split; [done|]. intros rows columns scanned Hcols Hpending Hlen fieldIndexMp.
  split_and!.
  - apply fieldIndexOf_lookup.
  - apply fieldIndexOf_requested.
  - apply keptRow_spec.
  - unfold GetSpecifiedColumnValuesAndClose. rewrite Hcols. fold fieldIndexMp.
    destruct (decide (size fieldIndexMp = 0)) as [Hempty|Hsome].
    + exists []. split; [done|].
      apply map_size_empty_iff in Hempty.
      assert (filter (fun oneRow => keptRow fieldIndexMp oneRow = true) scanned
              = []) as ->; [|constructor].
      clear Hpending Hlen. induction scanned as [|oneRow scanned IH]; [done|].
      rewrite filter_cons, decide_False; [done|].
      intros (c&n&text&Hm&_)%keptRow_spec. by rewrite Hempty in Hm.
    + rewrite Hpending.
      destruct (readRows_scanned fieldIndexMp (length columns)
                  (length columnName) 0 scanned [] Hlen) as (outs&->&Houts).
      by exists outs.
Qed.
End ResultSetFacts.

(** The rows of a result set with NULLs that are read for two of its
    columns. *)
Lemma GetSpecifiedColumnValuesAndClose_spec_witness :
  Metadata.GetSpecifiedColumnValuesAndClose (fun _ => map_to_list) None ["A"; "B"]
  = ([], None)
  ∧ Metadata.GetSpecifiedColumnValuesAndClose (fun _ => map_to_list)
      (Some Metadata.nullsExample) ["A"; "B"]
    = ([["1"; EmptyString]; [EmptyString; "2"]], None).
Proof.
  destruct (GetSpecifiedColumnValuesAndClose_spec (fun _ => map_to_list)
              (fun _ m => reflexivity _) ["A"; "B"]) as [Hnil Hrows].
  split; [exact Hnil|].
  destruct (Hrows Metadata.nullsExample ["a"; "b"; "c"]
              [[Some "1"; None; Some "x"]; [None; None; Some "y"];
               [None; Some "2"; None]] eq_refl eq_refl) as (_&_&_&strs&Hres&_).
  - repeat constructor.
  - by vm_compute.
Defined.

(** ** The choice of the ordering column *)

Lemma numericIndexLoop_no_unique (dataTypeNum : gset string)
    (colName2Type : gmap string string) (results : list (list string)) :
  Metadata.numericIndexLoop dataTypeNum colName2Type results EmptyString
  = match
      find (fun oneRow =>
              bool_decide (default EmptyString
                             (colName2Type !! Metadata.field oneRow 2)
                           ∈ dataTypeNum)
              && bool_decide (Metadata.field oneRow 1 = "PRIMARY")) results
    with
    | Some oneRow => Metadata.field oneRow 2
    | None => EmptyString
    end.
Proof.
  induction results as [|oneRow results IH]; [done|]. simpl.
  destruct (bool_decide _ && bool_decide (Metadata.field oneRow 1 = "PRIMARY"));
    [done|].
  apply IH.
Qed.

(** C4. What the key selection does: with the implicit row id it answers
    [_tidb_rowid]; otherwise it answers the first numeric column of the
    PRIMARY key and nothing else, because the name of a unique key column
    is only stored when one is stored already.  For a table whose only
    index is a unique key on the integer column [id] the answer is the
    empty name, where the policy asks for [id]. *)
Theorem pickupPossibleField_unique_key :
  (forall rangeOrder string2Map dataTypeNum database table names types db,
     Metadata.pickupPossibleField rangeOrder string2Map dataTypeNum
       {| Metadata.DatabaseName := database; Metadata.TableName := table;
          Metadata.ColumnNames := names; Metadata.ColumnTypes := types;
          Metadata.HasImplicitRowID := true |} db
     = ("_tidb_rowid", None))
  ∧ (forall dataTypeNum colName2Type results,
       Metadata.numericIndexLoop dataTypeNum colName2Type results EmptyString
       = match
           find (fun oneRow =>
                   bool_decide (default EmptyString
                                  (colName2Type !! Metadata.field oneRow 2)
                                ∈ dataTypeNum)
                   && bool_decide (Metadata.field oneRow 1 = "PRIMARY")) results
         with
         | Some oneRow => Metadata.field oneRow 2
         | None => EmptyString
         end)
  ∧ Metadata.pickupPossibleField (fun _ => map_to_list) Metadata.zipMap
      Metadata.integerTypes Metadata.uniqueKeyMeta
      (Sql.constConn None (inr Metadata.uniqueKeyIndex))
    = (EmptyString, None)
  ∧ Metadata.pickupPossibleField (fun _ => map_to_list) Metadata.zipMap
      Metadata.integerTypes Metadata.uniqueKeyMeta
      (Sql.constConn None (inr Metadata.primaryKeyIndex))
    = ("id", None).
Proof.
  split_and!.
  - done.
  - apply numericIndexLoop_no_unique.
  - by vm_compute.
  - by vm_compute.
Qed.

(** ** Quoted identifiers *)

Module QuotingFacts.
Import Quoting.

Lemma escapeString_cons_backtick s :
  escapeString (String "`" s) = String "`" (String "`" (escapeString s)).
Proof. reflexivity. Qed.

Lemma escapeString_cons_other c s :
  c ≠ "`"%char -> escapeString (String c s) = String c (escapeString s).
Proof.
  intros Hc. unfold escapeString. simpl. by rewrite decide_False by done.
Qed.

Lemma readQuotedBody_escape s rest :
  noBacktickAhead rest ->
  readQuotedBody (escapeString s +:+ String "`" rest) = Some (s, rest).
Proof.
  intros Hrest. induction s as [|c s IH].
  - change (escapeString EmptyString +:+ String "`" rest) with (String "`" rest).
    simpl. destruct rest as [|c' rest']; [done|].
    simpl in Hrest. by rewrite decide_False by done.
  - destruct (decide (c = "`"%char)) as [->|Hc].
    + rewrite escapeString_cons_backtick, 2!append_cons.
      cbn [readQuotedBody]. rewrite !decide_True by done. by rewrite IH.
    + rewrite escapeString_cons_other, append_cons by done.
      cbn [readQuotedBody]. rewrite decide_False by done. by rewrite IH.
Qed.

Lemma readQuoted_quoteCol s rest :
  noBacktickAhead rest -> readQuoted (quoteCol s +:+ rest) = Some (s, rest).
Proof.
  intros Hrest. unfold quoteCol. text_norm.
  cbn [readQuoted]. rewrite decide_True by done.
  by apply readQuotedBody_escape.
Qed.

Lemma escapeString_inj s1 s2 : escapeString s1 = escapeString s2 -> s1 = s2.
Proof.
  intros Heq.
  pose proof (readQuotedBody_escape s1 EmptyString I) as H1.
  pose proof (readQuotedBody_escape s2 EmptyString I) as H2.
  rewrite Heq in H1. congruence.
Qed.

Lemma length_append (s t : string) :
  String.length (s +:+ t) = String.length s + String.length t.
Proof. induction s as [|c s IH]; [done|]. rewrite append_cons. simpl. by rewrite IH. Qed.

Lemma escapeString_length s :
  String.length (escapeString s) = String.length s + backticks s.
Proof.
  induction s as [|c s IH]; [done|].
  destruct (decide (c = "`"%char)) as [->|Hc].
  - rewrite escapeString_cons_backtick. simpl. rewrite IH. lia.
  - rewrite escapeString_cons_other by done. simpl.
    rewrite decide_False by done. rewrite IH. lia.
Qed.

Lemma escapeString_no_backtick s : backticks s = 0 -> escapeString s = s.
Proof.
  induction s as [|c s IH]; [done|]. simpl.
  destruct (decide (c = "`"%char)) as [->|Hc]; [done|]. intros Hs.
  rewrite escapeString_cons_other by done. by rewrite IH.
Qed.

End QuotingFacts.

(** X1. A name that [escapeString] has escaped and the builders have put
    between backticks is read back unchanged, whatever backticks it holds,
    and the reading stops at the closing backtick: the text that follows
    (a dot, a comma, a space, the end) is left over. *)
Theorem quoted_name_round_trip (name rest : string) :
  Quoting.noBacktickAhead rest ->
  Quoting.readQuoted (("`" +:+ escapeString name +:+ "`") +:+ rest)
  = Some (name, rest).
Proof. apply QuotingFacts.readQuoted_quoteCol. Qed.

Lemma quoted_name_round_trip_witness :
  Quoting.readQuoted (("`" +:+ escapeString "quo`te" +:+ "`") +:+ ",`name`")
  = Some ("quo`te", ",`name`").
Proof.
  apply (quoted_name_round_trip "quo`te" ",`name`"). simpl. discriminate.
Defined.

(** X2. [escapeString] lengthens a name by one byte for each of its
    backticks, and leaves a name unchanged exactly when it has none. *)
Theorem escapeString_growth (s : string) :
  String.length (escapeString s) = String.length s + Quoting.backticks s
  ∧ (escapeString s = s <-> Quoting.backticks s = 0).
Proof.
  split; [apply QuotingFacts.escapeString_length|]. split.
  - intros Heq. pose proof (QuotingFacts.escapeString_length s) as Hlen.
    rewrite Heq in Hlen. lia.
  - apply QuotingFacts.escapeString_no_backtick.
Qed.

(** ** The builders of the dump queries *)

Module QueryBuilderFacts.
Import Quoting QueryBuilder.

(** The optional parts of a query. *)
Lemma buildSelectQuery_text database table fields partition where_ orderByClause :
  buildSelectQuery database table fields partition where_ orderByClause
  = "SELECT " +:+ (if decide (fields = EmptyString) then "''" else fields)
      +:+ " FROM " +:+ quoteCol database +:+ "." +:+ quoteCol table
      +:+ (if decide (partition = EmptyString) then EmptyString
           else " PARTITION(" +:+ quoteCol partition +:+ ")")
      +:+ (if decide (where_ = EmptyString) then EmptyString
           else " " +:+ where_)
      +:+ (if decide (orderByClause = EmptyString) then EmptyString
           else " " +:+ orderByClause).
Proof.
  unfold buildSelectQuery, quoteCol, GoStrings.byte.
  destruct (decide (partition = EmptyString)) as [Hp|Hp];
    [rewrite (decide_False (P := partition ≠ EmptyString)) by (by intros [])
    |rewrite (decide_True (P := partition ≠ EmptyString)) by done];
  (destruct (decide (where_ = EmptyString)) as [Hw|Hw];
    [rewrite (decide_False (P := where_ ≠ EmptyString)) by (by intros [])
    |rewrite (decide_True (P := where_ ≠ EmptyString)) by done]);
  (destruct (decide (orderByClause = EmptyString)) as [Ho|Ho];
    [rewrite (decide_False (P := orderByClause ≠ EmptyString)) by (by intros [])
    |rewrite (decide_True (P := orderByClause ≠ EmptyString)) by done]);
  text_norm; reflexivity.
Qed.

Lemma noBacktickAhead_segments partition where_ orderByClause :
  noBacktickAhead
    ((if decide (partition = EmptyString) then EmptyString
      else " PARTITION(" +:+ quoteCol partition +:+ ")")
     +:+ (if decide (where_ = EmptyString) then EmptyString
          else " " +:+ where_)
     +:+ (if decide (orderByClause = EmptyString) then EmptyString
          else " " +:+ orderByClause)).
Proof.
  destruct (decide (partition = EmptyString)); [|by text_norm].
  destruct (decide (where_ = EmptyString)); [|by text_norm].
  destruct (decide (orderByClause = EmptyString)); [done|by text_norm].
Qed.

Lemma Join_cons x y (l : list string) sep :
  GoStrings.Join (x :: y :: l) sep = x +:+ sep +:+ GoStrings.Join (y :: l) sep.
Proof. reflexivity. Qed.

Lemma Join_quoted_inj (c1 c2 : list string) :
  GoStrings.Join (quoteCol <$> c1) "," = GoStrings.Join (quoteCol <$> c2) "," ->
  length c1 ≠ 0 -> length c2 ≠ 0 -> c1 = c2.
Proof.
  revert c2. induction c1 as [|a c1 IH]; intros c2 Heq H1 H2; [done|].
  destruct c2 as [|b c2]; [done|].
  assert (forall x (l : list string),
            exists rest, GoStrings.Join (quoteCol <$> x :: l) "," = quoteCol x +:+ rest
              ∧ noBacktickAhead rest
              ∧ (l = [] -> rest = EmptyString)
              ∧ (l ≠ [] -> rest = "," +:+ GoStrings.Join (quoteCol <$> l) ","))
    as Hshape.
  { intros x [|y l].
    - exists EmptyString. simpl. by rewrite append_empty_r.
    - exists ("," +:+ GoStrings.Join (quoteCol <$> y :: l) ",").
      rewrite !fmap_cons, Join_cons. by rewrite append_cons. }
  destruct (Hshape a c1) as (r1&E1&N1&Hnil1&Hcons1).
  destruct (Hshape b c2) as (r2&E2&N2&Hnil2&Hcons2).
  rewrite E1, E2 in Heq.
  pose proof (QuotingFacts.readQuoted_quoteCol a r1 N1) as R1.
  pose proof (QuotingFacts.readQuoted_quoteCol b r2 N2) as R2.
  rewrite Heq in R1. rewrite R1 in R2. injection R2 as -> ->.
  f_equal.
  destruct c1 as [|a' c1], c2 as [|b' c2]; [done| | |].
  - rewrite Hnil1 in Hcons2 by done. by specialize (Hcons2 ltac:(done)).
  - rewrite Hnil2 in Hcons1 by done. by specialize (Hcons1 ltac:(done)).
  - apply IH; [|done|done].
    specialize (Hcons1 ltac:(done)). specialize (Hcons2 ltac:(done)).
    rewrite Hcons1 in Hcons2. rewrite !append_cons, !append_empty_l in Hcons2.
    by injection Hcons2.
Qed.

Lemma buildWhereCondition_text conf where_ :
  buildWhereCondition conf where_
  = (if decide (Where conf = EmptyString) then
       if decide (where_ = EmptyString) then EmptyString
       else "WHERE " +:+ where_
     else
       "WHERE " +:+ Where conf +:+ "  "
         +:+ (if decide (where_ = EmptyString) then EmptyString
              else "AND " +:+ where_)).
Proof.
  unfold buildWhereCondition, GoStrings.byte.
  destruct (decide (Where conf = EmptyString)) as [Hc|Hc];
    [rewrite (decide_False (P := Where conf ≠ EmptyString)) by (by intros [])
    |rewrite (decide_True (P := Where conf ≠ EmptyString)) by done];
  (destruct (decide (where_ = EmptyString)) as [Hw|Hw];
    [rewrite (decide_False (P := where_ ≠ EmptyString)) by (by intros [])
    |rewrite (decide_True (P := where_ ≠ EmptyString)) by done]);
  text_norm; reflexivity.
Qed.

Lemma buildOrderByClauseString_text cols :
  buildOrderByClauseString cols
  = if decide (cols = []) then EmptyString
    else "ORDER BY " +:+ GoStrings.Join (quoteCol <$> cols) ",".
Proof.
  unfold buildOrderByClauseString. destruct cols as [|c cols]; [done|].
  rewrite decide_False by done. rewrite decide_False by done. reflexivity.
Qed.

End QueryBuilderFacts.

(** X3. The query of [buildSelectQuery] is the selection of the fields
    (two quotes when there are none) from the quoted table, followed by
    the partition, the condition and the ordering that are not empty, each
    after one space and in this order; and the names of the database and
    of the table are read back from it unchanged, whatever backticks they
    hold. *)
Theorem buildSelectQuery_names_read_back
    (database table fields partition where_ orderByClause : string) :
  let tail :=
    (if decide (partition = EmptyString) then EmptyString
     else " PARTITION(`" +:+ escapeString partition +:+ "`)")
    +:+ (if decide (where_ = EmptyString) then EmptyString else " " +:+ where_)
    +:+ (if decide (orderByClause = EmptyString) then EmptyString
         else " " +:+ orderByClause) in
  exists from_,
    QueryBuilder.buildSelectQuery database table fields partition where_
      orderByClause
    = "SELECT " +:+ (if decide (fields = EmptyString) then "''" else fields)
        +:+ " FROM " +:+ from_
    ∧ exists afterDatabase,
        Quoting.readQuoted from_ = Some (database, "." +:+ afterDatabase)
        ∧ Quoting.readQuoted afterDatabase = Some (table, tail).
Proof.
  intros tail.
  assert (tail
          = (if decide (partition = EmptyString) then EmptyString
             else " PARTITION(" +:+ quoteCol partition +:+ ")")
            +:+ (if decide (where_ = EmptyString) then EmptyString
                 else " " +:+ where_)
            +:+ (if decide (orderByClause = EmptyString) then EmptyString
                 else " " +:+ orderByClause)) as Htail.
  { unfold tail, quoteCol. destruct (decide (partition = EmptyString)); [done|].
    by text_norm. }
  exists (quoteCol database +:+ "." +:+ quoteCol table +:+ tail). split.
  - rewrite QueryBuilderFacts.buildSelectQuery_text, Htail. reflexivity.
  - exists (quoteCol table +:+ tail). split.
    + by apply QuotingFacts.readQuoted_quoteCol.
    + apply QuotingFacts.readQuoted_quoteCol. rewrite Htail.
      apply QueryBuilderFacts.noBacktickAhead_segments.
Qed.

(** X4. [buildWhereCondition] is empty exactly when neither the configured
    filter nor the condition of the chunk is given; with the chunk's
    condition alone it is WHERE and the condition; with a configured filter
    the filter comes first, followed by two spaces, and the chunk's
    condition is joined to it by AND. *)
Theorem buildWhereCondition_cases (conf : QueryBuilder.Config) (where_ : string) :
  (QueryBuilder.buildWhereCondition conf where_ = EmptyString
   <-> QueryBuilder.Where conf = EmptyString ∧ where_ = EmptyString)
  ∧ QueryBuilder.buildWhereCondition conf where_
    = (if decide (QueryBuilder.Where conf = EmptyString) then
         if decide (where_ = EmptyString) then EmptyString
         else "WHERE " +:+ where_
       else
         "WHERE " +:+ QueryBuilder.Where conf +:+ "  "
           +:+ (if decide (where_ = EmptyString) then EmptyString
                else "AND " +:+ where_)).
Proof.
  split; [|apply QueryBuilderFacts.buildWhereCondition_text].
  rewrite QueryBuilderFacts.buildWhereCondition_text.
  destruct (decide (QueryBuilder.Where conf = EmptyString)) as [Hc|Hc],
    (decide (where_ = EmptyString)) as [Hw|Hw]; split;
    try done; try (by intros [??]); text_norm; discriminate.
Qed.

(** X5. [buildOrderByClauseString] gives no clause exactly for no column,
    and two lists of columns that differ never give the same clause. *)
Theorem buildOrderByClauseString_injective (cols1 cols2 : list string) :
  (QueryBuilder.buildOrderByClauseString cols1 = EmptyString <-> cols1 = [])
  ∧ (QueryBuilder.buildOrderByClauseString cols1
     = QueryBuilder.buildOrderByClauseString cols2 -> cols1 = cols2).
Proof.
  rewrite !QueryBuilderFacts.buildOrderByClauseString_text. split.
  - destruct (decide (cols1 = [])); [done|]. split; [|done].
    text_norm. discriminate.
  - destruct (decide (cols1 = [])) as [->|H1], (decide (cols2 = [])) as [->|H2];
      [done|text_norm; discriminate|text_norm; discriminate|].
    intros Heq. apply QueryBuilderFacts.Join_quoted_inj.
    + rewrite !append_cons, !append_empty_l in Heq. by simplify_eq.
    + by destruct cols1.
    + by destruct cols2.
Qed.

Lemma buildOrderByClauseString_injective_witness :
  (QueryBuilder.buildOrderByClauseString ["id"; "name"] = EmptyString
   <-> ["id"; "name"] = [])
  ∧ (QueryBuilder.buildOrderByClauseString ["id"; "name"]
     = QueryBuilder.buildOrderByClauseString ["id"; "name"]
     -> ["id"; "name"] = ["id"; "name"]).
Proof. apply (buildOrderByClauseString_injective ["id"; "name"] ["id"; "name"]). Defined.
(** X24. The query of [SelectAllFromTable] selects the fields of the
    metadata from the quoted table, with the partition and the ordering
    that are given; the configured filter, when there is one, follows
    WHERE and is followed by two spaces; the chunk's condition is absent.
    The number of columns is the one of the metadata. *)
Theorem SelectAllFromTable_query (conf : QueryBuilder.Config)
    (tableMeta : QueryBuilder.SelectedMeta) (partition orderByClause : string) :
  let data := QueryBuilder.SelectAllFromTable conf tableMeta partition orderByClause in
  QueryBuilder.colLen data = QueryBuilder.SelectedLen tableMeta
  ∧ QueryBuilder.query data
    = "SELECT "
        +:+ (if decide (QueryBuilder.SelectedField tableMeta = EmptyString) then "''"
             else QueryBuilder.SelectedField tableMeta)
        +:+ " FROM `" +:+ escapeString (Metadata.DatabaseName (QueryBuilder.meta tableMeta)) +:+ "`.`"
        +:+ escapeString (Metadata.TableName (QueryBuilder.meta tableMeta)) +:+ "`"
        +:+ (if decide (partition = EmptyString) then EmptyString
             else " PARTITION(`" +:+ escapeString partition +:+ "`)")
        +:+ (if decide (QueryBuilder.Where conf = EmptyString) then EmptyString
             else " WHERE " +:+ QueryBuilder.Where conf +:+ "  ")
        +:+ (if decide (orderByClause = EmptyString) then EmptyString
             else " " +:+ orderByClause).
Proof.
  intros data. split; [done|]. unfold data, QueryBuilder.SelectAllFromTable.
  cbn [QueryBuilder.query].
  rewrite QueryBuilderFacts.buildSelectQuery_text,
    QueryBuilderFacts.buildWhereCondition_text.
  destruct (decide (EmptyString = EmptyString)) as [_|?]; [|done].
  unfold quoteCol.
  destruct (decide (QueryBuilder.Where conf = EmptyString)) as [Hc|Hc].
  - destruct (decide (EmptyString = EmptyString)) as [_|?]; [|done].
    destruct (decide (partition = EmptyString)); by text_norm.
  - destruct (decide ("WHERE " +:+ QueryBuilder.Where conf +:+ "  " +:+ EmptyString
                      = EmptyString)) as [Hbad|_].
    { exfalso. revert Hbad. text_norm. discriminate. }
    destruct (decide (partition = EmptyString)); by text_norm.
Qed.

(** ** Result sets whose columns have distinct names *)

Module UpperFacts.
Import GoStrings.

Lemma upperByte_idem c : upperByte (upperByte c) = upperByte c.
Proof. by destruct c as [[] [] [] [] [] [] [] []]. Qed.

Lemma ToUpper_idem s : ToUpper (ToUpper s) = ToUpper s.
Proof.
  unfold ToUpper. induction s as [|c s IH]; [done|]. simpl.
  by rewrite upperByte_idem, IH.
Qed.

End UpperFacts.

Section ProjectionFacts.
Import Sql Metadata Columns.
Variable rangeOrder : nat -> gmap nat nat -> list (nat * nat).
Hypothesis rangeOrder_perm : forall n m, rangeOrder n m ≡ₚ map_to_list m.

Variables columns names : list string.
Hypothesis columns_distinct : NoDup (GoStrings.ToUpper <$> columns).
Hypothesis names_distinct : NoDup names.

Lemma fieldIndexOf_iff colPos namePos :
  fieldIndexOf columns names !! colPos = Some namePos
  <-> exists col, columns !! colPos = Some col
        ∧ names !! namePos = Some (GoStrings.ToUpper col).
Proof using rangeOrder_perm names_distinct.
  split; [apply (fieldIndexOf_lookup rangeOrder rangeOrder_perm)|].
  intros (col&Hcol&Hname).
  destruct (fieldIndexOf_requested rangeOrder rangeOrder_perm columns names
              colPos col Hcol) as [n' Hn'].
  { by eapply list_elem_of_lookup_2. }
  rewrite Hn'. f_equal.
  apply (fieldIndexOf_lookup rangeOrder rangeOrder_perm) in Hn'
    as (col'&Hcol'&Hname').
  assert (col' = col) as -> by congruence.
  by eapply NoDup_lookup.
Qed.

Lemma column_unique i j ci cj :
  columns !! i = Some ci -> columns !! j = Some cj ->
  GoStrings.ToUpper ci = GoStrings.ToUpper cj -> i = j.
Proof using columns_distinct.
  intros Hi Hj Heq.
  apply (NoDup_lookup _ i j (GoStrings.ToUpper ci) columns_distinct);
    rewrite list_lookup_fmap.
  - by rewrite Hi.
  - rewrite Hj. simpl. by rewrite Heq.
Qed.

Lemma cellOf_column oneRow colPos col :
  columns !! colPos = Some col ->
  cellOf columns oneRow (GoStrings.ToUpper col) = default None (oneRow !! colPos).
Proof using columns_distinct.
  intros Hcol. unfold cellOf.
  destruct (list_find _ columns) as [[i c]|] eqn:Hfind.
  - apply list_find_Some in Hfind as (Hi&Hc&_).
    by rewrite (column_unique i colPos c col).
  - apply list_find_None in Hfind.
    rewrite Forall_forall in Hfind.
    destruct (Hfind col); [by eapply list_elem_of_lookup_2|done].
Qed.

Lemma cellOf_Some oneRow name text :
  cellOf columns oneRow name = Some text ->
  exists colPos col, columns !! colPos = Some col
    ∧ GoStrings.ToUpper col = name ∧ oneRow !! colPos = Some (Some text).
Proof.
  unfold cellOf. destruct (list_find _ columns) as [[i c]|] eqn:Hfind; [|done].
  apply list_find_Some in Hfind as (Hi&Hc&_). intros Hcell.
  exists i, c. split_and!; [done..|].
  by destruct (oneRow !! i) as [[?|]|]; simplify_eq/=.
Qed.

Lemma rowRel_projection oneRow out :
  rowRel (fieldIndexOf columns names) (length names) oneRow out ->
  out = (fun name => nullText (cellOf columns oneRow name)) <$> names.
Proof using rangeOrder_perm columns_distinct names_distinct.
  intros (Hlen&Hnull&Hval). apply list_eq. intros j.
  rewrite list_lookup_fmap.
  destruct (names !! j) as [name|] eqn:Hj; simpl.
  2:{ apply lookup_ge_None. apply lookup_ge_None in Hj. lia. }
  assert (j < length names) as Hlt by (by eapply lookup_lt_Some).
  destruct (cellOf columns oneRow name) as [text|] eqn:Hcell; simpl.
  - apply cellOf_Some in Hcell as (colPos&col&Hcol&Hname&Hrow). subst name.
    apply (Hval colPos); [done| |done|].
    + apply fieldIndexOf_iff. eauto.
    + intros colPos' (col'&Hcol'&Hname')%fieldIndexOf_iff.
      apply (column_unique colPos' colPos col' col); [done..|congruence].
  - apply Hnull; [done|].
    intros colPos text (col&Hcol&Hname)%fieldIndexOf_iff Hrow.
    assert (name = GoStrings.ToUpper col) as -> by congruence.
    rewrite (cellOf_column oneRow colPos col Hcol), Hrow in Hcell. done.
Qed.

Lemma keptRow_projection oneRow :
  keptRow (fieldIndexOf columns names) oneRow
  = existsb (fun name => nullValid (cellOf columns oneRow name)) names.
Proof using rangeOrder_perm columns_distinct names_distinct.
  apply eq_true_iff_eq. rewrite keptRow_spec, existsb_exists. split.
  - intros (colPos&namePos&text&(col&Hcol&Hname)%fieldIndexOf_iff&Hrow).
    exists (GoStrings.ToUpper col). split.
    + apply list_elem_of_In. by eapply list_elem_of_lookup_2.
    + rewrite (cellOf_column oneRow colPos col Hcol), Hrow. done.
  - intros (name&Hin&Hvalid). apply list_elem_of_In in Hin.
    apply list_elem_of_lookup_1 in Hin as [namePos Hname].
    unfold nullValid in Hvalid. apply bool_decide_eq_true in Hvalid as [text Hcell].
    apply cellOf_Some in Hcell as (colPos&col&Hcol&Hup&Hrow). subst name.
    exists colPos, namePos, text. split; [|done].
    apply fieldIndexOf_iff. eauto.
Qed.

Lemma requestedAny_size :
  requestedAny columns names = bool_decide (size (fieldIndexOf columns names) ≠ 0).
Proof using rangeOrder_perm names_distinct.
  apply eq_true_iff_eq. unfold requestedAny.
  rewrite existsb_exists, bool_decide_eq_true, map_size_non_empty_iff. split.
  - intros (col&Hin&Hreq). apply bool_decide_eq_true in Hreq.
    apply list_elem_of_In, list_elem_of_lookup_1 in Hin as [colPos Hcol].
    destruct (fieldIndexOf_requested rangeOrder rangeOrder_perm columns names
                colPos col Hcol Hreq) as [n Hn].
    intros Hempty. by rewrite Hempty in Hn.
  - intros (colPos&namePos&(col&Hcol&Hname)%fieldIndexOf_iff)%map_choose.
    exists col. split.
    + apply list_elem_of_In. by eapply list_elem_of_lookup_2.
    + apply bool_decide_eq_true. by eapply list_elem_of_lookup_2.
Qed.

Lemma filter_none {A} (P : A -> Prop) `{!forall x, Decision (P x)} (l : list A) :
  (forall x, ¬ P x) -> filter P l = [].
Proof.
  intros HP. induction l as [|x l IH]; [done|].
  rewrite filter_cons, decide_False by apply HP. done.
Qed.

Lemma GetSpecified_projection rows scanned :
  rowsColumns rows = inr columns ->
  rowsPending rows = inr <$> scanned ->
  Forall (fun oneRow => length oneRow = length columns) scanned ->
  GetSpecifiedColumnValuesAndClose rangeOrder (Some rows) names
  = (projectRows columns names scanned,
     if requestedAny columns names then Trace (rowsFailure rows) else None).
Proof using rangeOrder_perm columns_distinct names_distinct.
  intros Hcols Hpending Hlen.
  unfold GetSpecifiedColumnValuesAndClose. rewrite Hcols, requestedAny_size.
  unfold projectRows.
  assert (filter (fun oneRow =>
                    existsb (fun name => nullValid (cellOf columns oneRow name))
                      names = true) scanned
          = filter (fun oneRow =>
                      keptRow (fieldIndexOf columns names) oneRow = true) scanned)
    as ->.
  { apply list_filter_iff. intros oneRow. by rewrite keptRow_projection. }
  destruct (decide (size (fieldIndexOf columns names) = 0)) as [Hempty|Hsome].
  - rewrite bool_decide_eq_false_2 by (by intros []).
    rewrite filter_none; [done|].
    apply map_size_empty_iff in Hempty.
    intros oneRow (c&n&text&Hm&_)%keptRow_spec. by rewrite Hempty in Hm.
  - rewrite bool_decide_eq_true_2 by done. rewrite Hpending.
    destruct (readRows_scanned rangeOrder rangeOrder_perm
                (fieldIndexOf columns names) (length columns)
                (length names) 0 scanned [] Hlen) as (outs&->&Houts).
    simpl. f_equal.
    induction Houts as [|oneRow out rows' outs' Hrel _ IH]; [done|].
    rewrite fmap_cons. f_equal; [|done]. by apply rowRel_projection.
Qed.
End ProjectionFacts.

(** *** The column read alone *)

Module ColumnFacts.
Import Sql Columns.

Lemma fieldIndexOfName_snoc columns col name :
  fieldIndexOfName (columns ++ [col]) name
  = if decide (GoStrings.ToUpper col = name) then Some (length columns)
    else fieldIndexOfName columns name.
Proof.
  unfold fieldIndexOfName. rewrite imap_app, foldl_app. simpl.
  by rewrite Nat.add_0_r.
Qed.

Lemma fieldIndexOfName_None columns name :
  fieldIndexOfName columns name = None
  <-> forall col, col ∈ columns -> GoStrings.ToUpper col ≠ name.
Proof.
  induction columns as [|col columns IH] using rev_ind.
  { split; [|done]. intros _ col Hin. by apply elem_of_nil in Hin. }
  rewrite fieldIndexOfName_snoc. destruct (decide _) as [Heq|Hne].
  - split; [done|]. intros Hall.
    destruct (Hall col); [|done].
    apply elem_of_app. right. by apply list_elem_of_singleton.
  - rewrite IH. split.
    + intros Hall c [Hin| ->%list_elem_of_singleton]%elem_of_app; [by apply Hall|done].
    + intros Hall c Hin. apply Hall, elem_of_app. by left.
Qed.

Lemma fieldIndexOfName_Some columns name i :
  fieldIndexOfName columns name = Some i ->
  exists col, columns !! i = Some col ∧ GoStrings.ToUpper col = name
    ∧ forall j col', i < j -> columns !! j = Some col' ->
        GoStrings.ToUpper col' ≠ name.
Proof.
  induction columns as [|col columns IH] using rev_ind; [done|].
  rewrite fieldIndexOfName_snoc. destruct (decide _) as [Heq|Hne].
  - intros [= <-]. exists col. split_and!; [|done|].
    + by rewrite lookup_app_r, Nat.sub_diag by done.
    + intros j col' Hlt Hj. apply lookup_lt_Some in Hj.
      rewrite length_app in Hj. simpl in Hj. lia.
  - intros (c&Hc&Hname&Hlast)%IH. exists c. split_and!; [|done|].
    + by apply lookup_app_l_Some.
    + intros j col' Hlt Hj.
      apply lookup_app_Some in Hj as [Hj|[Hge Hj]]; [by eapply Hlast|].
      apply list_lookup_singleton_Some in Hj as [_ <-]. done.
Qed.

Lemma fieldIndexOfName_last columns name i col :
  columns !! i = Some col -> GoStrings.ToUpper col = name ->
  (forall j col', i < j -> columns !! j = Some col' ->
     GoStrings.ToUpper col' ≠ name) ->
  fieldIndexOfName columns name = Some i.
Proof.
  intros Hcol Hname Hlast.
  destruct (fieldIndexOfName columns name) as [i'|] eqn:Hfind.
  - apply fieldIndexOfName_Some in Hfind as (c&Hc&Hcname&Hclast). f_equal.
    destruct (Nat.lt_trichotomy i i') as [Hlt|[->|Hlt]]; [|done|].
    + by destruct (Hlast i' c).
    + by destruct (Hclast i col).
  - rewrite fieldIndexOfName_None in Hfind.
    destruct (Hfind col); [by eapply list_elem_of_lookup_2|done].
Qed.

Lemma readColumn_scanned width i scanned strs :
  Forall (fun oneRow : list NullString => length oneRow = width) scanned ->
  readColumn width i (inr <$> scanned) strs
  = (strs ++ omap (fun oneRow => default None (oneRow !! i)) scanned, None).
Proof.
  revert strs. induction scanned as [|oneRow scanned IH]; intros strs Hlen.
  { simpl. by rewrite app_nil_r. }
  apply Forall_cons in Hlen as [Hlen0 Hlen].
  rewrite fmap_cons. cbn [readColumn Scan]. rewrite decide_True by done.
  rewrite IH by done. cbn [omap list_omap].
  destruct (oneRow !! i) as [[text|]|]; simpl; [|done..].
  by rewrite <-app_assoc.
Qed.

Lemma GetSpecifiedColumnValueAndClose_none rows columnName :
  (forall columns col, rowsColumns rows = inr columns -> col ∈ columns ->
     GoStrings.ToUpper col ≠ GoStrings.ToUpper columnName) ->
  GetSpecifiedColumnValueAndClose (Some rows) columnName = ([], None).
Proof.
  intros Hnone. unfold GetSpecifiedColumnValueAndClose.
  destruct (rowsColumns rows) as [err|columns] eqn:Hcols; [done|].
  rewrite (proj2 (fieldIndexOfName_None columns _)); [done|].
  intros col Hin. by apply (Hnone columns).
Qed.

Lemma GetSpecifiedColumnValueAndClose_last rows columnName columns scanned i col :
  rowsColumns rows = inr columns ->
  rowsPending rows = inr <$> scanned ->
  Forall (fun oneRow => length oneRow = length columns) scanned ->
  columns !! i = Some col ->
  GoStrings.ToUpper col = GoStrings.ToUpper columnName ->
  (forall j col', i < j -> columns !! j = Some col' ->
     GoStrings.ToUpper col' ≠ GoStrings.ToUpper columnName) ->
  GetSpecifiedColumnValueAndClose (Some rows) columnName
  = (omap (fun oneRow => default None (oneRow !! i)) scanned,
     Trace (rowsFailure rows)).
Proof.
  intros Hcols Hpending Hlen Hcol Hname Hlast.
  unfold GetSpecifiedColumnValueAndClose. rewrite Hcols.
  rewrite (fieldIndexOfName_last columns _ i col Hcol Hname Hlast).
  rewrite Hpending, readColumn_scanned by done. done.
Qed.

Lemma projectRows_single columns name scanned :
  (fun oneRow => Metadata.field oneRow 0) <$> projectRows columns [name] scanned
  = omap (fun oneRow => cellOf columns oneRow name) scanned.
Proof.
  unfold projectRows. induction scanned as [|oneRow scanned IH]; [done|].
  rewrite filter_cons. cbn [omap list_omap].
  destruct (decide _) as [Hkept|Hkept]; cbn [existsb] in Hkept;
    destruct (cellOf columns oneRow name) as [text|] eqn:Hcell.
  - rewrite !fmap_cons, IH. unfold Metadata.field. simpl. by rewrite Hcell.
  - done.
  - by destruct Hkept.
  - apply IH.
Qed.

End ColumnFacts.

(** X6. When the columns of a result set have distinct names (in upper
    case) and the requested names are distinct, the result of
    [GetSpecifiedColumnValuesAndClose] does not depend on the order in
    which the map of the columns is visited: it is the list of the rows
    that have a value in a requested column, each as the texts of its
    cells under the requested names, in the order of the names, with the
    empty text for NULL and for a name no column has.  The error of the
    iteration is reported only when a requested column exists. *)
Theorem GetSpecifiedColumnValuesAndClose_projection
    (rangeOrder : nat -> gmap nat nat -> list (nat * nat))
    (rows : Sql.Rows) (columns columnName : list string)
    (scanned : list (list Sql.NullString)) :
  (forall n m, rangeOrder n m ≡ₚ map_to_list m) ->
  NoDup (GoStrings.ToUpper <$> columns) ->
  NoDup columnName ->
  Sql.rowsColumns rows = inr columns ->
  Sql.rowsPending rows = inr <$> scanned ->
  Forall (fun oneRow => length oneRow = length columns) scanned ->
  Metadata.GetSpecifiedColumnValuesAndClose rangeOrder (Some rows) columnName
  = (Columns.projectRows columns columnName scanned,
     if Columns.requestedAny columns columnName
     then Sql.Trace (Sql.rowsFailure rows) else None).
Proof. intros. by apply GetSpecified_projection. Qed.

Lemma GetSpecifiedColumnValuesAndClose_projection_witness :
  Metadata.GetSpecifiedColumnValuesAndClose Keys.mapOrder
    (Some Keys.compositeKeyIndex) ["KEY_NAME"; "COLUMN_NAME"]
  = ([["PRIMARY"; "a"]; ["PRIMARY"; "b"]; ["idx"; "c"]], None).
Proof.
  apply (GetSpecifiedColumnValuesAndClose_projection Keys.mapOrder
           Keys.compositeKeyIndex
           ["Table"; "Non_unique"; "Key_name"; "Seq_in_index"; "Column_name"]
           ["KEY_NAME"; "COLUMN_NAME"]
           [ [Some "t"; Some "0"; Some "PRIMARY"; Some "1"; Some "a"];
             [Some "t"; Some "0"; Some "PRIMARY"; Some "2"; Some "b"];
             [Some "t"; Some "1"; Some "idx"; Some "1"; Some "c"] ]).
  - reflexivity.
  - apply (bool_decide_unpack _). vm_compute. reflexivity.
  - apply (bool_decide_unpack _). vm_compute. reflexivity.
  - reflexivity.
  - reflexivity.
  - repeat constructor.
Defined.

(** X7. [GetSpecifiedColumnValuesAndClose] compares the requested names
    with the upper-cased names of the columns without changing their
    case: when every requested name has a lower-case letter, it finds no
    column and returns no row and no error, whatever the result set
    holds. *)
Theorem GetSpecifiedColumnValuesAndClose_lower_case
    (rangeOrder : nat -> gmap nat nat -> list (nat * nat))
    (rows : Sql.Rows) (columns columnName : list string) :
  Forall (fun name => GoStrings.ToUpper name ≠ name) columnName ->
  Sql.rowsColumns rows = inr columns ->
  Metadata.GetSpecifiedColumnValuesAndClose rangeOrder (Some rows) columnName
  = ([], None).
Proof.
  intros Hlower Hcols. unfold Metadata.GetSpecifiedColumnValuesAndClose.
  rewrite Hcols. rewrite decide_True; [done|].
  apply map_size_empty_iff, map_empty. intros colPos.
  destruct (Metadata.fieldIndexOf columns columnName !! colPos) as [namePos|] eqn:Hm;
    [|done].
  apply (fieldIndexOf_lookup (fun _ m => map_to_list m)) in Hm
    as (col&Hcol&Hname); [|done].
  rewrite Forall_forall in Hlower.
  destruct (Hlower (GoStrings.ToUpper col)).
  - by eapply list_elem_of_lookup_2.
  - apply UpperFacts.ToUpper_idem.
Qed.

Lemma GetSpecifiedColumnValuesAndClose_lower_case_witness :
  Metadata.GetSpecifiedColumnValuesAndClose Keys.mapOrder
    (Some Keys.compositeKeyIndex) ["Key_name"; "Column_name"]
  = ([], None).
Proof.
  apply (GetSpecifiedColumnValuesAndClose_lower_case Keys.mapOrder
           Keys.compositeKeyIndex
           ["Table"; "Non_unique"; "Key_name"; "Seq_in_index"; "Column_name"]
           ["Key_name"; "Column_name"]).
  - repeat constructor; discriminate.
  - reflexivity.
Defined.

(** X8. [GetSpecifiedColumnValueAndClose] answers a nil rows handle, and
    a result set none of whose columns has the requested name (compared
    in upper case on both sides), with no value and no error, without
    reading a row.  Otherwise it reads the last column of that name and
    returns its values that are not NULL, in the order of the rows,
    with the error of the iteration. *)
Theorem GetSpecifiedColumnValueAndClose_spec (rows : Sql.Rows) (columnName : string) :
  Columns.GetSpecifiedColumnValueAndClose None columnName = ([], None)
  ∧ ((forall columns col, Sql.rowsColumns rows = inr columns -> col ∈ columns ->
        GoStrings.ToUpper col ≠ GoStrings.ToUpper columnName) ->
     Columns.GetSpecifiedColumnValueAndClose (Some rows) columnName = ([], None))
  ∧ (forall columns scanned i col,
       Sql.rowsColumns rows = inr columns ->
       Sql.rowsPending rows = inr <$> scanned ->
       Forall (fun oneRow => length oneRow = length columns) scanned ->
       columns !! i = Some col ->
       GoStrings.ToUpper col = GoStrings.ToUpper columnName ->
       (forall j col', i < j -> columns !! j = Some col' ->
          GoStrings.ToUpper col' ≠ GoStrings.ToUpper columnName) ->
       Columns.GetSpecifiedColumnValueAndClose (Some rows) columnName
       = (omap (fun oneRow => default None (oneRow !! i)) scanned,
          Sql.Trace (Sql.rowsFailure rows))).
Proof.
  split; [done|]. split.
  - apply ColumnFacts.GetSpecifiedColumnValueAndClose_none.
  - intros columns scanned i col.
    apply ColumnFacts.GetSpecifiedColumnValueAndClose_last.
Qed.

Lemma GetSpecifiedColumnValueAndClose_spec_witness :
  Columns.GetSpecifiedColumnValueAndClose (Some Keys.compositeKeyIndex) "column_name"
  = (["a"; "b"; "c"], None).
Proof.
  pose proof (GetSpecifiedColumnValueAndClose_spec Keys.compositeKeyIndex
                "column_name") as (_&_&H).
  apply (H ["Table"; "Non_unique"; "Key_name"; "Seq_in_index"; "Column_name"]
           [ [Some "t"; Some "0"; Some "PRIMARY"; Some "1"; Some "a"];
             [Some "t"; Some "0"; Some "PRIMARY"; Some "2"; Some "b"];
             [Some "t"; Some "1"; Some "idx"; Some "1"; Some "c"] ]
           4 "Column_name").
  - reflexivity.
  - reflexivity.
  - repeat constructor.
  - reflexivity.
  - reflexivity.
  - intros j col' Hlt Hj. apply lookup_lt_Some in Hj. simpl in Hj. lia.
Defined.

(** X9. On a result set whose columns have distinct names, the function
    that reads one column agrees with the function that reads several:
    its values are the first fields of the rows that
    [GetSpecifiedColumnValuesAndClose] returns for the upper-cased name,
    and the errors are the same. *)
Theorem GetSpecifiedColumnValueAndClose_agrees
    (rangeOrder : nat -> gmap nat nat -> list (nat * nat))
    (rows : Sql.Rows) (columns : list string) (columnName : string)
    (scanned : list (list Sql.NullString)) :
  (forall n m, rangeOrder n m ≡ₚ map_to_list m) ->
  NoDup (GoStrings.ToUpper <$> columns) ->
  Sql.rowsColumns rows = inr columns ->
  Sql.rowsPending rows = inr <$> scanned ->
  Forall (fun oneRow => length oneRow = length columns) scanned ->
  let several :=
    Metadata.GetSpecifiedColumnValuesAndClose rangeOrder (Some rows)
      [GoStrings.ToUpper columnName] in
  Columns.GetSpecifiedColumnValueAndClose (Some rows) columnName
  = ((fun oneRow => Metadata.field oneRow 0) <$> several.1, several.2).
Proof.
  intros Hperm Hdistinct Hcols Hpending Hlen several. unfold several.
  rewrite (GetSpecified_projection rangeOrder Hperm columns
             [GoStrings.ToUpper columnName] Hdistinct (NoDup_singleton _)
             rows scanned Hcols Hpending Hlen).
  cbn [fst snd]. rewrite ColumnFacts.projectRows_single.
  unfold Columns.requestedAny.
  destruct (list_find
              (fun col => GoStrings.ToUpper col = GoStrings.ToUpper columnName)
              columns) as [[i col]|] eqn:Hfind.
  - pose proof Hfind as (Hcol&Hname&_)%list_find_Some.
    rewrite (ColumnFacts.GetSpecifiedColumnValueAndClose_last rows columnName
               columns scanned i col) by
      (try done; intros j col' Hlt Hj Hup;
       assert (j = i) by (apply (column_unique columns Hdistinct j i col' col);
                          [done..|congruence]); lia).
    f_equal.
    + assert (forall oneRow,
                Columns.cellOf columns oneRow (GoStrings.ToUpper columnName)
                = default None (oneRow !! i)) as Hcell.
      { intros oneRow. unfold Columns.cellOf. by rewrite Hfind. }
      clear -Hcell. induction scanned as [|oneRow scanned IH]; [done|].
      cbn [omap list_omap]. by rewrite Hcell, IH.
    + assert (existsb (fun col0 => bool_decide
                         (GoStrings.ToUpper col0 ∈ [GoStrings.ToUpper columnName]))
                columns = true) as ->; [|done].
      apply existsb_exists. exists col. split.
      * apply list_elem_of_In. by eapply list_elem_of_lookup_2.
      * apply bool_decide_eq_true. rewrite Hname. by apply list_elem_of_singleton.
  - pose proof Hfind as Hnone%list_find_None. rewrite Forall_forall in Hnone.
    rewrite ColumnFacts.GetSpecifiedColumnValueAndClose_none by
      (intros cols col Hc Hin; assert (cols = columns) as -> by congruence;
       by apply Hnone).
    f_equal.
    + assert (forall oneRow,
                Columns.cellOf columns oneRow (GoStrings.ToUpper columnName) = None)
        as Hcell.
      { intros oneRow. unfold Columns.cellOf. by rewrite Hfind. }
      clear -Hcell. induction scanned as [|oneRow scanned IH]; [done|].
      cbn [omap list_omap]. by rewrite Hcell.
    + assert (existsb (fun col0 => bool_decide
                         (GoStrings.ToUpper col0 ∈ [GoStrings.ToUpper columnName]))
                columns = false) as ->; [|done].
      apply not_true_is_false. intros (col&Hin&Hreq)%existsb_exists.
      apply bool_decide_eq_true, list_elem_of_singleton in Hreq.
      apply list_elem_of_In in Hin. by destruct (Hnone col).
Qed.

Lemma GetSpecifiedColumnValueAndClose_agrees_witness :
  Columns.GetSpecifiedColumnValueAndClose (Some Keys.compositeKeyIndex) "key_name"
  = ((fun oneRow => Metadata.field oneRow 0)
       <$> (Metadata.GetSpecifiedColumnValuesAndClose Keys.mapOrder
              (Some Keys.compositeKeyIndex) ["KEY_NAME"]).1,
     (Metadata.GetSpecifiedColumnValuesAndClose Keys.mapOrder
        (Some Keys.compositeKeyIndex) ["KEY_NAME"]).2).
Proof.
  apply (GetSpecifiedColumnValueAndClose_agrees Keys.mapOrder
           Keys.compositeKeyIndex
           ["Table"; "Non_unique"; "Key_name"; "Seq_in_index"; "Column_name"]
           "key_name"
           [ [Some "t"; Some "0"; Some "PRIMARY"; Some "1"; Some "a"];
             [Some "t"; Some "0"; Some "PRIMARY"; Some "2"; Some "b"];
             [Some "t"; Some "1"; Some "idx"; Some "1"; Some "c"] ]).
  - reflexivity.
  - apply (bool_decide_unpack _). vm_compute. reflexivity.
  - reflexivity.
  - reflexivity.
  - repeat constructor.
Defined.

(** ** Keys and fields of a table *)

Section KeysFacts.
Import Sql Metadata Columns QueryBuilder Keys.
Variable rangeOrder : nat -> gmap nat nat -> list (nat * nat).
Hypothesis rangeOrder_perm : forall n m, rangeOrder n m ≡ₚ map_to_list m.
Variable wrapBackTicks : string -> string.

Lemma primaryColumns_filter results cols :
  primaryColumns results cols
  = cols ++ ((fun oneRow => field oneRow 1)
               <$> filter (fun oneRow => field oneRow 0 = "PRIMARY") results).
Proof.
  revert cols. induction results as [|oneRow results IH]; intros cols.
  { simpl. by rewrite app_nil_r. }
  cbn [primaryColumns]. rewrite IH, filter_cons.
  destruct (decide (field oneRow 0 = "PRIMARY")); [|done].
  rewrite fmap_cons. by rewrite <-app_assoc.
Qed.

Lemma filter_fmap_filter {A B} (f : A -> B) (P Q' : A -> Prop) (Q : B -> Prop)
    `{!forall x, Decision (P x)} `{!forall x, Decision (Q' x)}
    `{!forall y, Decision (Q y)} (l : list A) :
  (forall x, Q' x <-> P x ∧ Q (f x)) ->
  filter Q (f <$> filter P l) = f <$> filter Q' l.
Proof.
  intros HQ. induction l as [|x l IH]; [done|].
  rewrite !filter_cons.
  destruct (decide (P x)) as [HP|HP].
  - rewrite fmap_cons, filter_cons.
    destruct (decide (Q (f x))) as [HQx|HQx].
    + rewrite decide_True by (by apply HQ). by rewrite fmap_cons, IH.
    + rewrite decide_False by (by intros [_ ?]%HQ). apply IH.
  - rewrite decide_False by (by intros [? _]%HQ). apply IH.
Qed.

Lemma primaryColumns_projection columns scanned :
  (fun oneRow => field oneRow 1)
    <$> filter (fun oneRow => field oneRow 0 = "PRIMARY")
          (projectRows columns ["KEY_NAME"; "COLUMN_NAME"] scanned)
  = (fun oneRow => nullText (cellOf columns oneRow "COLUMN_NAME"))
      <$> filter (primaryRow columns) scanned.
Proof.
  unfold projectRows.
  rewrite (filter_fmap_filter
             (fun oneRow =>
                (fun name => nullText (cellOf columns oneRow name))
                  <$> ["KEY_NAME"; "COLUMN_NAME"])
             (fun oneRow =>
                existsb (fun name => nullValid (cellOf columns oneRow name))
                  ["KEY_NAME"; "COLUMN_NAME"] = true)
             (primaryRow columns)
             (fun oneRow => field oneRow 0 = "PRIMARY")).
  - by rewrite <-list_fmap_compose.
  - intros oneRow. unfold primaryRow, field. cbn.
    destruct (cellOf columns oneRow "KEY_NAME") as [key|]; cbn.
    + split; [by intros [= ->]|by intros [_ ->]].
    + split; [done|by intros [_ ?]].
Qed.

Lemma GetPrimaryKeyColumns_rows db database table rows columns scanned :
  NoDup (GoStrings.ToUpper <$> columns) ->
  QueryContext db (showIndexQuery database table) = inr rows ->
  rowsColumns rows = inr columns ->
  rowsPending rows = inr <$> scanned ->
  rowsFailure rows = None ->
  Forall (fun oneRow => length oneRow = length columns) scanned ->
  GetPrimaryKeyColumns rangeOrder db database table
  = ((fun oneRow => nullText (cellOf columns oneRow "COLUMN_NAME"))
       <$> filter (primaryRow columns) scanned, None).
Proof using rangeOrder_perm.
  intros Hdistinct Hquery Hcols Hpending Hfailure Hlen.
  unfold GetPrimaryKeyColumns. unfold showIndexQuery in Hquery. rewrite Hquery.
  assert (NoDup ["KEY_NAME"; "COLUMN_NAME"]) as Hnames
    by (apply (bool_decide_unpack _); by vm_compute).
  rewrite (GetSpecified_projection rangeOrder rangeOrder_perm columns
             ["KEY_NAME"; "COLUMN_NAME"] Hdistinct Hnames rows scanned
             Hcols Hpending Hlen).
  rewrite Hfailure. destruct (requestedAny _ _); simpl;
    by rewrite primaryColumns_filter, primaryColumns_projection.
Qed.

Lemma selectFieldLoop_filter results availableFields hasGenerateColumn :
  selectFieldLoop wrapBackTicks results availableFields hasGenerateColumn
  = (availableFields
       ++ ((fun oneRow => wrapBackTicks (escapeString (field oneRow 0)))
             <$> filter (fun oneRow => generatedRow oneRow = false) results),
     hasGenerateColumn || existsb generatedRow results).
Proof.
  revert availableFields hasGenerateColumn.
  induction results as [|oneRow results IH]; intros availableFields flag.
  { simpl. by rewrite app_nil_r, orb_false_r. }
  cbn [selectFieldLoop existsb]. rewrite filter_cons.
  fold (generatedRow oneRow). destruct (generatedRow oneRow) eqn:Hgen.
  - rewrite IH. rewrite decide_False by done. by rewrite orb_true_r.
  - rewrite IH. rewrite decide_True by done.
    rewrite fmap_cons. by rewrite <-app_assoc.
Qed.
End KeysFacts.

(** X10. From the answer of SHOW INDEX, [GetPrimaryKeyColumns] returns
    the column names of the rows whose key name is PRIMARY, in the order
    of the rows, and nothing of the other keys; a table without primary
    key gives no column and no error. *)
Theorem GetPrimaryKeyColumns_spec
    (rangeOrder : nat -> gmap nat nat -> list (nat * nat))
    (db : Sql.Conn) (database table : string) (rows : Sql.Rows)
    (columns : list string) (scanned : list (list Sql.NullString)) :
  (forall n m, rangeOrder n m ≡ₚ map_to_list m) ->
  NoDup (GoStrings.ToUpper <$> columns) ->
  Sql.QueryContext db (Metadata.showIndexQuery database table) = inr rows ->
  Sql.rowsColumns rows = inr columns ->
  Sql.rowsPending rows = inr <$> scanned ->
  Sql.rowsFailure rows = None ->
  Forall (fun oneRow => length oneRow = length columns) scanned ->
  Keys.GetPrimaryKeyColumns rangeOrder db database table
  = ((fun oneRow => Sql.nullText (Columns.cellOf columns oneRow "COLUMN_NAME"))
       <$> filter (Keys.primaryRow columns) scanned, None).
Proof. intros Hperm. by apply GetPrimaryKeyColumns_rows. Qed.

Lemma GetPrimaryKeyColumns_spec_witness :
  Keys.GetPrimaryKeyColumns Keys.mapOrder
    (Sql.constConn None (inr Keys.compositeKeyIndex)) "db" "t"
  = (["a"; "b"], None).
Proof.
  apply (GetPrimaryKeyColumns_spec Keys.mapOrder
           (Sql.constConn None (inr Keys.compositeKeyIndex)) "db" "t"
           Keys.compositeKeyIndex
           ["Table"; "Non_unique"; "Key_name"; "Seq_in_index"; "Column_name"]
           [ [Some "t"; Some "0"; Some "PRIMARY"; Some "1"; Some "a"];
             [Some "t"; Some "0"; Some "PRIMARY"; Some "2"; Some "b"];
             [Some "t"; Some "1"; Some "idx"; Some "1"; Some "c"] ]).
  - reflexivity.
  - apply (bool_decide_unpack _). vm_compute. reflexivity.
  - reflexivity.
  - reflexivity.
  - reflexivity.
  - reflexivity.
  - repeat constructor.
Defined.

(** X11. [buildOrderByClause] does not ask the database when sorting by
    primary key is off (no clause) or when the table has the implicit row
    id (the clause on _tidb_rowid).  Otherwise the clause lists the
    primary key columns of SHOW INDEX in their order, and it is empty
    for a table without primary key; an error of the statement is
    returned with the driver's error as its cause. *)
Theorem buildOrderByClause_spec
    (rangeOrder : nat -> gmap nat nat -> list (nat * nat))
    (conf : QueryBuilder.Config) (db : Sql.Conn) (database table : string) :
  (forall n m, rangeOrder n m ≡ₚ map_to_list m) ->
  (forall hasImplicitRowID,
     QueryBuilder.SortByPk conf = false ->
     Keys.buildOrderByClause rangeOrder conf db database table hasImplicitRowID
     = (EmptyString, None))
  ∧ (QueryBuilder.SortByPk conf = true ->
     Keys.buildOrderByClause rangeOrder conf db database table true
     = ("ORDER BY `_tidb_rowid`", None))
  ∧ (forall err,
       QueryBuilder.SortByPk conf = true ->
       Sql.QueryContext db (Metadata.showIndexQuery database table) = inl err ->
       exists err',
         Keys.buildOrderByClause rangeOrder conf db database table false
         = (EmptyString, Some err')
         ∧ Sql.Cause err' = Sql.Cause err)
  ∧ (forall rows columns scanned,
       QueryBuilder.SortByPk conf = true ->
       NoDup (GoStrings.ToUpper <$> columns) ->
       Sql.QueryContext db (Metadata.showIndexQuery database table) = inr rows ->
       Sql.rowsColumns rows = inr columns ->
       Sql.rowsPending rows = inr <$> scanned ->
       Sql.rowsFailure rows = None ->
       Forall (fun oneRow => length oneRow = length columns) scanned ->
       let cols :=
         (fun oneRow => Sql.nullText (Columns.cellOf columns oneRow "COLUMN_NAME"))
           <$> filter (Keys.primaryRow columns) scanned in
       Keys.buildOrderByClause rangeOrder conf db database table false
       = (if decide (cols = []) then EmptyString
          else "ORDER BY "
                 +:+ GoStrings.Join
                       ((fun col => "`" +:+ escapeString col +:+ "`") <$> cols) ",",
          None)).
Proof.
  intros Hperm. split_and!.
  - intros implicit Hsort. unfold Keys.buildOrderByClause. by rewrite Hsort.
  - intros Hsort. unfold Keys.buildOrderByClause. by rewrite Hsort.
  - intros err Hsort Hquery. unfold Keys.buildOrderByClause, Keys.GetPrimaryKeyColumns.
    rewrite Hsort. unfold Metadata.showIndexQuery in Hquery. rewrite Hquery.
    simpl. eauto.
  - intros rows columns scanned Hsort Hdistinct Hquery Hcols Hpending Hfailure
      Hlen cols.
    unfold Keys.buildOrderByClause. rewrite Hsort. cbn [negb].
    rewrite (GetPrimaryKeyColumns_rows rangeOrder Hperm db database table rows
               columns scanned) by done.
    fold cols. by rewrite QueryBuilderFacts.buildOrderByClauseString_text.
Qed.

Lemma buildOrderByClause_spec_witness :
  Keys.buildOrderByClause Keys.mapOrder
    {| QueryBuilder.Where := EmptyString; QueryBuilder.SortByPk := true |}
    (Sql.constConn None (inr Keys.compositeKeyIndex)) "db" "t" false
  = ("ORDER BY `a`,`b`", None).
Proof.
  pose proof (buildOrderByClause_spec Keys.mapOrder
                {| QueryBuilder.Where := EmptyString; QueryBuilder.SortByPk := true |}
                (Sql.constConn None (inr Keys.compositeKeyIndex)) "db" "t")
    as H.
  destruct H as (_&_&_&H); [reflexivity|].
  apply (H Keys.compositeKeyIndex
           ["Table"; "Non_unique"; "Key_name"; "Seq_in_index"; "Column_name"]
           [ [Some "t"; Some "0"; Some "PRIMARY"; Some "1"; Some "a"];
             [Some "t"; Some "0"; Some "PRIMARY"; Some "2"; Some "b"];
             [Some "t"; Some "1"; Some "idx"; Some "1"; Some "c"] ]).
  - reflexivity.
  - apply (bool_decide_unpack _). vm_compute. reflexivity.
  - reflexivity.
  - reflexivity.
  - reflexivity.
  - reflexivity.
  - repeat constructor.
Defined.

Lemma buildSelectField_rows
    (rangeOrder : nat -> gmap nat nat -> list (nat * nat))
    (wrapBackTicks : string -> string)
    (db : Sql.Conn) (dbName tableName : string) (completeInsert : bool)
    (rows : Sql.Rows) (columns : list string)
    (scanned : list (list Sql.NullString)) :
  (forall n m, rangeOrder n m ≡ₚ map_to_list m) ->
  NoDup (GoStrings.ToUpper <$> columns) ->
  Sql.QueryContext db
    ("SHOW COLUMNS FROM `" +:+ escapeString dbName +:+ "`.`"
       +:+ escapeString tableName +:+ "`") = inr rows ->
  Sql.rowsColumns rows = inr columns ->
  Sql.rowsPending rows = inr <$> scanned ->
  Sql.rowsFailure rows = None ->
  Forall (fun oneRow => length oneRow = length columns) scanned ->
  let described := Columns.projectRows columns ["FIELD"; "EXTRA"] scanned in
  let writable :=
    filter (fun oneRow => Keys.generatedRow oneRow = false) described in
  Keys.buildSelectField rangeOrder wrapBackTicks db dbName tableName
    completeInsert
  = (if completeInsert || existsb Keys.generatedRow described
     then GoStrings.Join
            ((fun oneRow => wrapBackTicks (escapeString (Metadata.field oneRow 0)))
               <$> writable) ","
     else "*",
     length writable, None).
Proof.
  intros Hperm Hdistinct Hquery Hcols Hpending Hfailure Hlen described writable.
  unfold Keys.buildSelectField. rewrite Hquery.
  assert (NoDup ["FIELD"; "EXTRA"]) as Hnames
    by (apply (bool_decide_unpack _); by vm_compute).
  rewrite (GetSpecified_projection rangeOrder Hperm columns
             ["FIELD"; "EXTRA"] Hdistinct Hnames rows scanned
             Hcols Hpending Hlen).
  rewrite Hfailure.
  assert ((if Columns.requestedAny columns ["FIELD"; "EXTRA"]
           then Sql.Trace None else None) = None) as ->
    by (by destruct (Columns.requestedAny _ _)).
  fold described. rewrite selectFieldLoop_filter. fold writable.
  cbn [app orb]. rewrite length_fmap.
  by destruct (completeInsert || existsb Keys.generatedRow described).
Qed.

(** X12. From the answer of SHOW COLUMNS, [buildSelectField] counts the
    columns that are not generated, whatever it returns as the list; it
    returns the star exactly when a complete insert is not asked for and no
    column is generated, and otherwise the wrapped, escaped names of the
    columns that are not generated, in the order of the rows and joined by
    commas: a generated column is never selected. *)
Theorem buildSelectField_spec
    (rangeOrder : nat -> gmap nat nat -> list (nat * nat))
    (wrapBackTicks : string -> string)
    (db : Sql.Conn) (dbName tableName : string) (completeInsert : bool)
    (rows : Sql.Rows) (columns : list string)
    (scanned : list (list Sql.NullString)) :
  (forall n m, rangeOrder n m ≡ₚ map_to_list m) ->
  NoDup (GoStrings.ToUpper <$> columns) ->
  Sql.QueryContext db
    ("SHOW COLUMNS FROM `" +:+ escapeString dbName +:+ "`.`"
       +:+ escapeString tableName +:+ "`") = inr rows ->
  Sql.rowsColumns rows = inr columns ->
  Sql.rowsPending rows = inr <$> scanned ->
  Sql.rowsFailure rows = None ->
  Forall (fun oneRow => length oneRow = length columns) scanned ->
  let described := Columns.projectRows columns ["FIELD"; "EXTRA"] scanned in
  let writable :=
    filter (fun oneRow => Keys.generatedRow oneRow = false) described in
  Keys.buildSelectField rangeOrder wrapBackTicks db dbName tableName
    completeInsert
  = (if completeInsert || existsb Keys.generatedRow described
     then GoStrings.Join
            ((fun oneRow => wrapBackTicks (escapeString (Metadata.field oneRow 0)))
               <$> writable) ","
     else "*",
     length writable, None).
Proof. apply buildSelectField_rows. Qed.

Lemma buildSelectField_spec_witness :
  Keys.buildSelectField Keys.mapOrder (fun s => "`" +:+ s +:+ "`")
    (Sql.constConn None (inr Keys.generatedColumns)) "db" "t" false
  = ("`id`,`name`", 2, None).
Proof.
  apply (buildSelectField_spec Keys.mapOrder (fun s => "`" +:+ s +:+ "`")
           (Sql.constConn None (inr Keys.generatedColumns)) "db" "t" false
           Keys.generatedColumns
           ["Field"; "Type"; "Null"; "Key"; "Default"; "Extra"]
           [ [Some "id"; Some "int"; Some "NO"; Some "PRI"; None; Some ""];
             [Some "name"; Some "varchar(12)"; Some "NO"; Some ""; None; Some ""];
             [Some "twice"; Some "int"; Some "YES"; Some ""; None;
              Some "VIRTUAL GENERATED"] ]).
  - reflexivity.
  - apply (bool_decide_unpack _). vm_compute. reflexivity.
  - reflexivity.
  - reflexivity.
  - reflexivity.
  - reflexivity.
  - repeat constructor.
Defined.
(** X25. [GetPrimaryKeyAndColumnTypes] returns the primary key columns
    of SHOW INDEX in row order and, at the same positions, their types
    in the metadata of the table, the empty type for a column that the
    metadata lacks. *)
Theorem GetPrimaryKeyAndColumnTypes_spec
    (rangeOrder : nat -> gmap nat nat -> list (nat * nat))
    (string2Map : list string -> list string -> gmap string string)
    (conn : Sql.Conn) (meta : Metadata.TableMeta) (rows : Sql.Rows)
    (columns : list string) (scanned : list (list Sql.NullString)) :
  (forall n m, rangeOrder n m ≡ₚ map_to_list m) ->
  NoDup (GoStrings.ToUpper <$> columns) ->
  Sql.QueryContext conn
    (Metadata.showIndexQuery (Metadata.DatabaseName meta) (Metadata.TableName meta))
  = inr rows ->
  Sql.rowsColumns rows = inr columns ->
  Sql.rowsPending rows = inr <$> scanned ->
  Sql.rowsFailure rows = None ->
  Forall (fun oneRow => length oneRow = length columns) scanned ->
  let colNames :=
    (fun oneRow => Sql.nullText (Columns.cellOf columns oneRow "COLUMN_NAME"))
      <$> filter (Keys.primaryRow columns) scanned in
  let colName2Type :=
    string2Map (Metadata.ColumnNames meta) (Metadata.ColumnTypes meta) in
  Keys.GetPrimaryKeyAndColumnTypes rangeOrder string2Map conn meta
  = (colNames,
     (fun colName => default EmptyString (colName2Type !! colName)) <$> colNames,
     None).
Proof.
  intros Hperm Hdistinct Hquery Hcols Hpending Hfailure Hlen colNames colName2Type.
  unfold Keys.GetPrimaryKeyAndColumnTypes.
  by rewrite (GetPrimaryKeyColumns_rows rangeOrder Hperm conn _ _ rows columns
                scanned Hdistinct Hquery Hcols Hpending Hfailure Hlen).
Qed.

Lemma GetPrimaryKeyAndColumnTypes_spec_witness :
  Keys.GetPrimaryKeyAndColumnTypes Keys.mapOrder Metadata.zipMap
    (Sql.constConn None (inr Keys.compositeKeyIndex))
    {| Metadata.DatabaseName := "db"; Metadata.TableName := "t";
       Metadata.ColumnNames := ["a"; "b"; "c"];
       Metadata.ColumnTypes := ["INT"; "VARCHAR"; "INT"];
       Metadata.HasImplicitRowID := false |}
  = (["a"; "b"], ["INT"; "VARCHAR"], None).
Proof.
  apply (GetPrimaryKeyAndColumnTypes_spec Keys.mapOrder Metadata.zipMap
           (Sql.constConn None (inr Keys.compositeKeyIndex))
           {| Metadata.DatabaseName := "db"; Metadata.TableName := "t";
              Metadata.ColumnNames := ["a"; "b"; "c"];
              Metadata.ColumnTypes := ["INT"; "VARCHAR"; "INT"];
              Metadata.HasImplicitRowID := false |}
           Keys.compositeKeyIndex
           ["Table"; "Non_unique"; "Key_name"; "Seq_in_index"; "Column_name"]
           [ [Some "t"; Some "0"; Some "PRIMARY"; Some "1"; Some "a"];
             [Some "t"; Some "0"; Some "PRIMARY"; Some "2"; Some "b"];
             [Some "t"; Some "1"; Some "idx"; Some "1"; Some "c"] ]).
  - reflexivity.
  - apply (bool_decide_unpack _). vm_compute. reflexivity.
  - reflexivity.
  - reflexivity.
  - reflexivity.
  - reflexivity.
  - repeat constructor.
Defined.
(** X27. When SHOW COLUMNS describes columns that are all generated,
    [buildSelectField] returns the empty list of fields and the count 0,
    whether a complete insert is asked for or not, and [buildSelectQuery]
    then selects the empty text constant, so that the query stays a
    statement: SELECT, two quotes, FROM and the quoted table. *)
Theorem all_generated_fields
    (rangeOrder : nat -> gmap nat nat -> list (nat * nat))
    (wrapBackTicks : string -> string)
    (db : Sql.Conn) (dbName tableName : string) (completeInsert : bool)
    (rows : Sql.Rows) (columns : list string)
    (scanned : list (list Sql.NullString)) :
  (forall n m, rangeOrder n m ≡ₚ map_to_list m) ->
  NoDup (GoStrings.ToUpper <$> columns) ->
  Sql.QueryContext db
    ("SHOW COLUMNS FROM `" +:+ escapeString dbName +:+ "`.`"
       +:+ escapeString tableName +:+ "`") = inr rows ->
  Sql.rowsColumns rows = inr columns ->
  Sql.rowsPending rows = inr <$> scanned ->
  Sql.rowsFailure rows = None ->
  Forall (fun oneRow => length oneRow = length columns) scanned ->
  let described := Columns.projectRows columns ["FIELD"; "EXTRA"] scanned in
  described ≠ [] ->
  Forall (fun oneRow => Keys.generatedRow oneRow = true) described ->
  Keys.buildSelectField rangeOrder wrapBackTicks db dbName tableName
    completeInsert = (EmptyString, 0, None)
  ∧ QueryBuilder.buildSelectQuery dbName tableName EmptyString EmptyString
      EmptyString EmptyString
    = "SELECT '' FROM `" +:+ escapeString dbName +:+ "`.`"
        +:+ escapeString tableName +:+ "`".
Proof.
  intros Hperm Hdistinct Hquery Hcols Hpending Hfailure Hlen described
    Hsome Hall.
  split.
  - rewrite (buildSelectField_rows rangeOrder wrapBackTicks db dbName tableName
               completeInsert rows columns scanned) by done.
    fold described.
    assert (existsb Keys.generatedRow described = true) as ->.
    { destruct described as [|oneRow described']; [done|].
      apply Forall_cons in Hall as [Hrow _]. simpl. by rewrite Hrow. }
    assert (filter (fun oneRow => Keys.generatedRow oneRow = false) described
            = []) as ->.
    { clear Hsome. induction Hall as [|oneRow described' Hrow _ IH]; [done|].
      rewrite filter_cons, decide_False by (by rewrite Hrow). done. }
    by rewrite orb_true_r.
  - rewrite QueryBuilderFacts.buildSelectQuery_text. unfold Partitioner.quoteCol.
    by text_norm.
Qed.

Lemma all_generated_fields_witness :
  Keys.buildSelectField Keys.mapOrder (fun s => "`" +:+ s +:+ "`")
    (Sql.constConn None (inr Keys.onlyGeneratedColumns)) "db" "t" false
  = (EmptyString, 0, None).
Proof.
  pose proof (all_generated_fields Keys.mapOrder (fun s => "`" +:+ s +:+ "`")
                (Sql.constConn None (inr Keys.onlyGeneratedColumns)) "db" "t"
                false Keys.onlyGeneratedColumns
                ["Field"; "Type"; "Null"; "Key"; "Default"; "Extra"]
                [ [Some "twice"; Some "int"; Some "YES"; Some ""; None;
                   Some "VIRTUAL GENERATED"] ]) as H.
  cbv zeta in H. destruct H as (H&_).
  - reflexivity.
  - apply (bool_decide_unpack _). vm_compute. reflexivity.
  - reflexivity.
  - reflexivity.
  - reflexivity.
  - reflexivity.
  - repeat constructor.
  - discriminate.
  - repeat constructor.
  - exact H.
Defined.

(** ** Statements read by a handler *)

Module SimpleQueryFacts.
Import Sql SimpleQuery.

Lemma ScanStrings_texts n current (strs : list string) :
  current = Some (inr (Some <$> strs)) -> length strs = n ->
  ScanStrings n current = inr strs.
Proof.
  intros -> Hlen. unfold ScanStrings, Scan.
  rewrite decide_True by (by rewrite length_fmap).
  assert (forallb nullValid (Some <$> strs) = true) as ->.
  { apply forallb_forall. intros v (s&->&_)%list_elem_of_In%list_elem_of_fmap.
    unfold nullValid. apply bool_decide_eq_true. by eexists. }
  f_equal. rewrite <-list_fmap_compose. by apply list_fmap_id.
Qed.

Lemma handleRows_app {St} rows
    (handle : Rows -> Error + list NullString -> St -> St * option Error)
    pending1 pending2 st :
  handleRows rows handle (pending1 ++ pending2) st
  = match handleRows rows handle pending1 st with
    | (st', Some err) => (st', Some err)
    | (st', None) => handleRows rows handle pending2 st'
    end.
Proof.
  revert st. induction pending1 as [|r pending1 IH]; intros st; [done|].
  simpl. destruct (handle rows r st) as [st' [err|]]; [done|]. apply IH.
Qed.

(** The rows of one text each, read by [handleOneRow]. *)
Lemma handleRows_names rows names data :
  handleRows rows handleOneRow ((fun s => inr [Some s]) <$> names) data
  = (data ++ names, None).
Proof.
  revert data. induction names as [|s names IH]; intros data.
  { simpl. by rewrite app_nil_r. }
  rewrite fmap_cons. cbn [handleRows]. unfold handleOneRow at 1.
  rewrite (ScanStrings_texts _ _ [s]) by done.
  rewrite IH. by rewrite <-app_assoc.
Qed.

(** The rows of two texts each, read by [handleTwoColumns]. *)
Lemma handleRows_pairs rows (pairs : list (string * string)) oneRow :
  handleRows rows handleTwoColumns
    ((fun p => inr [Some p.1; Some p.2]) <$> pairs) oneRow
  = (default oneRow (last pairs), None).
Proof.
  revert oneRow. induction pairs as [|p pairs IH]; intros oneRow; [done|].
  rewrite fmap_cons. cbn [handleRows]. unfold handleTwoColumns at 1.
  rewrite (ScanStrings_texts _ _ [p.1; p.2]) by done.
  rewrite IH.
  destruct pairs as [|p' pairs]; [by destruct p|].
  rewrite last_cons_cons.
  destruct (last (p' :: pairs)) eqn:Hlast; [done|]. by apply last_None in Hlast.
Qed.

(** The rows of one cell each, read by [handlePartitionRow]. *)
Lemma handleRows_cells rows (cells : list NullString) partitions :
  handleRows rows handlePartitionRow ((fun c => inr [c]) <$> cells) partitions
  = (partitions ++ omap id cells, None).
Proof.
  revert partitions. induction cells as [|c cells IH]; intros partitions.
  { simpl. by rewrite app_nil_r. }
  rewrite fmap_cons. cbn [handleRows]. unfold handlePartitionRow at 1.
  cbn [Scan length]. rewrite decide_True by done. cbn [omap list_omap].
  destruct c as [text|]; simpl; rewrite IH; [|done].
  by rewrite <-app_assoc.
Qed.

(** The rows of the status, read by [handleStatusRow]. *)
Lemma handleRows_status rows cols (statusRows : list (list string)) oneRow :
  rowsColumns rows = inr cols ->
  Forall (fun strs : list string => length strs = length cols) statusRows ->
  handleRows rows handleStatusRow
    ((fun strs : list string => inr (Some <$> strs)) <$> statusRows) oneRow
  = (default oneRow (last statusRows), None).
Proof.
  intros Hcols. revert oneRow.
  induction statusRows as [|strs statusRows IH]; intros oneRow Hlen; [done|].
  apply Forall_cons in Hlen as [Hlen0 Hlen].
  rewrite fmap_cons. cbn [handleRows]. unfold handleStatusRow at 1.
  rewrite Hcols, (ScanStrings_texts _ _ strs) by done.
  rewrite IH by done.
  destruct statusRows as [|strs' statusRows]; [done|].
  rewrite last_cons_cons.
  destruct (last (strs' :: statusRows)) eqn:Hlast; [done|].
  by apply last_None in Hlast.
Qed.

End SimpleQueryFacts.

(** X13. [ShowDatabases] and [ShowTables] return the names of the answer
    in its order.  When the statement fails, when a row fails to scan or
    holds NULL, or when the iteration ends with an error, they return no
    name at all, and the error has the driver's error as its cause. *)
Theorem ShowDatabases_ShowTables_spec
    (show : Sql.Conn -> list string * option Sql.Error) (sql : string)
    (db : Sql.Conn) :
  (show = SimpleQuery.ShowDatabases ∧ sql = "SHOW DATABASES")
  ∨ (show = SimpleQuery.ShowTables ∧ sql = "SHOW TABLES") ->
  (forall err,
     Sql.QueryContext db sql = inl err ->
     exists err', show db = ([], Some err') ∧ Sql.Cause err' = Sql.Cause err)
  ∧ (forall rows names,
       Sql.QueryContext db sql = inr rows ->
       Sql.rowsPending rows = (fun s => inr [Some s]) <$> names ->
       Sql.rowsFailure rows = None ->
       show db = (names, None))
  ∧ (forall rows names err,
       Sql.QueryContext db sql = inr rows ->
       Sql.rowsPending rows = (fun s => inr [Some s]) <$> names ->
       Sql.rowsFailure rows = Some err ->
       exists err', show db = ([], Some err') ∧ Sql.Cause err' = Sql.Cause err)
  ∧ (forall rows names err rest,
       Sql.QueryContext db sql = inr rows ->
       Sql.rowsPending rows = ((fun s => inr [Some s]) <$> names) ++ inl err :: rest ->
       exists err', show db = ([], Some err') ∧ Sql.Cause err' = Sql.Cause err)
  ∧ (forall rows names rest,
       Sql.QueryContext db sql = inr rows ->
       Sql.rowsPending rows = ((fun s => inr [Some s]) <$> names) ++ inr [None] :: rest ->
       exists err', show db = ([], Some err')).
Proof.
  intros Hshow.
  assert (show db
          = match SimpleQuery.simpleQuery db sql SimpleQuery.handleOneRow [] with
            | (_, Some err) => ([], Some err)
            | (data, None) => (data, None)
            end) as ->.
  { by destruct Hshow as [[-> ->]|[-> ->]]. }
  clear Hshow.
  unfold SimpleQuery.simpleQuery, SimpleQuery.simpleQueryWithArgs.
  cbn [SimpleQuery.QueryContextArgs SimpleQuery.withoutArgs].
  split_and!.
  - intros err ->. simpl. eauto.
  - intros rows names -> -> ->.
    by rewrite SimpleQueryFacts.handleRows_names.
  - intros rows names err -> -> ->.
    rewrite SimpleQueryFacts.handleRows_names. simpl. eauto.
  - intros rows names err rest -> ->.
    rewrite SimpleQueryFacts.handleRows_app, SimpleQueryFacts.handleRows_names.
    simpl. eauto.
  - intros rows names rest -> ->.
    rewrite SimpleQueryFacts.handleRows_app, SimpleQueryFacts.handleRows_names.
    simpl. eauto.
Qed.

Lemma ShowDatabases_ShowTables_spec_witness :
  SimpleQuery.ShowDatabases
    (Sql.constConn None
       (inr (SimpleQuery.oneColumn "Database" [Some "mysql"; Some "test"] None)))
  = (["mysql"; "test"], None).
Proof.
  pose proof (ShowDatabases_ShowTables_spec SimpleQuery.ShowDatabases
                "SHOW DATABASES"
                (Sql.constConn None
                   (inr (SimpleQuery.oneColumn "Database"
                           [Some "mysql"; Some "test"] None)))) as H.
  destruct H as (_&H&_); [by left|].
  apply (H (SimpleQuery.oneColumn "Database" [Some "mysql"; Some "test"] None)
           ["mysql"; "test"]); reflexivity.
Defined.



(** X15. [GetPartitionNames] returns the partition names of the answer
    that are not NULL, in its order: a table without partitions, for which
    the answer is one NULL, has none.  The names read so far are returned
    also when the iteration ends with an error or a row fails to scan. *)
Theorem GetPartitionNames_spec (db : SimpleQuery.ArgConn) (schema table : string)
    (rows : Sql.Rows) (cells : list Sql.NullString) :
  SimpleQuery.QueryContextArgs db SimpleQuery.partitionNamesQuery [schema; table]
  = inr rows ->
  (Sql.rowsPending rows = (fun c => inr [c]) <$> cells ->
   SimpleQuery.GetPartitionNames db schema table
   = (omap id cells,
      Sql.Annotatef (Sql.rowsFailure rows)
        (SimpleQuery.queryText SimpleQuery.partitionNamesQuery [schema; table])))
  ∧ (forall err rest,
       Sql.rowsPending rows = ((fun c => inr [c]) <$> cells) ++ inl err :: rest ->
       SimpleQuery.GetPartitionNames db schema table
       = (omap id cells,
          Some (Sql.Annotated (Sql.Traced err)
                  (SimpleQuery.queryText SimpleQuery.partitionNamesQuery
                     [schema; table])))).
Proof.
  intros Hquery.
  unfold SimpleQuery.GetPartitionNames, SimpleQuery.simpleQueryWithArgs.
  rewrite Hquery. split.
  - intros ->. by rewrite SimpleQueryFacts.handleRows_cells.
  - intros err rest ->.
    by rewrite SimpleQueryFacts.handleRows_app, SimpleQueryFacts.handleRows_cells.
Qed.

Lemma GetPartitionNames_spec_witness :
  SimpleQuery.GetPartitionNames
    {| SimpleQuery.QueryContextArgs := fun _ _ =>
         inr (SimpleQuery.oneColumn "PARTITION_NAME" [None] None) |}
    "db" "t"
  = ([], None).
Proof.
  pose proof (GetPartitionNames_spec
                {| SimpleQuery.QueryContextArgs := fun _ _ =>
                     inr (SimpleQuery.oneColumn "PARTITION_NAME" [None] None) |}
                "db" "t"
                (SimpleQuery.oneColumn "PARTITION_NAME" [None] None) [None]) as H.
  destruct H as (H&_); [reflexivity|].
  apply H. reflexivity.
Defined.

(** X16. [getSnapshot] returns the field of the status at the index of
    the snapshot, taken from the last row of the answer of SHOW MASTER
    STATUS.  When the answer has no row, [ShowMasterStatus] returns a nil
    slice without an error, and [getSnapshot] panics on the index instead
    of returning an error. *)
Theorem getSnapshot_spec (snapshotFieldIndex : nat) (db : Sql.Conn)
    (rows : Sql.Rows) :
  Sql.QueryContext db "SHOW MASTER STATUS" = inr rows ->
  Sql.rowsFailure rows = None ->
  (Sql.rowsPending rows = [] ->
   SimpleQuery.ShowMasterStatus db = ([], None)
   ∧ SimpleQuery.getSnapshot snapshotFieldIndex db = None)
  ∧ (forall cols statusRows lastRow,
       Sql.rowsColumns rows = inr cols ->
       Sql.rowsPending rows = (fun strs : list string => inr (Some <$> strs)) <$> statusRows ->
       Forall (fun strs : list string => length strs = length cols) statusRows ->
       last statusRows = Some lastRow ->
       SimpleQuery.getSnapshot snapshotFieldIndex db
       = (fun s => (s, None)) <$> (lastRow !! snapshotFieldIndex)).
Proof.
  intros Hquery Hfailure. split.
  - intros Hpending.
    assert (SimpleQuery.ShowMasterStatus db = ([], None)) as Hstatus.
    { unfold SimpleQuery.ShowMasterStatus, SimpleQuery.simpleQuery,
        SimpleQuery.simpleQueryWithArgs.
      cbn [SimpleQuery.QueryContextArgs SimpleQuery.withoutArgs].
      by rewrite Hquery, Hpending, Hfailure. }
    split; [done|]. unfold SimpleQuery.getSnapshot. by rewrite Hstatus.
  - intros cols statusRows lastRow Hcols Hpending Hlen Hlast.
    unfold SimpleQuery.getSnapshot, SimpleQuery.ShowMasterStatus,
      SimpleQuery.simpleQuery, SimpleQuery.simpleQueryWithArgs.
    cbn [SimpleQuery.QueryContextArgs SimpleQuery.withoutArgs].
    rewrite Hquery, Hpending, Hfailure.
    rewrite (SimpleQueryFacts.handleRows_status rows cols) by done.
    rewrite Hlast. simpl. by destruct (lastRow !! snapshotFieldIndex).
Qed.

Lemma getSnapshot_spec_witness :
  SimpleQuery.ShowMasterStatus (Sql.constConn None (inr Sql.noRows)) = ([], None)
  ∧ SimpleQuery.getSnapshot 1 (Sql.constConn None (inr Sql.noRows)) = None.
Proof.
  pose proof (getSnapshot_spec 1 (Sql.constConn None (inr Sql.noRows)) Sql.noRows)
    as H.
  destruct H as (H&_); [reflexivity|reflexivity|].
  apply H. reflexivity.
Defined.

(** ** Snapshots *)

Module SnapshotFacts.
Import Sql Snapshot.
Local Open Scope Z_scope.

Lemma isDigit_value c :
  isDigit c = true -> 0 <= Partitioner.digitValue c <= 9.
Proof.
  unfold isDigit, Partitioner.digitValue.
  intros [H1%N.leb_le H2%N.leb_le]%andb_true_iff. lia.
Qed.

Lemma decimalFrom_ge s n :
  allDigits s = true -> 0 <= n -> n <= Partitioner.decimalFrom n s.
Proof.
  revert n. induction s as [|c s IH]; intros n Hs Hn; [simpl; lia|].
  cbn [allDigits] in Hs. apply andb_true_iff in Hs as [Hc Hs].
  apply isDigit_value in Hc. cbn [Partitioner.decimalFrom].
  specialize (IH (10 * n + Partitioner.digitValue c) Hs). lia.
Qed.

Lemma parseDigits_decimal s n :
  allDigits s = true -> 0 <= n ->
  Partitioner.decimalFrom n s <= maxUint64 ->
  parseDigits n s = Some (Partitioner.decimalFrom n s).
Proof.
  revert n. induction s as [|c s IH]; intros n Hs Hn Hmax; [done|].
  cbn [allDigits] in Hs. apply andb_true_iff in Hs as [Hc Hs].
  cbn [parseDigits Partitioner.decimalFrom] in *. rewrite Hc.
  pose proof (isDigit_value c Hc) as Hd.
  pose proof (decimalFrom_ge s (10 * n + Partitioner.digitValue c) Hs) as Hge.
  unfold maxUint64 in *.
  change (2 ^ 64 - 1) with 18446744073709551615 in *.
  change (18446744073709551615 / 10 + 1) with 1844674407370955162.
  destruct (Z.leb_spec 1844674407370955162 n); [lia|].
  destruct (Z.ltb_spec 18446744073709551615 (n * 10 + Partitioner.digitValue c));
    [lia|].
  replace (n * 10) with (10 * n) by lia. apply IH; [done|lia|done].
Qed.

Lemma uint64_small x : 0 <= x < 2 ^ 64 -> uint64 x = x.
Proof. intros Hx. unfold uint64. by apply Z.mod_small. Qed.

End SnapshotFacts.

(** X17. A snapshot written as a decimal number below 2^64 is returned by
    [parseSnapshotToTSO] as that number, and the database is not asked. *)
Theorem parseSnapshotToTSO_decimal (pool : Snapshot.DB) (snapshot : string) :
  snapshot ≠ EmptyString ->
  Snapshot.allDigits snapshot = true ->
  (Partitioner.decimalLit snapshot < 2 ^ 64)%Z ->
  Snapshot.parseSnapshotToTSO pool snapshot
  = (Partitioner.decimalLit snapshot, None).
Proof.
  intros Hne Hdigits Hmax. unfold Snapshot.parseSnapshotToTSO, Snapshot.ParseUint.
  rewrite decide_False by done.
  rewrite SnapshotFacts.parseDigits_decimal; [done|done|done|].
  unfold Snapshot.maxUint64, Partitioner.decimalLit in *. lia.
Qed.

Lemma parseSnapshotToTSO_decimal_witness :
  Snapshot.parseSnapshotToTSO
    {| Snapshot.QueryRowScan := fun _ _ => inr None |} "418181818181818181"
  = (418181818181818181%Z, None).
Proof.
  apply (parseSnapshotToTSO_decimal
           {| Snapshot.QueryRowScan := fun _ _ => inr None |}
           "418181818181818181").
  - discriminate.
  - reflexivity.
  - reflexivity.
Defined.

(** X18. For a snapshot that is not a number, [parseSnapshotToTSO] asks
    the database for its unix time.  From a time of [sec] seconds that
    does not overflow, the result is the time in milliseconds shifted left
    by 18 bits: its upper bits are the milliseconds and its lower 18 bits
    are zero.  From NULL the result is the error that the format is not
    supported. *)
Theorem parseSnapshotToTSO_time (pool : Snapshot.DB) (snapshot : string) :
  Snapshot.ParseUint snapshot = None ->
  (forall sec : Z,
     Snapshot.QueryRowScan pool "SELECT unix_timestamp(?)" [snapshot]
     = inr (Some sec) ->
     (0 <= sec)%Z -> (sec * 1000 * 2 ^ 18 < 2 ^ 64)%Z ->
     let tso := (Snapshot.parseSnapshotToTSO pool snapshot).1 in
     Snapshot.parseSnapshotToTSO pool snapshot = (Z.shiftl (sec * 1000) 18, None)
     ∧ Z.shiftr tso 18 = (sec * 1000)%Z
     ∧ Z.land tso (2 ^ 18 - 1) = 0%Z)
  ∧ (Snapshot.QueryRowScan pool "SELECT unix_timestamp(?)" [snapshot] = inr None ->
     Snapshot.parseSnapshotToTSO pool snapshot
     = (0%Z,
        Some (Sql.ErrorString
                ("snapshot " +:+ snapshot +:+
                 " format not supported. please use tso or '2006-01-02 15:04:05' format time")))).
Proof.
  intros Hparse. split.
  - intros sec Hquery Hsec Hmax tso.
    assert (Snapshot.parseSnapshotToTSO pool snapshot
            = (Z.shiftl (sec * 1000) 18, None)) as Hresult.
    { unfold Snapshot.parseSnapshotToTSO. rewrite Hparse, Hquery.
      unfold Snapshot.mul64, Snapshot.shl64. f_equal.
      rewrite !Z.shiftl_mul_pow2 by lia.
      rewrite (SnapshotFacts.uint64_small sec) by lia.
      rewrite (SnapshotFacts.uint64_small (sec * 2 ^ 18)) by lia.
      rewrite SnapshotFacts.uint64_small by lia. lia. }
    unfold tso. rewrite Hresult. cbn [fst]. split_and!; [done| |].
    + rewrite Z.shiftr_shiftl_l by lia. by rewrite Z.sub_diag, Z.shiftl_0_r.
    + change (2 ^ 18 - 1)%Z with (Z.ones 18).
      rewrite Z.land_ones by lia. rewrite Z.shiftl_mul_pow2 by lia.
      apply Z.mod_mul. lia.
  - intros Hquery. unfold Snapshot.parseSnapshotToTSO. by rewrite Hparse, Hquery.
Qed.

Lemma parseSnapshotToTSO_time_witness :
  Snapshot.parseSnapshotToTSO
    {| Snapshot.QueryRowScan := fun _ _ => inr (Some 1595075510%Z) |}
    "2020-07-18 20:31:50"
  = (Z.shiftl (1595075510 * 1000) 18, None).
Proof.
  pose proof (parseSnapshotToTSO_time
                {| Snapshot.QueryRowScan := fun _ _ => inr (Some 1595075510%Z) |}
                "2020-07-18 20:31:50") as H.
  destruct H as (H&_); [reflexivity|].
  specialize (H 1595075510%Z). cbv zeta in H.
  destruct H as (H&_); [reflexivity|lia|reflexivity|].
  exact H.
Defined.

(** ** Locks on single tables *)

(** X19. For one base table that is not on the block list,
    [buildLockTablesSQL] builds the statement LOCK TABLES of this table,
    which is the statement that [LockTables] executes for it; the error
    of [LockTables] is the error of that statement, annotated with it. *)
Theorem buildLockTablesSQL_single_table
    (rangeOrder : gmap string (list Consistency.TableInfo)
                  -> list (string * list Consistency.TableInfo))
    (db : Sql.Conn) (database table : string) (avgRowLength : Z)
    (blockList : gmap string (gset string)) :
  (forall m, rangeOrder m ≡ₚ map_to_list m) ->
  Consistency.blocked blockList database table = false ->
  let statement :=
    Consistency.buildLockTablesSQL rangeOrder
      {[ database := [ {| Consistency.Name := table;
                          Consistency.AvgRowLength := avgRowLength;
                          Consistency.Type_ := Consistency.TableTypeBase |} ] ]}
      blockList in
  statement
  = "LOCK TABLES `" +:+ escapeString database +:+ "`.`"
      +:+ escapeString table +:+ "` READ"
  ∧ Locks.LockTables db database table
    = Sql.Annotatef (Sql.ExecContext db statement) ("sql: " +:+ statement).
Proof.
  intros Hperm Hblocked statement.
  assert (statement = Locks.lockTableQuery database table) as ->; [|done].
  unfold statement, Consistency.buildLockTablesSQL.
  pose proof (Hperm {[ database := [ {| Consistency.Name := table;
                        Consistency.AvgRowLength := avgRowLength;
                        Consistency.Type_ := Consistency.TableTypeBase |} ] ]})
    as Horder.
  rewrite map_to_list_singleton in Horder.
  apply Permutation_singleton_r in Horder. rewrite Horder.
  cbn [foldl fst snd]. unfold Consistency.lockStep.
  cbn [Consistency.Type_ Consistency.Name].
  rewrite decide_False by (by intros []). rewrite Hblocked. cbn [negb snd fst].
  unfold Locks.lockTableQuery. by text_norm.
Qed.

Lemma buildLockTablesSQL_single_table_witness :
  Consistency.buildLockTablesSQL map_to_list
    {[ "db" := [ {| Consistency.Name := "t";
                    Consistency.AvgRowLength := 0;
                    Consistency.Type_ := Consistency.TableTypeBase |} ] ]}
    ∅
  = "LOCK TABLES `db`.`t` READ".
Proof.
  pose proof (buildLockTablesSQL_single_table map_to_list
                (Sql.constConn None (inr Sql.noRows)) "db" "t" 0%Z ∅) as H.
  cbv zeta in H. destruct H as (H&_); [reflexivity|reflexivity|].
  exact H.
Defined.

(** ** Boundary tuples that are too short *)

Module PanicFacts.
Import Buffer Panic.

Lemma panics_bind_l {A B} (m : Buf A) (k : A -> Buf B) :
  panics m -> panics (m ≫= k).
Proof. intros Hm buf. unfold mbind, Buf_bind. by rewrite Hm. Qed.

Lemma panics_bind {A B} (m : Buf A) (k : A -> Buf B) :
  (forall a, panics (k a)) -> panics (m ≫= k).
Proof.
  intros Hk buf. unfold mbind, Buf_bind.
  destruct (m buf) as [[a buf']|]; [apply Hk|done].
Qed.

Lemma panics_index_None {A B} (l : list A) i (k : A -> Buf B) :
  l !! i = None -> panics (index l i ≫= k).
Proof. intros Hi buf. unfold mbind, Buf_bind, index. by rewrite Hi. Qed.

Lemma panics_sliceFrom {A B} (l : list A) n (k : list A -> Buf B) :
  panics (k (drop n l)) -> panics (sliceFrom l n ≫= k).
Proof.
  intros Hk buf. unfold mbind, Buf_bind, sliceFrom.
  destruct (decide (n <= length l)); [apply Hk|done].
Qed.

Lemma panics_lift {A B} (o : option A) (k : A -> Buf B) :
  (forall x, o = Some x -> panics (k x)) -> panics (lift o ≫= k).
Proof.
  intros Hk buf. unfold mbind, Buf_bind, lift.
  destruct o as [x|]; [by apply Hk|done].
Qed.

Lemma panics_forEachFrom {A} i (l : list A) body k x :
  l !! k = Some x -> panics (body (i + k) x) -> panics (forEachFrom i l body).
Proof.
  revert i k. induction l as [|y l IH]; intros i k Hk Hbody; [done|].
  cbn [forEachFrom]. destruct k as [|k].
  - injection Hk as ->. rewrite Nat.add_0_r in Hbody. by apply panics_bind_l.
  - apply panics_bind. intros _. apply (IH (S i) k); [done|].
    by rewrite Nat.add_succ_comm.
Qed.

Lemma buildCompareClause_panics quotaCols bound compare writeEqual :
  length bound < length quotaCols ->
  panics (buildCompareClause quotaCols bound compare writeEqual).
Proof.
  intros Hshort.
  destruct (lookup_lt_is_Some_2 quotaCols (length bound) Hshort) as [col Hcol].
  apply (panics_forEachFrom 0 quotaCols _ (length bound) col Hcol).
  cbn [Nat.add]. unfold compareStep.
  repeat first
    [ apply panics_index_None; apply lookup_ge_None_2; lia
    | apply panics_bind; intros ? ].
Qed.

Lemma betweenSuffix_panics quotaCols low up :
  1 <= length up -> length up < length quotaCols ->
  panics (betweenSuffix quotaCols low up).
Proof.
  intros Hup Hshort. unfold betweenSuffix.
  rewrite decide_False by lia.
  repeat first
    [ apply panics_bind_l; apply buildCompareClause_panics;
      rewrite !length_drop; lia
    | apply panics_sliceFrom
    | apply panics_bind; intros ? ].
Qed.

Lemma getCommonLengthFrom_short i low up c :
  i <= length up -> length up < i + length low ->
  getCommonLengthFrom i low up = Some c ->
  c < length up ∧ c < i + length low.
Proof.
  revert i. induction low as [|l low IH]; intros i Hi Hshort Hc.
  { simpl in Hshort. lia. }
  cbn [getCommonLengthFrom] in Hc.
  destruct (up !! i) as [ui|] eqn:Hui; [|done].
  apply lookup_lt_Some in Hui.
  destruct (decide (l ≠ ui)).
  - injection Hc as <-. simpl. lia.
  - apply IH in Hc; simpl in *; lia.
Qed.

Lemma buildBetweenClause_panics quotaCols low up :
  length up < length quotaCols -> length quotaCols <= length low ->
  panics (buildBetweenClause quotaCols low up).
Proof.
  intros Hshort Hlong. unfold buildBetweenClause.
  apply panics_lift. intros c Hc.
  apply getCommonLengthFrom_short in Hc as [Hc1 Hc2]; [|lia|simpl; lia].
  simpl in Hc2.
  destruct (decide (0 < c)).
  - rewrite decide_False by lia.
    repeat first
      [ apply panics_bind_l; apply betweenSuffix_panics;
        rewrite !length_drop; lia
      | apply panics_sliceFrom
      | apply panics_bind; intros ? ].
  - apply betweenSuffix_panics; lia.
Qed.

Lemma contents_panics m : panics m -> contents m = None.
Proof. intros Hm. unfold contents. by rewrite Hm. Qed.

End PanicFacts.

(** X20. A boundary tuple with fewer literals than the handle has columns
    makes [buildWhereClauses] panic, wherever the tuple stands in the
    table: no clause is returned for a table with such a tuple. *)
Theorem buildWhereClauses_short_tuple (handleColNames : list string)
    (handleVals : list (list string)) (i : nat) (t : list string) :
  handleVals !! i = Some t ->
  length t < length handleColNames ->
  buildWhereClauses handleColNames handleVals = None.
Proof.
  revert t. induction i as [|i IH]; intros t Ht Hshort.
  - unfold buildWhereClauses.
    rewrite decide_False
      by (apply lookup_lt_Some in Ht; intros [?|?]; lia).
    rewrite Ht. cbn [mbind option_bind].
    rewrite PanicFacts.contents_panics; [done|].
    apply PanicFacts.buildCompareClause_panics. by rewrite length_fmap.
  - destruct (lookup_lt_is_Some_2 handleVals i) as [low Hlow].
    { apply lookup_lt_Some in Ht. lia. }
    destruct (decide (length low < length handleColNames)) as [Hlow'|Hlow'];
      [by apply (IH low)|].
    unfold buildWhereClauses.
    rewrite decide_False
      by (apply lookup_lt_Some in Ht; intros [?|?]; lia).
    destruct (handleVals !! 0) as [first|]; [|done]. cbn [mbind option_bind].
    destruct (Buffer.contents _) as [w0|]; [|done]. cbn [mbind option_bind].
    rewrite mapM_None_2; [done|].
    apply Exists_exists. exists (S i). split.
    + apply elem_of_seq. apply lookup_lt_Some in Ht. lia.
    + cbn [Nat.sub]. rewrite Nat.sub_0_r, Hlow, Ht. cbn [mbind option_bind].
      apply PanicFacts.contents_panics, PanicFacts.buildBetweenClause_panics;
        rewrite length_fmap; lia.
Qed.

Lemma buildWhereClauses_short_tuple_witness :
  buildWhereClauses ["a"; "b"] [["1"; "2"]; ["3"]; ["5"; "0"]] = None.
Proof.
  apply (buildWhereClauses_short_tuple ["a"; "b"]
           [["1"; "2"]; ["3"]; ["5"; "0"]] 1 ["3"]).
  - reflexivity.
  - simpl. lia.
Defined.

(** ** The clause between two boundaries as a conjunction *)

Section ConjunctionFacts.
Context {V : Type} `{EqDecision V}.
Variable vlt : V -> V -> bool.
Variable lit : string -> V.

End ConjunctionFacts.


(** ** Listing the tables of the databases *)

Section ListingFacts.
Import Sql Metadata Consistency Listing.
Variable rangeOrder : nat -> gmap nat nat -> list (nat * nat).
Variable TableTypeViewStr : string.
Variable parseUintError : string -> Error.

Abbreviation statusLoop := (statusLoop TableTypeViewStr parseUintError).
Abbreviation listLoop := (listLoop rangeOrder TableTypeViewStr parseUintError).
Abbreviation tableOfRow := (tableOfRow TableTypeViewStr parseUintError).

Lemma statusLoop_tables tableTypes schema results dbTables dbTables' tables :
  dbTables !! schema = Some tables ->
  statusLoop tableTypes schema results dbTables = inr dbTables' ->
  dbTables'
  = <[schema := tables ++ omap (tableOfRow tableTypes) results]> dbTables.
Proof.
  revert dbTables tables.
  induction results as [|oneRow results IH]; intros dbTables tables Hschema Hloop.
  { injection Hloop as <-. cbn [omap list_omap]. rewrite app_nil_r.
    by rewrite insert_id. }
  cbn [Listing.statusLoop] in Hloop. cbn [omap list_omap].
  unfold Listing.tableOfRow at 1.
  destruct (rowAvgRowLength parseUintError oneRow) as [err|avgRowLength];
    [done|].
  destruct (rowTableType TableTypeViewStr oneRow) as [tableType|];
    [|by apply IH].
  destruct (bool_decide (tableType ∈ tableTypes)); [|by apply IH].
  rewrite Hschema in Hloop. cbn [default] in Hloop.
  apply (IH _ (tables ++ [ {| Name := field oneRow 0;
                              AvgRowLength := avgRowLength;
                              Type_ := tableType |} ])) in Hloop.
  - rewrite Hloop, insert_insert_eq. by rewrite <-app_assoc.
  - by rewrite lookup_insert_eq.
Qed.

Lemma listLoop_tables db tableTypes databaseNames dbTables result :
  listLoop db tableTypes databaseNames dbTables = (result, None) ->
  forall schema,
    result !! schema
    = if bool_decide (schema ∈ databaseNames)
      then Some (omap (tableOfRow tableTypes) (statusResults rangeOrder db schema))
      else dbTables !! schema.
Proof.
  revert dbTables.
  induction databaseNames as [|name databaseNames IH]; intros dbTables Hloop schema.
  { injection Hloop as <-. by rewrite bool_decide_eq_false_2 by apply not_elem_of_nil. }
  cbn [Listing.listLoop] in Hloop.
  destruct (QueryContext db (tableStatusQuery name)) as [err|rows] eqn:Hquery;
    [done|].
  destruct (GetSpecifiedColumnValuesAndClose rangeOrder (Some rows) statusColumns)
    as [results [err|]] eqn:Hresults; [done|].
  destruct (Listing.statusLoop _ _ _ _ _ _) as [err|dbTables'] eqn:Hstatus; [done|].
  apply (statusLoop_tables _ _ _ _ _ []) in Hstatus;
    [|by rewrite lookup_insert_eq].
  rewrite insert_insert_eq in Hstatus. cbn [app] in Hstatus. subst dbTables'.
  rewrite (IH _ Hloop schema).
  assert (statusResults rangeOrder db name = results) as Hname.
  { unfold statusResults. by rewrite Hquery, Hresults. }
  destruct (decide (schema ∈ databaseNames)) as [Hin|Hin].
  - rewrite !bool_decide_eq_true_2; [done| |done]. by right.
  - rewrite (bool_decide_eq_false_2 (schema ∈ databaseNames)) by done.
    destruct (decide (schema = name)) as [->|Hne].
    + rewrite lookup_insert_eq, bool_decide_eq_true_2 by left.
      by rewrite Hname.
    + rewrite lookup_insert_ne by done.
      rewrite bool_decide_eq_false_2; [done|].
      by intros [?|?]%elem_of_cons.
Qed.

Lemma listLoop_error db tableTypes databaseNames dbTables result err :
  listLoop db tableTypes databaseNames dbTables = (result, Some err) ->
  result = ∅.
Proof.
  revert dbTables.
  induction databaseNames as [|name databaseNames IH]; intros dbTables Hloop;
    [done|].
  cbn [Listing.listLoop] in Hloop.
  destruct (QueryContext db (tableStatusQuery name)) as [err'|rows];
    [by injection Hloop as <-|].
  destruct (GetSpecifiedColumnValuesAndClose rangeOrder (Some rows) statusColumns)
    as [results [err'|]]; [by injection Hloop as <-|].
  destruct (Listing.statusLoop _ _ _ _ _ _) as [err'|dbTables'];
    [by injection Hloop as <-|].
  by apply IH in Hloop.
Qed.

Lemma tableOfRow_selected tableTypes oneRow info :
  tableOfRow tableTypes oneRow = Some info -> Type_ info ∈ tableTypes.
Proof.
  unfold Listing.tableOfRow.
  destruct (rowAvgRowLength _ _) as [|avgRowLength]; [done|].
  destruct (rowTableType _ _) as [tableType|]; [|done].
  destruct (bool_decide (tableType ∈ tableTypes)) eqn:Hsel; [|done].
  intros [= <-]. by apply bool_decide_eq_true in Hsel.
Qed.
End ListingFacts.



(** ** The statements that create a view *)

Module ViewFacts.
Import Sql SimpleQuery Views.

Lemma handleRows_fields rows (fieldRows : list (list NullString)) fieldNames :
  Forall (fun oneRow => length oneRow = 6) fieldRows ->
  handleRows rows handleFieldRow (inr <$> fieldRows) fieldNames
  = (fieldNames
       ++ ((fun text => "`" +:+ escapeString text +:+ "` int")
             <$> omap (fun oneRow => default None (oneRow !! 0)) fieldRows),
     None).
Proof.
  revert fieldNames.
  induction fieldRows as [|oneRow fieldRows IH]; intros fieldNames Hlen.
  { simpl. by rewrite app_nil_r. }
  apply Forall_cons in Hlen as [Hlen0 Hlen].
  rewrite fmap_cons. cbn [handleRows]. unfold handleFieldRow at 1.
  cbn [Scan]. rewrite decide_True by done. cbn [omap list_omap].
  destruct (default None (oneRow !! 0)) as [text|]; rewrite IH by done; [|done].
  rewrite fmap_cons. by rewrite <-app_assoc.
Qed.

Lemma handleRows_view rows (viewTexts : list (list string)) oneRow :
  Forall (fun strs => length strs = 4) viewTexts ->
  handleRows rows handleViewRow
    ((fun strs : list string => inr (Some <$> strs)) <$> viewTexts) oneRow
  = (default oneRow (last viewTexts), None).
Proof.
  revert oneRow.
  induction viewTexts as [|strs viewTexts IH]; intros oneRow Hlen; [done|].
  apply Forall_cons in Hlen as [Hlen0 Hlen].
  rewrite fmap_cons. cbn [handleRows]. unfold handleViewRow at 1.
  rewrite (SimpleQueryFacts.ScanStrings_texts _ _ strs) by done.
  rewrite IH by done.
  destruct viewTexts as [|strs' viewTexts]; [done|].
  rewrite last_cons_cons.
  destruct (last (strs' :: viewTexts)) eqn:Hlast; [done|].
  by apply last_None in Hlast.
Qed.

Lemma SetCharset_append w characterSet collationConnection :
  SetCharset w characterSet collationConnection
  = w +:+ SetCharset EmptyString characterSet collationConnection.
Proof. unfold SetCharset. by text_norm. Qed.

Lemma RestoreCharset_append w :
  RestoreCharset w = w +:+ RestoreCharset EmptyString.
Proof. unfold RestoreCharset. by text_norm. Qed.

End ViewFacts.



(** ** Bounds of the chunk size *)

(** X26. For an average row length that is not negative,
    [GetSuitableRows] returns at most 1000000 rows; for a positive length
    the rows of a chunk take at most 128 MiB, a longer average row never
    gives more rows, and the result is 0 exactly when the average row is
    longer than 128 MiB. *)
Theorem GetSuitableRows_bounds (avgRowLength : Z) :
  (0 <= avgRowLength)%Z ->
  (0 <= Estimator.GetSuitableRows avgRowLength <= 1000000)%Z
  ∧ ((0 < avgRowLength)%Z ->
     (Estimator.GetSuitableRows avgRowLength * avgRowLength <= 134217728)%Z)
  ∧ (Estimator.GetSuitableRows avgRowLength = 0%Z
     <-> (134217728 < avgRowLength)%Z)
  ∧ (forall longer : Z,
       (0 < avgRowLength <= longer)%Z ->
       (Estimator.GetSuitableRows longer
        <= Estimator.GetSuitableRows avgRowLength)%Z).
Proof.
  intros Hpos.
  assert (forall a : Z,
            (0 < a)%Z ->
            Estimator.GetSuitableRows a = Z.min (134217728 / a) 1000000) as Hmin.
  { intros a Ha. unfold Estimator.GetSuitableRows, Estimator.defaultRows,
      Estimator.maxRows, Estimator.bytesPerFile.
    destruct (Z.eqb_spec a 0); [lia|].
    change (128 * 1024 * 1024)%Z with 134217728%Z.
    destruct (Z.gtb_spec (134217728 / a) 1000000); lia. }
  destruct (Z.eq_dec avgRowLength 0) as [->|Hne].
  { split; [|split; [|split]].
    - by vm_compute.
    - intros H; lia.
    - split; [intros H; vm_compute in H; discriminate|lia].
    - intros longer [H _]; lia. }
  assert (0 < avgRowLength)%Z as Hlt by lia.
  pose proof (Z.div_pos 134217728 avgRowLength ltac:(lia) Hlt) as Hq.
  pose proof (Z.mul_div_le 134217728 avgRowLength Hlt) as Hmul.
  rewrite (Hmin avgRowLength Hlt). split; [|split; [|split]].
  - lia.
  - intros _. nia.
  - split.
    + intros Hzero.
      assert (134217728 / avgRowLength = 0)%Z as Hdiv by lia.
      apply Z.div_small_iff in Hdiv; lia.
    + intros Hlong. rewrite Z.div_small by lia. lia.
  - intros longer [_ Hle]. rewrite (Hmin longer) by lia.
    pose proof (Z.div_le_compat_l 134217728 avgRowLength longer ltac:(lia)
                  ltac:(lia)). lia.
Qed.

Lemma GetSuitableRows_bounds_witness :
  (Estimator.GetSuitableRows 4096 * 4096 <= 134217728)%Z.
Proof.
  pose proof (GetSuitableRows_bounds 4096%Z) as H.
  destruct H as (_&H&_); [lia|].
  apply H. lia.
Defined.
